(** * NFT collection harvest and normalization: a shallow embedding

    The development follows three TypeScript sources:
    - [cli/commands/opensea.ts]: [fetchWithPagination] and [downloadMetadata];
    - [cli/commands/metadataPrepare.ts]: the flat-layout [prepareMetadata];
    - the split-layout [prepareMetadata] (assets/ and metadata/ directories).

    Asynchronous code is written in a state-and-error monad over a [World]
    that records the observable effects (HTTP requests, timers, console
    output, files).  The answers of the outside world (HTTP responses, disk
    failures, placeholder search results) come from a [Host] oracle. *)

From Stdlib Require Import ZArith Ascii String List Lia Sorting.Permutation Sorting.Sorted.
From stdpp Require Import base option list strings pretty gmap.

Open Scope string_scope.
Open Scope list_scope.
Open Scope Z_scope.

#[global] Arguments String.append !_ _ / : simpl nomatch.

(* ===================================================================== *)
(** ** JavaScript values used by the sources *)
(* ===================================================================== *)

Module JS.

(** Truthiness of a string: only the empty string is falsy. *)
Definition truthy (s : string) : bool :=
  match s with EmptyString => false | _ => true end.

(** Truthiness of [string | undefined]. *)
Definition truthy_opt (o : option string) : bool :=
  match o with Some s => truthy s | None => false end.

(** [Some rest] when [s] is [pat] followed by [rest]. *)
Fixpoint strip_prefix (pat s : string) : option string :=
  match pat, s with
  | EmptyString, _ => Some s
  | String a pat', String b s' =>
      if Ascii.eqb a b then strip_prefix pat' s' else None
  | String _ _, EmptyString => None
  end.

(** [s.replace(pat, rep)] with a string pattern: the first occurrence
    only. *)
Fixpoint replace (pat rep s : string) : string :=
  match strip_prefix pat s with
  | Some rest => rep +:+ rest
  | None =>
      match s with
      | EmptyString => EmptyString
      | String c s' => String c (replace pat rep s')
      end
  end.

(** [s.includes(pat)]. *)
Fixpoint includes (pat s : string) : bool :=
  match strip_prefix pat s with
  | Some _ => true
  | None =>
      match s with
      | EmptyString => false
      | String _ s' => includes pat s'
      end
  end.

(** How often a character occurs in a string. *)
Fixpoint count_char (c : ascii) (s : string) : nat :=
  match s with
  | EmptyString => 0
  | String a s' => (if Ascii.eqb a c then 1 else 0) + count_char c s'
  end%nat.

(** No character of [pat] is [x]. *)
Fixpoint avoids (x : ascii) (pat : string) : bool :=
  match pat with
  | EmptyString => true
  | String a pat' => negb (Ascii.eqb a x) && avoids x pat'
  end.

(** [s.endsWith(suffix)]. *)
Definition endsWith (suffix s : string) : bool :=
  let n := String.length s in
  let k := String.length suffix in
  (k <=? n)%nat && String.eqb (substring (n - k) k s) suffix.

Definition is_space (c : ascii) : bool :=
  let n := nat_of_ascii c in
  (n =? 32)%nat || ((9 <=? n)%nat && (n <=? 13)%nat).

Fixpoint trimStart (s : string) : string :=
  match s with
  | String c s' => if is_space c then trimStart s' else s
  | EmptyString => EmptyString
  end.

Definition digit (radix : Z) (c : ascii) : option Z :=
  let n := Z.of_nat (nat_of_ascii c) in
  let d := if (48 <=? n) && (n <=? 57) then Some (n - 48)
           else if (97 <=? n) && (n <=? 122) then Some (n - 87)
           else if (65 <=? n) && (n <=? 90) then Some (n - 55)
           else None in
  match d with
  | Some v => if v <? radix then Some v else None
  | None => None
  end.

(** The longest prefix of digits, [None] when there is none (NaN). *)
Fixpoint digits (radix : Z) (s : string) (acc : option Z) : option Z :=
  match s with
  | String c s' =>
      match digit radix c with
      | Some d => digits radix s' (Some (radix * default 0 acc + d))
      | None => acc
      end
  | EmptyString => acc
  end.

(** [parseInt(s)] without a radix argument; [None] is NaN.  Values are
    exact integers (the rounding of doubles above 2^53 is not modelled). *)
Definition parseInt (s : string) : option Z :=
  let s := trimStart s in
  let '(sign, s) :=
    match s with
    | String "-" s' => (-1, s')
    | String "+" s' => (1, s')
    | _ => (1, s)
    end in
  let r :=
    match s with
    | String "0" (String "x" s') => digits 16 s' None
    | String "0" (String "X" s') => digits 16 s' None
    | _ => digits 10 s None
    end in
  Z.mul sign <$> r.

(** [x > 0] on a possibly-NaN number. *)
Definition gt0 (x : option Z) : bool :=
  match x with Some v => 0 <? v | None => false end.

(** Errors thrown by the sources, and by the runtime under them. *)
Inductive Error :=
| Err_ (message : string)            (* new Error(message) *)
| TypeError (message : string)
| RangeError (message : string)
| FetchError                         (* fetch() rejected *)
| SyntaxError                        (* response.json() rejected *)
| IOError (path : string)            (* an fs.promises call rejected *)
| BodyError                          (* response.arrayBuffer() rejected *)
| RetryExhausted.                    (* thrown by the retry policy *)

(** The outcome of a promise: fulfilled, rejected, or still pending when
    the fuel of a loop without an a priori bound ran out. *)
Inductive Res (A : Type) :=
| Ok (a : A)
| Throw (e : Error)
| Pending.
Arguments Ok {A} a.
Arguments Throw {A} e.
Arguments Pending {A}.

Definition is_ok {A} (r : Res A) : bool :=
  match r with Ok _ => true | _ => false end.

End JS.
Export JS.

#[global] Instance Error_eq_dec : EqDecision Error.
Proof. solve_decision. Defined.

(* ===================================================================== *)
(** ** Data exchanged with the marketplace (interfaces of opensea.ts) *)
(* ===================================================================== *)

Record IMetadataAttribute := {
  trait_type : string;
  value : string;
}.

Record OwnerUser := {
  username : string;
  profile_img_url : string;
  address : string;
  config : string;
}.

Record Owner := {
  owner_quantity : string;
  owner_created_date : string;
  owner : OwnerUser;
}.

Record CollectionAsset := {
  asset_id : Z;
  token_id : string;
  image_url : option string;
  image_original_url : option string;
  asset_name : string;
  asset_description : string;
  traits : list IMetadataAttribute;
  asset_contract_address : string;
  collection_slug : string;
}.

Record AssetEvent := {
  asset : option CollectionAsset;       (* the back reference, deleted before storage *)
  event_type : string;
  event_created_date : string;
  from_account : option OwnerUser;
  to_account : option OwnerUser;
  event_quantity : string;
}.

(** [IOpenSeaMetadata]; [id] and [original_creation_date] are the fields the
    split-layout normalization adds.  Optional fields are the ones the
    sources reach through [?.]. *)
Record IOpenSeaMetadata := {
  name : string;
  description : string;
  image : string;
  attributes : option (list IMetadataAttribute);
  owners : list Owner;
  events : option (list AssetEvent);
  id : option string;
  original_creation_date : option string;
}.

(** The fields a listing response body may carry once parsed; the sources
    cast the parsed body without checking it, so every field is optional. *)
Record Page := {
  page_assets : option (list CollectionAsset);
  page_asset_events : option (list AssetEvent);
  page_owners : option (list Owner);
  next : option string;
}.

Record Response := {
  status : Z;
  statusText : string;
  retry_after : option string;          (* headers.get("retry-after") *)
  content_type : option string;         (* headers.get("content-type") *)
  json : option Page;                   (* None: response.json() rejects *)
  arrayBuffer : option string;          (* the raw body; None: response.arrayBuffer() rejects *)
}.

Definition ok (r : Response) : bool := (200 <=? status r) && (status r <=? 299).

(* ===================================================================== *)
(** ** URL objects *)
(* ===================================================================== *)

Module Url.

(** The parts of a WHATWG URL object that the sources read or write, as
    [new URL(s)] of Node makes them for an absolute address [s].
    Modelled: the scheme (lower-cased), the credentials, the host
    (lower-cased for the special schemes), the port (in normal form, a
    default port left out) and the split into path, query and fragment,
    for the four shapes of an address: a special scheme (http, https, ws,
    wss, ftp, file), whose slashes are optional; another scheme followed
    by "//" and an authority; another scheme followed by a path that
    starts with "/" (a URL without a host); and another scheme followed
    by anything else, an opaque path (data:, mailto:, ...).
    Not modelled: the text of path, query and fragment is kept as it is
    (no percent-encoding, no removal of dot segments, no backslashes, no
    care for the spaces at the end of an opaque path), and a host is
    checked for forbidden characters only (no IDNA, no normal form of IPv4
    and IPv6 numbers). *)
Record URL := {
  protocol : string;                  (* the scheme and ":" *)
  url_username : string;
  url_password : string;
  hostname : option string;           (* None: the URL has no host *)
  port : string;
  pathname : string;
  search : string;                    (* empty, or "?" and the query *)
  hash : string;                      (* empty, or "#" and the fragment *)
  opaque : bool;                      (* the path is opaque *)
}.

(** Split before the first character satisfying [stop]. *)
Fixpoint break (stop : ascii → bool) (s : string) : string * string :=
  match s with
  | EmptyString => (EmptyString, EmptyString)
  | String c s' =>
      if stop c then (EmptyString, s)
      else let '(a, b) := break stop s' in (String c a, b)
  end.

Definition is_char (x : ascii) (c : ascii) : bool := Ascii.eqb x c.

Definition tail (s : string) : string :=
  match s with String _ s' => s' | EmptyString => EmptyString end.

Definition starts_with (x : ascii) (s : string) : bool :=
  match s with String c _ => Ascii.eqb x c | EmptyString => false end.

Definition is_alpha (c : ascii) : bool :=
  let n := nat_of_ascii c in
  ((65 <=? n) && (n <=? 90) || (97 <=? n) && (n <=? 122))%nat.

Definition is_digit (c : ascii) : bool :=
  let n := nat_of_ascii c in ((48 <=? n) && (n <=? 57))%nat.

Definition lower (c : ascii) : ascii :=
  let n := nat_of_ascii c in
  if ((65 <=? n) && (n <=? 90))%nat then ascii_of_nat (n + 32) else c.

Fixpoint lowercase (s : string) : string :=
  match s with
  | String c s' => String (lower c) (lowercase s')
  | EmptyString => EmptyString
  end.

Fixpoint all_chars (p : ascii → bool) (s : string) : bool :=
  match s with
  | String c s' => p c && all_chars p s'
  | EmptyString => true
  end.

Fixpoint drop_while (p : ascii → bool) (s : string) : string :=
  match s with
  | String c s' => if p c then drop_while p s' else s
  | EmptyString => EmptyString
  end.

Fixpoint drop_end (p : ascii → bool) (s : string) : string :=
  match s with
  | EmptyString => EmptyString
  | String c s' =>
      match drop_end p s' with
      | EmptyString => if p c then EmptyString else String c EmptyString
      | t => String c t
      end
  end.

Fixpoint remove (p : ascii → bool) (s : string) : string :=
  match s with
  | String c s' => if p c then remove p s' else String c (remove p s')
  | EmptyString => EmptyString
  end.

Definition c0_or_space (c : ascii) : bool := (nat_of_ascii c <=? 32)%nat.

Definition tab_or_newline (c : ascii) : bool :=
  let n := nat_of_ascii c in ((n =? 9) || (n =? 10) || (n =? 13))%nat.

(** What the parser makes of its input before it reads it. *)
Definition clean (s : string) : string :=
  remove tab_or_newline (drop_end c0_or_space (drop_while c0_or_space s)).

Definition scheme_char (c : ascii) : bool :=
  is_alpha c || is_digit c || is_char "+" c || is_char "-" c || is_char "." c.

(** The scheme, lower-cased, and what follows its colon. *)
Definition split_scheme (s : string) : option (string * string) :=
  let '(a, b) := break (is_char ":") s in
  match a, b with
  | String c _, String _ rest =>
      if is_alpha c && all_chars scheme_char a then Some (lowercase a, rest) else None
  | _, _ => None
  end.

Definition special (scheme : string) : bool :=
  String.eqb scheme "http" || String.eqb scheme "https" || String.eqb scheme "ws"
  || String.eqb scheme "wss" || String.eqb scheme "ftp" || String.eqb scheme "file".

Definition default_port (scheme : string) : string :=
  if String.eqb scheme "http" || String.eqb scheme "ws" then "80"
  else if String.eqb scheme "https" || String.eqb scheme "wss" then "443"
  else if String.eqb scheme "ftp" then "21"
  else "".

(** The port in normal form; [None]: not a port. *)
Definition parse_port (scheme text : string) : option string :=
  if String.eqb text "" then Some ""
  else if all_chars is_digit text then
    let n := default 0 (digits 10 text None) in
    if 65535 <? n then None
    else Some (if String.eqb (pretty n) (default_port scheme) then "" else pretty n)
  else None.

Definition forbidden_host (c : ascii) : bool :=
  c0_or_space c || (nat_of_ascii c =? 127)%nat
  || is_char "#" c || is_char "/" c || is_char ":" c || is_char "<" c
  || is_char ">" c || is_char "?" c || is_char "@" c || is_char "[" c
  || is_char "\" c || is_char "]" c || is_char "^" c || is_char "|" c.

Definition host_text (s : string) : bool :=
  negb (String.eqb s "") && all_chars (λ c, negb (forbidden_host c)) s.

(** Split at the last occurrence of a character. *)
Fixpoint cut_last (c : ascii) (s : string) : option (string * string) :=
  match s with
  | EmptyString => None
  | String a s' =>
      match cut_last c s' with
      | Some (x, y) => Some (String a x, y)
      | None => if Ascii.eqb a c then Some (EmptyString, s') else None
      end
  end.

(** Host and port text of an authority without its credentials; a host in
    brackets (an IPv6 number) may hold colons. *)
Definition split_host_port (s : string) : option (string * string) :=
  if starts_with "[" s then
    match break (is_char "]") s with
    | (inside, String _ behind) =>
        match behind with
        | EmptyString => Some (inside +:+ "]", "")
        | String ":" prt => Some (inside +:+ "]", prt)
        | _ => None
        end
    | _ => None
    end
  else
    let '(host, rest) := break (is_char ":") s in
    if host_text host then Some (host, tail rest) else None.

(** Credentials, host and port of an authority; [None]: the address is
    invalid.  An empty authority is an empty host, which a special scheme
    does not take. *)
Definition parse_authority (scheme authority : string)
  : option (string * string * string * string) :=
  if String.eqb authority "" then
    if special scheme then None else Some ("", "", "", "")
  else
    let '(userinfo, hostport) :=
      match cut_last "@" authority with
      | Some (ui, hp) => (ui, hp)
      | None => ("", authority)
      end in
    let '(user, rest) := break (is_char ":") userinfo in
    match split_host_port hostport with
    | Some (host, prt) =>
        match parse_port scheme prt with
        | Some p =>
            Some (user, tail rest, if special scheme then lowercase host else host, p)
        | None => None
        end
    | None => None
    end.

Definition stop_authority (c : ascii) : bool :=
  is_char "/" c || is_char "?" c || is_char "#" c.

(** Path, query and fragment of what follows the authority. *)
Definition split_tail (rest : string) : string * string * string :=
  let '(path, rest) := break (λ c, is_char "?" c || is_char "#" c) rest in
  let '(query, fragment) := break (is_char "#") rest in
  (path, query, fragment).

(** An address with an authority. *)
Definition hierarchical (scheme rest : string) : option URL :=
  let '(authority, rest) := break stop_authority rest in
  let '(path, query, fragment) := split_tail rest in
  match parse_authority scheme authority with
  | Some (user, pass, host, prt) =>
      Some {| protocol := scheme +:+ ":"; url_username := user; url_password := pass;
              hostname := Some host; port := prt;
              pathname := if special scheme && String.eqb path "" then "/" else path;
              search := query; hash := fragment; opaque := false |}
  | None => None
  end.

(** A file address: the host may be empty and has neither credentials nor
    a port. *)
Definition parse_file (rest : string) : option URL :=
  match strip_prefix "//" rest with
  | Some rest' =>
      let '(host, rest'') := break stop_authority rest' in
      let '(path, query, fragment) := split_tail rest'' in
      if String.eqb host "" || host_text host then
        Some {| protocol := "file:"; url_username := ""; url_password := "";
                hostname := Some (if String.eqb (lowercase host) "localhost"
                                  then "" else lowercase host);
                port := "";
                pathname := if String.eqb path "" then "/" else path;
                search := query; hash := fragment; opaque := false |}
      else None
  | None =>
      let '(path, query, fragment) := split_tail rest in
      Some {| protocol := "file:"; url_username := ""; url_password := "";
              hostname := Some ""; port := "";
              pathname := if starts_with "/" path then path else "/" +:+ path;
              search := query; hash := fragment; opaque := false |}
  end.

(** [new URL(s)], without a base; [None] is the TypeError of an invalid
    URL. *)
Definition parse (s : string) : option URL :=
  match split_scheme (clean s) with
  | None => None
  | Some (scheme, rest) =>
      if String.eqb scheme "file" then parse_file rest
      else if special scheme then hierarchical scheme (drop_while (is_char "/") rest)
      else
        match strip_prefix "//" rest with
        | Some rest' => hierarchical scheme rest'
        | None =>
            let '(path, query, fragment) := split_tail rest in
            Some {| protocol := scheme +:+ ":"; url_username := ""; url_password := "";
                    hostname := None; port := "";
                    pathname := path; search := query; hash := fragment;
                    opaque := negb (starts_with "/" rest) |}
        end
  end.

Definition credentials (u : URL) : string :=
  if String.eqb (url_username u) "" && String.eqb (url_password u) "" then ""
  else url_username u
         +:+ (if String.eqb (url_password u) "" then "" else ":" +:+ url_password u)
         +:+ "@".

(** [url.toString()]: the serialization. *)
Definition toString (u : URL) : string :=
  protocol u
    +:+ match hostname u with
        | Some host =>
            "//" +:+ credentials u +:+ host
              +:+ (if String.eqb (port u) "" then "" else ":" +:+ port u)
        | None =>
            if negb (opaque u) && bool_decide (is_Some (strip_prefix "//" (pathname u)))
            then "/." else ""
        end
    +:+ pathname u +:+ search u +:+ hash u.

Definition scheme_of (u : URL) : string := fst (break (is_char ":") (protocol u)).

(** [url.search = v]. *)
Definition set_search (v : string) (u : URL) : URL :=
  {| protocol := protocol u; url_username := url_username u; url_password := url_password u;
     hostname := hostname u; port := port u; pathname := pathname u;
     search := if String.eqb v "" then ""
               else if starts_with "?" v then v else "?" +:+ v;
     hash := hash u; opaque := opaque u |}.

(** [url.hostname = v]: nothing happens on a URL with an opaque path, or
    when [v] is not a host. *)
Definition set_hostname (v : string) (u : URL) : URL :=
  if opaque u then u
  else
    let host := fst (break stop_authority v) in
    if host_text host then
      {| protocol := protocol u; url_username := url_username u; url_password := url_password u;
         hostname := Some (if special (scheme_of u) then lowercase host else host);
         port := port u; pathname := pathname u; search := search u;
         hash := hash u; opaque := false |}
    else u.

(** [url.pathname = v], for a value without "?" and "#": nothing happens
    on a URL with an opaque path; elsewhere the path starts with "/" (an
    empty value leaves no path at all on a URL that has a host and a
    scheme that is not special). *)
Definition set_pathname (v : string) (u : URL) : URL :=
  if opaque u then u
  else
    {| protocol := protocol u; url_username := url_username u; url_password := url_password u;
       hostname := hostname u; port := port u;
       pathname := if String.eqb v "" then
                     (if special (scheme_of u) || bool_decide (hostname u = None)
                      then "/" else "")
                   else if starts_with "/" v then v else "/" +:+ v;
       search := search u; hash := hash u; opaque := false |}.

End Url.
Export Url.

(* ===================================================================== *)
(** ** The world: effects and the host oracle *)
(* ===================================================================== *)

Inductive Request :=
| GetImage (url : string)
| GetEvents (apiKey contract token : string) (cursor : option string)
| GetOwners (apiKey contract token : string) (cursor : option string)
| GetAssets (apiKey collection : string) (cursor : option string)
| GiphySearch (term : string) (offset : Z).   (* gf.search(term, {offset, limit}) *)

#[global] Instance Request_eq_dec : EqDecision Request.
Proof. solve_decision. Defined.

Inductive File :=
| Binary (bytes : string)
| Json (metadata : IOpenSeaMetadata).   (* the text JSON.stringify(metadata, null, 2) *)

Inductive Event :=
| Fetch (r : Request)
| Sleep (ms : Z)                        (* the setTimeout of a rate-limited fetcher *)
| Backoff (ms : Z)                      (* the delay of the retry policy *)
| Log (line : string)
| LogPage (p : Page)                    (* console.log(JSON.stringify(page, null, 2)) *)
| ConsoleError (e : Error)
| Mkdir (path : string)                 (* fs.promises.mkdir(path, {recursive}) was called *)
| WriteFile (path : string) (data : File) (done : bool)
| CopyFile (src dst : string) (done : bool)
| UnhandledRejection (e : Error).       (* a rejected promise nobody awaits *)

Record Host := {
  (** the answer to the n-th fetch of a request; [None]: fetch rejects *)
  net : Request → nat → option Response;
  (** whether the n-th write to a path succeeds *)
  disk : string → nat → bool;
  (** whether the n-th creation of a directory succeeds *)
  mkdir_ok : string → nat → bool;
  (** [extension] of mime-types; [None] is its [false] *)
  mime_extension : string → option string;
  (** the multiplicative factor of the retry policy *)
  backoffFactor : Z;
  (** the entries of a directory in the order [opendir] enumerates them:
      name and whether the entry is a file *)
  opendir : string → list (string * bool);
  (** the placeholder search: for a term and an offset, the original URLs of
      the items found and [pagination.total_count]; [None]: the call rejects *)
  giphy_search : string → Z → option (list string * Z);
  (** [new Date(s)] as milliseconds since the epoch; [None]: Invalid Date *)
  date_parse : string → option Z;
  (** [toLocaleDateString("en-US", {year, month: "long", day})] of a valid date *)
  toLocaleDateString : Z → string;
  (** [toISOString()] of a valid date *)
  toISOString : Z → string;
}.

Record World := {
  trace : list Event;                   (* oldest first *)
  fs : gmap string File;
  heap : list URL;                      (* the URL objects allocated so far *)
}.

Definition M (A : Type) : Type := World → Res A * World.

#[global] Instance M_ret : MRet M := λ A a w, (Ok a, w).
#[global] Instance M_bind : MBind M := λ A B f m w,
  match m w with
  | (Ok a, w') => f a w'
  | (Throw e, w') => (Throw e, w')
  | (Pending, w') => (Pending, w')
  end.

Definition throw {A} (e : Error) : M A := λ w, (Throw e, w).

(** The world after some more events. *)
Definition after (es : list Event) (w : World) : World :=
  {| trace := trace w ++ es; fs := fs w; heap := heap w |}.

Definition emit (e : Event) : M unit := λ w, (Ok tt, after [e] w).

Fixpoint count_fetch (r : Request) (t : list Event) : nat :=
  match t with
  | Fetch r' :: t' => (if decide (r' = r) then 1 else 0) + count_fetch r t'
  | _ :: t' => count_fetch r t'
  | [] => 0
  end%nat.

Fixpoint count_write (path : string) (t : list Event) : nat :=
  match t with
  | WriteFile p _ _ :: t' => (if decide (p = path) then 1 else 0) + count_write path t'
  | _ :: t' => count_write path t'
  | [] => 0
  end%nat.

(** The requests of a trace, in order. *)
Fixpoint fetches (t : list Event) : list Request :=
  match t with
  | Fetch r :: t' => r :: fetches t'
  | _ :: t' => fetches t'
  | [] => []
  end.

(** The attempts to write a file in a trace, in order: path, content and
    outcome. *)
Fixpoint writes (t : list Event) : list (string * File * bool) :=
  match t with
  | WriteFile p data done :: t' => (p, data, done) :: writes t'
  | _ :: t' => writes t'
  | [] => []
  end.

(** The records written with success in a trace, in order. *)
Fixpoint records_written (t : list Event) : list (string * IOpenSeaMetadata) :=
  match t with
  | WriteFile p (Json m) true :: t' => (p, m) :: records_written t'
  | _ :: t' => records_written t'
  | [] => []
  end.

(** [fetch(url)]: the answer depends on how often the same request was made
    before, not on what other tasks did in between. *)
Definition fetch (h : Host) (r : Request) : M Response := λ w,
  match net h r (count_fetch r (trace w)) with
  | Some resp => (emit (Fetch r);; mret resp) w
  | None => (emit (Fetch r);; throw FetchError) w
  end.

(** [fs.promises.writeFile(path, data)]. *)
Definition writeFile (h : Host) (path : string) (data : File) : M unit := λ w,
  if disk h path (count_write path (trace w))
  then (Ok tt, {| trace := trace w ++ [WriteFile path data true];
                  fs := <[path := data]> (fs w); heap := heap w |})
  else (Throw (IOError path), after [WriteFile path data false] w).

Fixpoint count_mkdir (path : string) (t : list Event) : nat :=
  match t with
  | Mkdir p :: t' => (if decide (p = path) then 1 else 0) + count_mkdir path t'
  | _ :: t' => count_mkdir path t'
  | [] => 0
  end%nat.

(** [await fs.promises.mkdir(path, { recursive: true })]. *)
Definition mkdir (h : Host) (path : string) : M unit := λ w,
  if mkdir_ok h path (count_mkdir path (trace w))
  then (Ok tt, after [Mkdir path] w)
  else (Throw (IOError path), after [Mkdir path] w).

(** [await response.arrayBuffer()]. *)
Definition response_arrayBuffer (r : Response) : M string :=
  match arrayBuffer r with
  | Some body => mret body
  | None => throw BodyError
  end.

(** [response.json()]. *)
Definition response_json (r : Response) : M Page :=
  match json r with
  | Some p => mret p
  | None => throw SyntaxError
  end.

(** [new URL(s)]: a fresh object; the result is its reference. *)
Definition new_URL (s : string) : M nat := λ w,
  match Url.parse s with
  | Some u => (Ok (length (heap w)),
               {| trace := trace w; fs := fs w; heap := heap w ++ [u] |})
  | None => (Throw (TypeError "Invalid URL"), w)
  end.

Definition deref (r : nat) (w : World) : URL :=
  default (Build_URL "" "" "" None "" "" "" "" false) (heap w !! r).

(** An assignment to a property of the URL object behind a reference. *)
Definition update_URL (r : nat) (f : URL → URL) : M unit := λ w,
  (Ok tt, {| trace := trace w; fs := fs w; heap := alter f r (heap w) |}).

Definition read_URL {A} (r : nat) (f : URL → A) : M A := λ w, (Ok (f (deref r w)), w).

(** A promise that is started and never awaited: its rejection reaches
    nobody (the callback of [tap]). *)
Definition detached {A} (m : M A) : M unit := λ w,
  match m w with
  | (Throw e, w') => emit (UnhandledRejection e) w'
  | (_, w') => (Ok tt, w')
  end.

(** A computation that leaves the files alone: it changes none and attempts
    no write. *)
Definition quiet {A} (m : M A) : Prop :=
  ∀ w, fs (m w).2 = fs w ∧ writes (trace (m w).2) = writes (trace w).

Definition initial_world : World := {| trace := []; fs := ∅; heap := [] |}.

(* ===================================================================== *)
(** ** The retry policy *)
(* ===================================================================== *)

(** Modelled from the spec: [retryWithBackoff] of the module "../retry",
    which every source imports and none contains.  The operation is attempted
    at most [maxAttempts] times; from the second attempt on each attempt is
    preceded by one log line and a delay, the delay starting at
    [initialDelayMs] and growing by a fixed factor; any error of the operation
    is retryable; after [maxAttempts] failed attempts the policy fails with
    [RetryExhausted]. *)
Fixpoint retryWithBackoff {T} (h : Host) (operation : M T)
    (maxAttempts : nat) (initialDelayMs : Z) : M T :=
  match maxAttempts with
  | O => throw RetryExhausted
  | S n => λ w,
      match operation w with
      | (Throw e, w') =>
          match n with
          | O => (Throw RetryExhausted, w')
          | S _ =>
              (emit (Log "Retrying");;
               emit (Backoff initialDelayMs);;
               retryWithBackoff h operation n (initialDelayMs * backoffFactor h)) w'
          end
      | settled => settled
      end
  end.

(* ===================================================================== *)
(** ** opensea.ts *)
(* ===================================================================== *)

Module OpenSea.

(** How a generator stopped: it returned, it threw, or the fuel of the
    model ran out while it still had pages to ask for. *)
Inductive Ending :=
| Done
| Thrown (e : Error)
| Unfinished.

(** [fetchWithPagination(fetcher)]: the pages yielded, oldest first, and
    how the generator ended.  [fuel] bounds the [while (true)] loop. *)
Fixpoint pages_from (h : Host) (fetcher : option string → M Page)
    (fuel : nat) (next_ : option string) (w : World)
  : (list Page * Ending) * World :=
  match fuel with
  | O => (([], Unfinished), w)
  | S fuel' =>
      match retryWithBackoff h (fetcher next_) 5 250 w with
      | (Throw e, w') => (([], Thrown e), w')
      | (Pending, w') => (([], Unfinished), w')
      | (Ok result, w') =>
          if negb (truthy_opt (next result))
          then (([result], Done), w')
          else
            let '((rest, e), w'') := pages_from h fetcher fuel' (next result) w' in
            ((result :: rest, e), w'')
      end
  end.

Definition fetchWithPagination (h : Host) (fetcher : option string → M Page)
    (fuel : nat) : World → (list Page * Ending) * World :=
  pages_from h fetcher fuel None.

(** [for await (const page of generator) body(page)] for a body that does
    not throw: the effect of the loop on the accumulator, then the ending. *)
Definition for_await {A} (g : World → (list Page * Ending) * World)
    (body : A → Page → A) (init : A) : M A := λ w,
  let '((pages, e), w') := g w in
  match e with
  | Done => (Ok (fold_left body pages init), w')
  | Thrown err => (Throw err, w')
  | Unfinished => (Pending, w')
  end.

(** [...(next ? { cursor: next } : {})]. *)
Definition cursor_param (next_ : option string) : option string :=
  if truthy_opt next_ then next_ else None.

(** The line logged before a server-directed wait. *)
Definition waiting_line (retryAfter : Z) : string :=
  "Rate limited, retrying in " +:+ pretty retryAfter +:+ "s".

(** The block every fetcher runs on its response: on status 429, wait as
    long as the server asks (when it asks), then throw. *)
Definition rate_limit (response : Response) : M unit :=
  if status response =? 429 then
    let retryAfter := parseInt (default "0" (retry_after response)) in
    (if gt0 retryAfter then
       emit (Log (waiting_line (default 0 retryAfter)));;
       emit (Sleep (default 0 retryAfter * 1000))
     else mret tt);;
    throw (Err_ "Rate limited")
  else mret tt.

(** The fetcher of the asset listing (the argument of the last
    [fetchWithPagination]). *)
Definition assets_fetcher (h : Host) (collectionSlug apiKey : string)
    (next_ : option string) : M Page :=
  response ← fetch h (GetAssets apiKey collectionSlug (cursor_param next_));
  rate_limit response;;
  response_json response.

(** One request for a page of an asset's events. *)
Definition events_attempt (h : Host) (apiKey : string) (a : CollectionAsset)
    (next_ : option string) : M Page :=
  response ← fetch h (GetEvents apiKey (asset_contract_address a) (token_id a)
                                 (cursor_param next_));
  rate_limit response;;
  response_json response.

(** The fetcher of an asset's events: it wraps its request in a retry of
    its own. *)
Definition events_fetcher (h : Host) (apiKey : string) (a : CollectionAsset)
    (next_ : option string) : M Page :=
  retryWithBackoff h (events_attempt h apiKey a next_) 5 250.

(** The fetcher of an asset's owners. *)
Definition owners_fetcher (h : Host) (apiKey : string) (a : CollectionAsset)
    (next_ : option string) : M Page :=
  response ← fetch h (GetOwners apiKey (asset_contract_address a) (token_id a)
                                 (cursor_param next_));
  rate_limit response;;
  response_json response.

(** The operation retried for the image: it rewrites the shared URL object
    and fetches what the object then reads. *)
Definition image_attempt (h : Host) (a : CollectionAsset) (imageUrl : nat)
  : M Response :=
  update_URL imageUrl (set_search "");;
  update_URL imageUrl (set_hostname "lh3.googleusercontent.com");;
  update_URL imageUrl
    (λ u, set_pathname (JS.replace "/gae/" "/" (pathname u) +:+ "=d") u);;
  href ← read_URL imageUrl toString;
  imageResponse ← fetch h (GetImage href);
  if negb (ok imageResponse) then
    throw (Err_ ("Failed to download image for " +:+ asset_name a +:+ ": "
                 +:+ pretty (status imageResponse) +:+ " "
                 +:+ statusText imageResponse))
  else mret imageResponse.

(** What one attempt makes of the URL object: the three assignments. *)
Definition rewrite_url (u : URL) : URL :=
  let u1 := set_search "" u in
  let u2 := set_hostname "lh3.googleusercontent.com" u1 in
  set_pathname (JS.replace "/gae/" "/" (pathname u2) +:+ "=d") u2.

(** The object at the [k]-th attempt. *)
Definition attempt_url (k : nat) (u : URL) : URL := Nat.iter k rewrite_url u.

(** [k] copies of the resize suffix. *)
Fixpoint suffixes (k : nat) : string :=
  match k with
  | O => EmptyString
  | S k' => "=d" +:+ suffixes k'
  end.

(** The host every attempt redirects to. *)
Definition canonical_host : string := "lh3.googleusercontent.com".

(** The path the rewrites start from: the path of the URL object, "/"
    where it is empty. *)
Definition base_path (u : URL) : string :=
  if String.eqb (pathname u) "" then "/" else pathname u.

(** What [new URL] leaves as a path: an opaque one, none, or one that
    starts with "/". *)
Definition rooted (u : URL) : bool :=
  opaque u || String.eqb (pathname u) "" || starts_with "/" (pathname u).

(** The address of the image of an asset, as [prepare] reads it. *)
Definition image_address (a : CollectionAsset) : string :=
  default "undefined"
    (if truthy_opt (image_original_url a) then image_original_url a else image_url a).

(** [delete assetEvent.asset]. *)
Definition delete_asset (e : AssetEvent) : AssetEvent :=
  {| asset := None; event_type := event_type e;
     event_created_date := event_created_date e;
     from_account := from_account e; to_account := to_account e;
     event_quantity := event_quantity e |}.

(** What the function given to [mergeMap] resolves to. *)
Record Enriched := {
  enriched_asset : CollectionAsset;
  imageUrl : nat;
  imageResponse : Response;
  enriched_events : list AssetEvent;
  enriched_owners : list Owner;
}.

(** The three sub-resolutions of an asset. *)
Definition resolve_image (h : Host) (a : CollectionAsset) (url : nat) : M Response :=
  retryWithBackoff h (image_attempt h a url) 5 250.

Definition resolve_events (h : Host) (apiKey : string) (fuel : nat)
    (a : CollectionAsset) : M (list AssetEvent) :=
  for_await (fetchWithPagination h (events_fetcher h apiKey a) fuel)
    (λ (assetEvents : list AssetEvent) result,
       assetEvents ++ map delete_asset (default [] (page_asset_events result)))
    [].

Definition resolve_owners (h : Host) (apiKey : string) (fuel : nat)
    (a : CollectionAsset) : M (list Owner) :=
  for_await (fetchWithPagination h (owners_fetcher h apiKey a) fuel)
    (λ (owners_ : list Owner) ownerBatch,
       owners_ ++ default [] (page_owners ownerBatch))
    [].

(** What precedes them: the URL object, the directory, a log line. *)
Definition prepare (h : Host) (collectionSlug : string) (a : CollectionAsset) : M nat :=
  url ← new_URL (default "undefined"
                   (if truthy_opt (image_original_url a)
                    then image_original_url a else image_url a));
  mkdir h ("./.metadata/" +:+ collectionSlug);;
  emit (Log ("Downloading image for " +:+ asset_name a));;
  mret url.

(** The function given to [mergeMap]: image, then events, then owners,
    each awaited before the next starts. *)
Definition enrich (h : Host) (collectionSlug apiKey : string) (fuel : nat)
    (a : CollectionAsset) : M Enriched :=
  url ← prepare h collectionSlug a;
  response ← resolve_image h a url;
  evs ← resolve_events h apiKey fuel a;
  ows ← resolve_owners h apiKey fuel a;
  mret {| enriched_asset := a; imageUrl := url; imageResponse := response;
          enriched_events := evs; enriched_owners := ows |}.

Definition image_file (h : Host) (x : Enriched) : string :=
  token_id (enriched_asset x) +:+ "."
    +:+ default "false" (mime_extension h (default "" (content_type (imageResponse x)))).

Definition image_path (h : Host) (x : Enriched) : string :=
  "./.metadata/" +:+ collection_slug (enriched_asset x) +:+ "/" +:+ image_file h x.

Definition json_path (a : CollectionAsset) : string :=
  "./.metadata/" +:+ collection_slug a +:+ "/" +:+ token_id a +:+ ".json".

Definition record_of (h : Host) (x : Enriched) : IOpenSeaMetadata :=
  {| name := asset_name (enriched_asset x);
     description := asset_description (enriched_asset x);
     image := "./" +:+ image_file h x;
     attributes := Some (traits (enriched_asset x));
     owners := enriched_owners x;
     events := Some (enriched_events x);
     id := None;
     original_creation_date := None |}.

(** The callback of [tap]: the image file, then the JSON record. *)
Definition persist (h : Host) (x : Enriched) : M unit :=
  emit (Log ("Writing image for " +:+ asset_name (enriched_asset x)));;
  image_ ← response_arrayBuffer (imageResponse x);
  writeFile h (image_path h x) (Binary image_);;
  emit (Log ("Writing metadata for " +:+ asset_name (enriched_asset x)));;
  writeFile h (json_path (enriched_asset x)) (Json (record_of h x)).

(** The stream behind [mergeMap(enrich, 1)] and [tap]: the assets are
    taken one at a time in the order they were pushed; [tap] starts
    [persist] on each result without awaiting it; the first rejected
    enrichment errors the stream, after which no further asset is taken. *)
Fixpoint pipeline (h : Host) (collectionSlug apiKey : string) (fuel : nat)
    (incomingAssets : list CollectionAsset) : M unit :=
  match incomingAssets with
  | [] => mret tt
  | a :: rest =>
      x ← enrich h collectionSlug apiKey fuel a;
      detached (persist h x);;
      pipeline h collectionSlug apiKey fuel rest
  end.

(** The promise [finished], once the subject has completed: the stream,
    then the [complete] callback of the subscriber. *)
Definition finished (h : Host) (collectionSlug apiKey : string) (fuel : nat)
    (incomingAssets : list CollectionAsset) : M unit :=
  pipeline h collectionSlug apiKey fuel incomingAssets;;
  emit (Log "Assets complete").

(** The body of the listing loop, for one page. *)
Definition listing_body (acc : list Event * list CollectionAsset) (batchAssets : Page)
  : list Event * list CollectionAsset :=
  let batch := default [] (page_assets batchAssets) in
  (fst acc ++ LogPage batchAssets
       :: map (λ a, Log ("Processing " +:+ asset_name a)) batch,
   snd acc ++ batch).

Definition emit_all (es : list Event) : M unit := λ w, (Ok tt, after es w).

(** [downloadMetadata].  The listing loop and the subscription run as two
    interleaved tasks; the world returned is the one reached when both
    have come to rest, with the events of the listing first.  The result
    is the outcome of the promise the function returns. *)
Definition downloadMetadata (h : Host) (collectionSlug apiKey : string)
    (fuel : nat) : M unit := λ w,
  let '((pages, ending), w1) :=
    fetchWithPagination h (assets_fetcher h collectionSlug apiKey) fuel w in
  let '(logs, pushed) := fold_left listing_body pages ([], []) in
  let '(_, w2) := emit_all logs w1 in
  match ending with
  | Thrown e =>
      (* the loop rethrows; what was pushed is still processed *)
      let '(_, w3) := pipeline h collectionSlug apiKey fuel pushed w2 in
      (Throw e, w3)
  | Unfinished => (Pending, w2)
  | Done =>
      (* incomingAssets.complete(); try { await finished } catch ... *)
      match finished h collectionSlug apiKey fuel pushed w2 with
      | (Ok _, w3) => (Ok tt, w3)
      | (Throw err, w3) => emit (ConsoleError err) w3
      | (Pending, w3) => (Pending, w3)
      end
  end.

End OpenSea.

(* ===================================================================== *)
(** ** What both normalization passes share *)
(* ===================================================================== *)

#[global] Instance Res_ret : MRet Res := λ A a, Ok a.
#[global] Instance Res_bind : MBind Res := λ A B f r,
  match r with
  | Ok a => f a
  | Throw e => Throw e
  | Pending => Pending
  end.

(** A computation without effects, inside an effectful one. *)
Definition lift {A} (r : Res A) : M A := λ w, (r, w).

Module Node.

(** [Array.prototype.reduce(f)] without an initial value. *)
Definition reduce {A} (f : option A → A → A) (l : list A) : Res A :=
  match l with
  | [] => Throw (TypeError "Reduce of empty array with no initial value")
  | x :: rest => Ok (fold_left (λ prev current, f (Some prev) current) rest x)
  end.

(** [o?.reduce(f)]. *)
Definition reduce_opt {A} (f : option A → A → A) (o : option (list A))
  : Res (option A) :=
  match o with
  | None => Ok None
  | Some l => x ← reduce f l; Ok (Some x)
  end.

(** [o?.push(x)]. *)
Definition push_opt {A} (x : A) (o : option (list A)) : option (list A) :=
  (λ l, l ++ [x]) <$> o.

(** Insertion of [x] behind every element it does not precede. *)
Fixpoint insert {A} (compareFn : A → A → Res Z) (x : A) (sorted : list A)
  : Res (list A) :=
  match sorted with
  | [] => Ok [x]
  | y :: rest =>
      order ← compareFn x y;
      if order <? 0 then Ok (x :: sorted)
      else (rest' ← insert compareFn x rest; Ok (y :: rest'))
  end.

(** [Array.prototype.sort(compareFn)]: a stable sort.  For a consistent
    comparator every stable sort gives this result; which pairs an engine
    compares, and what it makes of an inconsistent comparator, is its own
    choice, and this is one. *)
Definition sort {A} (compareFn : A → A → Res Z) (l : list A) : Res (list A) :=
  fold_left (λ acc x, sorted ← acc; insert compareFn x sorted) l (Ok []).

(** Split at the last occurrence of a character. *)
Fixpoint rsplit (c : ascii) (s : string) : option (string * string) :=
  match s with
  | EmptyString => None
  | String a s' =>
      match rsplit c s' with
      | Some (x, y) => Some (String a x, y)
      | None => if Ascii.eqb a c then Some (EmptyString, s') else None
      end
  end.

Definition last_segment (p : string) : string :=
  match rsplit "/" p with Some (_, b) => b | None => p end.

(** [path.extname(p)]. *)
Definition extname (p : string) : string :=
  match rsplit "." (last_segment p) with
  | Some (EmptyString, _) => ""
  | Some (_, ext) => "." +:+ ext
  | None => ""
  end.

(** [path.basename(p, suffix)]. *)
Definition basename (p suffix : string) : string :=
  let b := last_segment p in
  if endsWith suffix b && negb (String.eqb b suffix)
  then substring 0 (String.length b - String.length suffix) b
  else b.

(** [path.resolve(dir, ...segments)] for relative segments: a leading
    "./" of a segment is dropped; the working directory is left out. *)
Definition pathResolve (dir : string) (segments : list string) : string :=
  fold_left (λ acc seg, acc +:+ "/" +:+ default seg (strip_prefix "./" seg))
            segments dir.

Definition all_digits (radix : Z) (s : string) : bool :=
  JS.truthy s && forallb (λ c, bool_decide (is_Some (digit radix c))) (list_ascii_of_string s).

(** [BigNumber.from(s)] of ethers, for a string. *)
Definition BigNumber_from (s : string) : Res Z :=
  let '(sign, body) :=
    match s with String "-" s' => (-1, s') | _ => (1, s) end in
  match body with
  | String "0" (String x hex) =>
      if (Ascii.eqb x "x" || Ascii.eqb x "X") && all_digits 16 hex
      then Ok (sign * default 0 (digits 16 hex None))
      else if all_digits 10 body then Ok (sign * default 0 (digits 10 body None))
      else Throw (Err_ "invalid BigNumber string")
  | _ =>
      if all_digits 10 body then Ok (sign * default 0 (digits 10 body None))
      else Throw (Err_ "invalid BigNumber string")
  end.

(** [BigNumber.toNumber()]: only within the safe integers. *)
Definition toNumber (x : Z) : Res Z :=
  if (- 2 ^ 53 <? x) && (x <? 2 ^ 53) then Ok x else Throw (Err_ "overflow").

(** [JSON.parse(await fs.promises.readFile(path, "utf8"))]. *)
Definition readJson (path : string) : M IOpenSeaMetadata := λ w,
  match fs w !! path with
  | Some (Json m) => (Ok m, w)
  | Some (Binary _) => (Throw SyntaxError, w)
  | None => (Throw (IOError path), w)
  end.

(** [await fs.promises.stat(path).catch(() => false)], as a condition. *)
Definition stat (path : string) : M bool :=
  λ w, (Ok (bool_decide (is_Some (fs w !! path))), w).

(** [fs.promises.copyFile(src, dst)]. *)
Definition copyFile (h : Host) (src dst : string) : M unit := λ w,
  match fs w !! src with
  | Some f =>
      if disk h dst (count_write dst (trace w))
      then (Ok tt, {| trace := trace w ++ [CopyFile src dst true];
                      fs := <[dst := f]> (fs w); heap := heap w |})
      else (Throw (IOError dst), after [CopyFile src dst false] w)
  | None => (Throw (IOError src), after [CopyFile src dst false] w)
  end.

End Node.
Export Node.

Module Giphy.

Definition LIMIT : Z := 10.

(** Where the generator [randomGif] stands. *)
Inductive Gen :=
| Fresh
| InPage (offset : Z) (gifs : list string) (total_count : Z)
| Finished.

(** [gif.images.original.url.split("?")[0].endsWith(".gif")]. *)
Definition is_gif (url : string) : bool :=
  endsWith ".gif" (fst (Url.break (Url.is_char "?") url)).

(** [gf.search(searchTerm, { offset, limit: LIMIT, ... })]: a request to the
    search API; its answer is the addresses of the items of the page and
    [pagination.total_count]. *)
Definition search (h : Host) (searchTerm : string) (offset : Z)
  : M (list string * Z) := λ w,
  match giphy_search h searchTerm offset with
  | Some page => (Ok page, after [Fetch (GiphySearch searchTerm offset)] w)
  | None => (Throw FetchError, after [Fetch (GiphySearch searchTerm offset)] w)
  end.

(** [gifIterator.next()]: the value yielded ([None] when done) and the
    generator afterwards.  [fuel] bounds the pages looked through. *)
Fixpoint next (h : Host) (searchTerm : string) (fuel : nat) (g : Gen) {struct fuel}
  : M (option string * Gen) :=
  match fuel with
  | O => λ w, (Pending, w)
  | S fuel' =>
      let fix scan (offset : Z) (gifs : list string) (total_count : Z)
        : M (option string * Gen) :=
        match gifs with
        | url :: rest =>
            if is_gif url then mret (Some url, InPage offset rest total_count)
            else scan offset rest total_count
        | [] =>
            if total_count <=? offset + LIMIT then mret (None, Finished)
            else
              page ← search h searchTerm (offset + LIMIT);
              next h searchTerm fuel' (InPage (offset + LIMIT) (fst page) (snd page))
        end in
      match g with
      | Fresh => page ← search h searchTerm 0; scan 0 (fst page) (snd page)
      | InPage offset gifs total => scan offset gifs total
      | Finished => mret (None, Finished)
      end
  end.

End Giphy.

Definition set_image (v : string) (m : IOpenSeaMetadata) : IOpenSeaMetadata :=
  {| name := name m; description := description m; image := v;
     attributes := attributes m; owners := owners m; events := events m;
     id := id m; original_creation_date := original_creation_date m |}.

(** Equal up to the image field. *)
Definition same_but_image (a b : IOpenSeaMetadata) : Prop :=
  set_image "" a = set_image "" b.

(** The arguments of either [prepareMetadata]. *)
Record Options := {
  giphyApiKey : option string;
  giphySearchTerm : option string;
  inDir : string;
  outDir : string;
  testImages : bool;
  hunnys : bool;
  mintAttribute : bool;
}.

(** [testImages && giphyApiKey ? randomGif(...) : undefined]. *)
Definition gifIterator_of (o : Options) : option Giphy.Gen :=
  if testImages o && truthy_opt (giphyApiKey o) then Some Giphy.Fresh else None.

(** [giphySearchTerm || "ape"]. *)
Definition searchTerm_of (o : Options) : string :=
  if truthy_opt (giphySearchTerm o) then default "" (giphySearchTerm o) else "ape".

(** The names the directory loop keeps. *)
Definition filesToParse (h : Host) (o : Options) : list string :=
  map fst (filter (λ e, snd e && endsWith ".json" (fst e)) (opendir h (inDir o))).

(** The loop that reads and parses the files. *)
Fixpoint read_all (dir : string) (files : list string) : M (list IOpenSeaMetadata) :=
  match files with
  | [] => mret []
  | file :: rest =>
      metadata ← readJson (dir +:+ "/" +:+ file);
      others ← read_all dir rest;
      mret (metadata :: others)
  end.

(** [`${i + 1}`]. *)
Definition number (i : nat) : string := pretty (Z.of_nat i + 1).

(* ===================================================================== *)
(** ** metadataPrepare.ts: the flat layout *)
(* ===================================================================== *)

Module Flat.

(** The reducer inside the comparator. *)
Definition oldestOwnerReducer (prev : option Owner) (current : Owner) : Owner :=
  match prev with
  | None => current
  | Some p =>
      if String.ltb (owner_created_date p) (owner_created_date current)
      then p else current
  end.

(** The comparator given to [metadataJson.sort]. *)
Definition compareFn (a b : IOpenSeaMetadata) : Res Z :=
  aOwner ← reduce oldestOwnerReducer (owners a);
  bOwner ← reduce oldestOwnerReducer (owners b);
  Ok (if String.ltb (owner_created_date aOwner) (owner_created_date bOwner)
      then -1 else 1).

(** The branch of the loop that draws a placeholder. *)
Definition substitute (h : Host) (o : Options) (fuel i : nat)
    (metadata : IOpenSeaMetadata) (gifIterator : Giphy.Gen)
  : M (IOpenSeaMetadata * Giphy.Gen) :=
  let gifImageName := number i +:+ ".gif" in
  present ← stat (outDir o +:+ "/" +:+ gifImageName);
  gifIterator' ←
    (if negb present then
       drawn ← Giphy.next h (searchTerm_of o) fuel gifIterator;
       match fst drawn with
       | None => throw (Err_ "Ran out of GIFs")
       | Some url =>
           emit (Log ("Downloading " +:+ url));;
           gifImageResponse ← retryWithBackoff h (fetch h (GetImage url)) 5 250;
           gifImageBuffer ← response_arrayBuffer gifImageResponse;
           writeFile h (outDir o +:+ "/" +:+ gifImageName) (Binary gifImageBuffer);;
           mret (snd drawn)
       end
     else mret gifIterator);
  mret (set_image gifImageName metadata, gifIterator').

(** The branch that copies the original image. *)
Definition copy_original (h : Host) (o : Options) (i : nat)
    (metadata : IOpenSeaMetadata) : M IOpenSeaMetadata :=
  let image_ := image metadata in
  let newImageFileName := number i +:+ extname image_ in
  copyFile h (pathResolve (inDir o) [image_]) (pathResolve (outDir o) [newImageFileName]);;
  mret (set_image newImageFileName metadata).

(** The numbering loop, from index [i]. *)
Fixpoint loop (h : Host) (o : Options) (fuel total i : nat)
    (metadataJson : list IOpenSeaMetadata) (gifIterator : option Giphy.Gen)
  : M unit :=
  match metadataJson with
  | [] => mret tt
  | metadata :: rest =>
      emit (Log ("Processing " +:+ number i +:+ " of " +:+ pretty total));;
      step ← match gifIterator with
             | Some g =>
                 r ← substitute h o fuel i metadata g;
                 mret (fst r, Some (snd r))
             | None =>
                 m ← copy_original h o i metadata;
                 mret (m, None)
             end;
      writeFile h (outDir o +:+ "/" +:+ number i +:+ ".json") (Json (fst step));;
      loop h o fuel total (S i) rest (snd step)
  end.

(** [prepareMetadata] of the flat layout.  The output directory is taken
    to be creatable ([mkdir] with [recursive] also succeeds on a directory
    that exists); a disk that refuses it is left out of the model of the
    two passes. *)
Definition prepareMetadata (h : Host) (o : Options) (fuel : nat) : M unit :=
  emit (Mkdir (outDir o));;
  parsed ← read_all (inDir o) (filesToParse h o);
  metadataJson ← lift (sort compareFn parsed);
  loop h o fuel (length metadataJson) 0 metadataJson (gifIterator_of o).

End Flat.

(* ===================================================================== *)
(** ** The split layout: assets/ and metadata/ *)
(* ===================================================================== *)

Module Split.

Definition oldestOwnerReducer (prev : option AssetEvent) (current : AssetEvent)
  : AssetEvent :=
  match prev with
  | None => current
  | Some p =>
      if String.ltb (event_created_date p) (event_created_date current)
      then p else current
  end.

(** The comparator given to [filesToParse.sort]. *)
Definition compareFn (a b : string) : Res Z :=
  x ← BigNumber_from (basename a ".json");
  y ← BigNumber_from (basename b ".json");
  toNumber (x - y).

Definition substitute (h : Host) (o : Options) (fuel i : nat)
    (metadata : IOpenSeaMetadata) (gifIterator : Giphy.Gen)
  : M (IOpenSeaMetadata * Giphy.Gen) :=
  let gifImageName := number i +:+ ".gif" in
  present ← stat (outDir o +:+ "/" +:+ gifImageName);
  if negb present then
    drawn ← Giphy.next h (searchTerm_of o) fuel gifIterator;
    match fst drawn with
    | None => throw (Err_ "Ran out of GIFs")
    | Some url =>
        emit (Log ("Downloading " +:+ url));;
        gifImageResponse ← retryWithBackoff h (fetch h (GetImage url)) 5 250;
        gifImageBuffer ← response_arrayBuffer gifImageResponse;
        writeFile h (outDir o +:+ "/assets/" +:+ gifImageName) (Binary gifImageBuffer);;
        mret (set_image gifImageName metadata, snd drawn)
    end
  else mret (metadata, gifIterator).

Definition copy_original (h : Host) (o : Options) (i : nat)
    (metadata : IOpenSeaMetadata) : M IOpenSeaMetadata :=
  let image_ := image metadata in
  let newImageFileName := number i +:+ extname image_ in
  copyFile h (pathResolve (inDir o) [image_])
           (pathResolve (outDir o) ["assets"; newImageFileName]);;
  mret (set_image newImageFileName metadata).

Definition newline : string := String (ascii_of_nat 10) EmptyString.

(** The sentence appended to the description. *)
Definition provenance_sentence (localeCreationDate : string) : string :=
  newline +:+ newline
    +:+ "This NFT was originally created on the OpenSea Storefront on "
    +:+ localeCreationDate +:+ ".".

Definition type_attribute (v : string) : IMetadataAttribute :=
  {| trait_type := "Type"; value := v |}.

Definition mint_date_attribute (localeCreationDate : string) : IMetadataAttribute :=
  {| trait_type := "Original Mint Date"; value := localeCreationDate |}.

(** [new Date(oldestEvent.created_date)] when there is an oldest event;
    the inner [None] is an Invalid Date. *)
Definition creationDate_of (h : Host) (oldestEvent : option AssetEvent)
  : option (option Z) :=
  (λ e, date_parse h (event_created_date e)) <$> oldestEvent.

(** [creationDate?.toLocaleDateString("en-US", ...)]. *)
Definition localeCreationDate_of (h : Host) (creationDate : option (option Z))
  : option string :=
  (λ d, match d with
        | Some t => toLocaleDateString h t
        | None => "Invalid Date"
        end) <$> creationDate.

(** [creationDate?.toISOString()]. *)
Definition iso_of (h : Host) (creationDate : option (option Z))
  : Res (option string) :=
  match creationDate with
  | None => Ok None
  | Some (Some t) => Ok (Some (toISOString h t))
  | Some None => Throw (RangeError "Invalid time value")
  end.

(** From "Some final custom metadata" to the description: what the loop
    does to a record after its media step. *)
Definition derive (h : Host) (o : Options) (i : nat)
    (metadata : IOpenSeaMetadata) (oldestEvent : option AssetEvent)
  : Res IOpenSeaMetadata :=
  let creationDate := creationDate_of h oldestEvent in
  let localeCreationDate := localeCreationDate_of h creationDate in
  let attributes1 :=
    if hunnys o then
      if includes "Hunny #" (name metadata)
      then push_opt (type_attribute "Classic") (attributes metadata)
      else push_opt (type_attribute "Named") (attributes metadata)
    else attributes metadata in
  let attributes2 :=
    if mintAttribute o && truthy_opt localeCreationDate
    then push_opt (mint_date_attribute (default "" localeCreationDate)) attributes1
    else attributes1 in
  iso ← iso_of h creationDate;
  Ok {| name := name metadata;
        description :=
          if truthy_opt localeCreationDate
          then description metadata
                 +:+ provenance_sentence (default "" localeCreationDate)
          else description metadata;
        image := image metadata;
        attributes := attributes2;
        owners := owners metadata;
        events := events metadata;
        id := Some (number i);
        original_creation_date := iso |}.

Fixpoint loop (h : Host) (o : Options) (fuel total i : nat)
    (metadataJson : list IOpenSeaMetadata) (gifIterator : option Giphy.Gen)
  : M unit :=
  match metadataJson with
  | [] => mret tt
  | metadata :: rest =>
      emit (Log ("Processing " +:+ number i +:+ " of " +:+ pretty total));;
      oldestEvent ← lift (reduce_opt oldestOwnerReducer (events metadata));
      step ← match gifIterator with
             | Some g =>
                 r ← substitute h o fuel i metadata g;
                 mret (fst r, Some (snd r))
             | None =>
                 m ← copy_original h o i metadata;
                 mret (m, None)
             end;
      final ← lift (derive h o i (fst step) oldestEvent);
      writeFile h (outDir o +:+ "/metadata/" +:+ number i +:+ ".json") (Json final);;
      loop h o fuel total (S i) rest (snd step)
  end.

(** [prepareMetadata] of the split layout; the two directories are taken
    to be creatable, as in the flat layout. *)
Definition prepareMetadata (h : Host) (o : Options) (fuel : nat) : M unit :=
  emit (Mkdir (pathResolve (outDir o) ["assets"]));;
  emit (Mkdir (pathResolve (outDir o) ["metadata"]));;
  sorted ← lift (sort compareFn (filesToParse h o));
  metadataJson ← read_all (inDir o) sorted;
  loop h o fuel (length metadataJson) 0 metadataJson (gifIterator_of o).

End Split.

(* ===================================================================== *)
(** ** The keys the two passes sort by *)
(* ===================================================================== *)

(** The number a file name stands for in the comparator of the split
    layout (0 where the comparator would throw). *)
Definition file_number (file : string) : Z :=
  match BigNumber_from (basename file ".json") with
  | Ok z => z
  | _ => 0
  end.

(** The created_date of the oldest owner of a record, which the comparator of
    the flat layout compares (empty where the comparator would throw). *)
Definition oldest_owner_date (m : IOpenSeaMetadata) : string :=
  match reduce Flat.oldestOwnerReducer (owners m) with
  | Ok o => owner_created_date o
  | _ => ""
  end.

(** The created_date of the oldest event of a record: its provenance
    timestamp, when it has events. *)
Definition oldest_event_date (m : IOpenSeaMetadata) : option string :=
  match reduce_opt Split.oldestOwnerReducer (events m) with
  | Ok (Some e) => Some (event_created_date e)
  | _ => None
  end.

(** [a] may stand before [b]: the key of [b] is not below the key of [a]. *)
Definition precedes {A K} (key : A → K) (ltK : K → K → bool) (a b : A) : Prop :=
  ltK (key b) (key a) = false.

(* ===================================================================== *)
(** ** The operator [mergeMap(project, concurrent)] *)
(* ===================================================================== *)

Module MergeMap.

Section Operator.
Context {A : Type}.

(** The inner promises running, the values waiting for a free slot, and
    whether the output has errored (the subscriber is then gone). *)
Record State := {
  active : list A;
  buffer : list A;
  errored : bool;
}.

Definition idle : State := {| active := []; buffer := []; errored := false |}.

(** What reaches the operator: a value of the source, or the promise at
    some position among the running ones settling. *)
Inductive Signal :=
| Next (a : A)
| Fulfilled (k : nat)
| Rejected (k : nat).

(** What it does with the projection. *)
Inductive Obs :=
| Started (a : A)
| Settled (a : A).

Definition step (concurrent : nat) (s : State) (sig : Signal)
  : option (State * list Obs) :=
  match sig with
  | Next a =>
      if errored s then Some (s, [])
      else if (length (active s) <? concurrent)%nat
      then Some ({| active := active s ++ [a]; buffer := buffer s;
                    errored := false |}, [Started a])
      else Some ({| active := active s; buffer := buffer s ++ [a];
                    errored := false |}, [])
  | Fulfilled k =>
      match active s !! k with
      | None => None
      | Some a =>
          let running := delete k (active s) in
          match buffer s with
          | b :: waiting =>
              if (length running <? concurrent)%nat
              then Some ({| active := running ++ [b]; buffer := waiting;
                            errored := errored s |}, [Settled a; Started b])
              else Some ({| active := running; buffer := buffer s;
                            errored := errored s |}, [Settled a])
          | [] => Some ({| active := running; buffer := [];
                           errored := errored s |}, [Settled a])
          end
      end
  | Rejected k =>
      match active s !! k with
      | None => None
      | Some a => Some ({| active := delete k (active s); buffer := [];
                           errored := true |}, [Settled a])
      end
  end.

(** A run: the signals in the order they arrive. *)
Fixpoint run (concurrent : nat) (s : State) (sigs : list Signal)
  : option (State * list Obs) :=
  match sigs with
  | [] => Some (s, [])
  | sig :: rest =>
      match step concurrent s sig with
      | None => None
      | Some (s', obs) =>
          match run concurrent s' rest with
          | None => None
          | Some (s'', obs') => Some (s'', obs ++ obs')
          end
      end
  end.

Fixpoint started (obs : list Obs) : nat :=
  match obs with
  | Started _ :: rest => S (started rest)
  | Settled _ :: rest => started rest
  | [] => 0
  end.

Fixpoint settled (obs : list Obs) : nat :=
  match obs with
  | Settled _ :: rest => S (settled rest)
  | Started _ :: rest => settled rest
  | [] => 0
  end.

(** With [n] promises running before, no prefix of [obs] settles more
    than were started or leaves more than [concurrent] running. *)
Definition bounded (concurrent n : nat) (obs : list Obs) : Prop :=
  ∀ pre post, obs = pre ++ post →
    (settled pre ≤ n + started pre
     ∧ n + started pre ≤ concurrent + settled pre)%nat.

End Operator.

Arguments State : clear implicits.
Arguments Signal : clear implicits.
Arguments Obs : clear implicits.

(** The second argument of [mergeMap] in [downloadMetadata]. *)
Definition enrichment_concurrency : nat := 1.

End MergeMap.

(* ===================================================================== *)
(** ** A listing served in pages *)
(* ===================================================================== *)

Module Paging.

(** The cursor for an offset: opaque to the client, and truthy exactly when
    the offset is positive. *)
Fixpoint cursor (offset : nat) : string :=
  match offset with
  | O => EmptyString
  | S n => String "c" (cursor n)
  end.

(** The cursor for an offset as the generator holds it: none before the
    first page. *)
Definition held (off : nat) : option string :=
  match off with O => None | S _ => Some (cursor off) end.

Definition offset_of (c : option string) : nat :=
  match c with Some s => String.length s | None => 0%nat end.

(** The page of at most [P] items at the offset of the cursor; a next
    cursor exactly when items remain behind the page. *)
Definition serve (items : list CollectionAsset) (P : nat) (c : option string) : Page :=
  let off := offset_of c in
  {| page_assets := Some (take P (drop off items));
     page_asset_events := None;
     page_owners := None;
     next := if (off + P <? length items)%nat then Some (cursor (off + P)) else None |}.

Definition answer (p : Page) : Response :=
  {| status := 200; statusText := "OK"; retry_after := None;
     content_type := Some "application/json"; json := Some p;
     arrayBuffer := Some "" |}.

(** A host whose asset listing holds [items] and is served [P] at a time. *)
Definition listing_host (items : list CollectionAsset) (P : nat) : Host :=
  {| net := λ r _, match r with
                   | GetAssets _ _ c => Some (answer (serve items P c))
                   | _ => None
                   end;
     disk := λ _ _, true;
     mkdir_ok := λ _ _, true;
     mime_extension := λ _, None;
     backoffFactor := 2;
     opendir := λ _, [];
     giphy_search := λ _ _, None;
     date_parse := λ _, None;
     toLocaleDateString := λ _, "";
     toISOString := λ _, "" |}.

(** The fetcher of the listing loop on that host. *)
Definition listing_fetcher (items : list CollectionAsset) (P : nat)
    (collectionSlug apiKey : string) : option string → M Page :=
  OpenSea.assets_fetcher (listing_host items P) collectionSlug apiKey.

Definition ceil_div (L P : nat) : nat := ((L + P - 1) / P)%nat.

End Paging.

(* ===================================================================== *)
(** ** Concrete hosts and inputs *)
(* ===================================================================== *)

Module Sample.
Import OpenSea.

Definition asset_ (tok nm url : string) : CollectionAsset :=
  {| asset_id := 1; token_id := tok; image_url := Some url;
     image_original_url := None; asset_name := nm; asset_description := "a bear";
     traits := []; asset_contract_address := "0xc0ffee"; collection_slug := "hunnys" |}.

Definition bear : CollectionAsset := asset_ "7" "Hunny #7" "https://img.example/gae/abc?w=500".
Definition cub : CollectionAsset := asset_ "8" "Hunny #8" "https://img.example/gae/def".
Definition elder : CollectionAsset := asset_ "9" "Bob" "https://img.example/ghi".

Definition page_of (l : list CollectionAsset) : Page :=
  {| page_assets := Some l; page_asset_events := None; page_owners := None;
     next := None |}.

Definition answer_ (st : Z) (hint : option string) (p : option Page) : Response :=
  {| status := st; statusText := "S"; retry_after := hint;
     content_type := Some "image/png"; json := p; arrayBuffer := Some "PNG" |}.

Definition host_ (net_ : Request → nat → option Response) : Host :=
  {| net := net_;
     disk := λ _ _, true;
     mkdir_ok := λ _ _, true;
     mime_extension := λ s, if String.eqb s "image/png" then Some "png" else None;
     backoffFactor := 2;
     opendir := λ _, [];
     giphy_search := λ _ _, None;
     date_parse := λ _, None;
     toLocaleDateString := λ _, "";
     toISOString := λ _, "" |}.

(** The listing is rate limited once, with a hint of two seconds. *)
Definition throttled : Host :=
  host_ (λ r n, match r with
                | GetAssets _ _ _ =>
                    if (n =? 0)%nat then Some (answer_ 429 (Some "2") None)
                    else Some (answer_ 200 None (Some (page_of [])))
                | _ => None
                end).

(** One asset is listed; its image host answers 500 to every request. *)
Definition broken_image : Host :=
  host_ (λ r n, match r with
                | GetImage _ => Some (answer_ 500 None None)
                | _ => Some (answer_ 200 None (Some (page_of [bear])))
                end).

(** One asset is listed and everything answers. *)
Definition healthy : Host :=
  host_ (λ r n, Some (answer_ 200 None (Some (page_of [bear])))).

(** The URL object of [bear], as [new URL] makes it, alone on the heap. *)
Definition bear_url : URL :=
  {| protocol := "https:"; url_username := ""; url_password := "";
     hostname := Some "img.example"; port := "";
     pathname := "/gae/abc"; search := "?w=500"; hash := ""; opaque := false |}.

Definition bear_world : World := {| trace := []; fs := ∅; heap := [bear_url] |}.

(** The world of a harvest on [broken_image] once the listing is read. *)
Definition listed_world : World :=
  after [Fetch (GetAssets "key" "hunnys" None);
         LogPage (page_of [bear]);
         Log "Processing Hunny #7"] initial_world.




(** Three assets are pushed before the first enrichment settles; then the
    enrichments settle one by one. *)
Definition three_assets : list (MergeMap.Signal CollectionAsset) :=
  [MergeMap.Next bear; MergeMap.Next cub; MergeMap.Next elder;
   MergeMap.Fulfilled 0; MergeMap.Fulfilled 0; MergeMap.Fulfilled 0].

Definition after_three_assets
  : MergeMap.State CollectionAsset * list (MergeMap.Obs CollectionAsset) :=
  (MergeMap.idle,
   [MergeMap.Started bear; MergeMap.Settled bear;
    MergeMap.Started cub; MergeMap.Settled cub;
    MergeMap.Started elder; MergeMap.Settled elder]).

(** *** A harvested corpus of two records *)

Definition event_ (date : string) : AssetEvent :=
  {| asset := None; event_type := "transfer"; event_created_date := date;
     from_account := None; to_account := None; event_quantity := "1" |}.

Definition owner_ (date : string) : Owner :=
  {| owner_quantity := "1"; owner_created_date := date;
     owner := {| username := "ann"; profile_img_url := ""; address := "0xa";
                 config := "" |} |}.

Definition record_ (nm img : string) (attrs : option (list IMetadataAttribute))
    (ows : list Owner) (evs : option (list AssetEvent)) : IOpenSeaMetadata :=
  {| name := nm; description := "A bear."; image := img; attributes := attrs;
     owners := ows; events := evs; id := None; original_creation_date := None |}.

(** Created in 2021, harvested as token 10. *)
Definition newer : IOpenSeaMetadata :=
  record_ "Hunny #2" "./10.png" (Some [])
          [owner_ "2021-03-01T00:00:00"]
          (Some [event_ "2021-03-01T00:00:00"; event_ "2021-02-01T00:00:00"]).

(** Created in 2020, harvested as token 20. *)
Definition older : IOpenSeaMetadata :=
  record_ "Bob" "./20.png" (Some [])
          [owner_ "2020-06-01T00:00:00"]
          (Some [event_ "2020-06-01T00:00:00"]).

Definition gif_answer : Response :=
  {| status := 200; statusText := "OK"; retry_after := None;
     content_type := Some "image/gif"; json := None;
     arrayBuffer := Some "GIF89a" |}.

(** A host for normalization: the input directory lists [dir], the
    placeholder search finds three items (two of them GIFs), every download
    answers, dates are read by a small table. *)
Definition studio (dir : list (string * bool)) : Host :=
  {| net := λ _ _, Some gif_answer;
     disk := λ _ _, true;
     mkdir_ok := λ _ _, true;
     mime_extension := λ _, None;
     backoffFactor := 2;
     opendir := λ _, dir;
     giphy_search := λ _ _,
       Some (["https://media.example/a.gif?cid=1"; "https://media.example/b.webp";
              "https://media.example/c.gif"], 3);
     date_parse := λ s,
       if String.eqb s "2021-02-01T00:00:00" then Some 1612137600000
       else if String.eqb s "2020-06-01T00:00:00" then Some 1590969600000
       else None;
     toLocaleDateString := λ t,
       if t =? 1612137600000 then "February 1, 2021" else "June 1, 2020";
     toISOString := λ t,
       if t =? 1612137600000 then "2021-02-01T00:00:00.000Z"
       else "2020-06-01T00:00:00.000Z" |}.

Definition two_files : list (string * bool) :=
  [("20.json", true); ("10.json", true); ("10.png", true); ("20.png", true)].

Definition options_ (placeholders : bool) : Options :=
  {| giphyApiKey := Some "giphy-key"; giphySearchTerm := None;
     inDir := "in"; outDir := "out"; testImages := placeholders;
     hunnys := true; mintAttribute := true |}.

Definition corpus : World :=
  {| trace := []; heap := [];
     fs := <["in/10.json" := Json newer]>
           (<["in/20.json" := Json older]>
            (<["in/10.png" := Binary "PNG10"]>
             (<["in/20.png" := Binary "PNG20"]> ∅))) |}.

(** Where a run of each pass, copying the original images, leaves the
    corpus. *)
Definition split_done : World :=
  (Split.prepareMetadata (studio two_files) (options_ false) 5 corpus).2.

Definition flat_done : World :=
  (Flat.prepareMetadata (studio two_files) (options_ false) 5 corpus).2.

(** A record whose events are an empty array, and one without the
    attributes field. *)
Definition eventless : IOpenSeaMetadata := record_ "Hunny #3" "./30.png" (Some []) [] (Some []).
Definition bare : IOpenSeaMetadata := record_ "Hunny #4" "./40.png" None [] None.

Definition eventless_corpus : World :=
  {| trace := []; heap := [];
     fs := <["in/30.json" := Json eventless]> (<["in/30.png" := Binary "PNG30"]> ∅) |}.

End Sample.

(* ===================================================================== *)
(** ** contracts/deploy-testnet/golden-hunny-ticket-airdrop.ts *)
(* ===================================================================== *)

Module Airdrop.

Definition count : nat := 15.

(** From the destructuring of the parsed CSV to the check of the count:
    the first row is dropped, the second column of every other row is
    pushed ([None] is the [undefined] of a row without a second column),
    and the deploy function throws unless there are [count] addresses. *)
Definition addresses_of (record : list (list string)) : Res (list (option string)) :=
  let rows := drop 1 record in
  let addresses := map (λ row, row !! 1%nat) rows in
  if negb (length addresses =? count)%nat
  then Throw (Err_ ("Expected " +:+ pretty count +:+ " addresses, got "
                    +:+ pretty (length addresses)))
  else Ok addresses.

End Airdrop.

(* ===================================================================== *)
(** ** Vocabulary of the further properties *)
(* ===================================================================== *)

(** A computation that rejects only with errors satisfying [P]. *)
Definition throws_only {A} (P : Error → Prop) (m : M A) : Prop :=
  ∀ w e w', m w = (Throw e, w') → P e.



(** The image field the flat layout gives the record at index [j]. *)
Definition flat_image (placeholders : bool) (j : nat) (m : IOpenSeaMetadata) : string :=
  if placeholders then number j +:+ ".gif" else number j +:+ extname (image m).

(** The records the flat layout writes for [records], from index [i]. *)
Fixpoint flat_outputs (o : Options) (placeholders : bool) (i : nat)
    (records : list IOpenSeaMetadata) : list (string * IOpenSeaMetadata) :=
  match records with
  | [] => []
  | m :: rest =>
      (outDir o +:+ "/" +:+ number i +:+ ".json", set_image (flat_image placeholders i m) m)
        :: flat_outputs o placeholders (S i) rest
  end.

(** A request for a placeholder: an image whose address, before its query,
    ends with ".gif". *)
Definition gif_request (r : Request) : Prop :=
  ∃ url, r = GetImage url ∧ Giphy.is_gif url = true.

(** A request of a pass that puts placeholders: a search for its term, or
    the download of a placeholder. *)
Definition placeholder_request (o : Options) (r : Request) : Prop :=
  gif_request r ∨ ∃ offset, r = GiphySearch (searchTerm_of o) offset.

(** A path below a directory. *)
Definition inside (dir path : string) : bool := String.prefix (dir +:+ "/") path.

(** A computation that makes only requests satisfying [P] and changes only
    files whose paths satisfy [Q]. *)
Definition confined {A} (P : Request → Prop) (Q : string → bool) (m : M A) : Prop :=
  ∀ w,
    (∃ requests,
       fetches (trace (m w).2) = fetches (trace w) ++ requests ∧ Forall P requests)
    ∧ ∀ p, Q p = false → fs (m w).2 !! p = fs w !! p.

(** The values whose projection the operator started, in the order it
    started them, and the values the source sent, in the order they arrived. *)
Fixpoint started_values {A} (obs : list (MergeMap.Obs A)) : list A :=
  match obs with
  | MergeMap.Started a :: rest => a :: started_values rest
  | MergeMap.Settled _ :: rest => started_values rest
  | [] => []
  end.

Fixpoint arrivals {A} (sigs : list (MergeMap.Signal A)) : list A :=
  match sigs with
  | MergeMap.Next a :: rest => a :: arrivals rest
  | _ :: rest => arrivals rest
  | [] => []
  end.

(** A state the operator can be in: values wait only while every slot is
    taken, and none waits once the output has errored. *)
Definition orderly {A} (concurrent : nat) (s : MergeMap.State A) : Prop :=
  (MergeMap.buffer s = [] ∨ (concurrent ≤ length (MergeMap.active s))%nat)
  ∧ (MergeMap.errored s = true → MergeMap.buffer s = []).

Module Scenario.
Import OpenSea.

(** The listing answers 401 with a JSON body that has neither assets nor a
    next cursor. *)
Definition error_page : Page :=
  {| page_assets := None; page_asset_events := None; page_owners := None;
     next := None |}.

Definition unauthorized : Host :=
  Sample.host_ (λ r n, Some (Sample.answer_ 401 None (Some error_page))).

(** No request is ever answered. *)
Definition offline : Host := Sample.host_ (λ r n, None).

(** Two assets are listed and everything answers. *)
Definition two_listed : Host :=
  Sample.host_ (λ r n, Some (Sample.answer_ 200 None
                               (Some (Sample.page_of [Sample.bear; Sample.cub])))).

Definition two_harvested : World :=
  (pipeline two_listed "hunnys" "key" 3 [Sample.bear; Sample.cub] initial_world).2.

(** Every listing answers with one last page: an event that still carries
    its asset, and an owner. *)
Definition sale : AssetEvent :=
  {| asset := Some Sample.bear; event_type := "successful";
     event_created_date := "2021-02-01T00:00:00";
     from_account := None; to_account := None; event_quantity := "1" |}.

Definition history_page : Page :=
  {| page_assets := None; page_asset_events := Some [sale];
     page_owners := Some [Sample.owner_ "2021-03-01T00:00:00"]; next := None |}.

Definition chronicle : Host :=
  Sample.host_ (λ r n, Some (Sample.answer_ 200 None (Some history_page))).

Definition events_read : World :=
  (resolve_events chronicle "key" 2 Sample.bear initial_world).2.

Definition owners_read : World :=
  (resolve_owners chronicle "key" 2 Sample.bear events_read).2.

(** One asset is listed and its image and owners answer.  The first page
    of its events names a second one, and the request for that one is
    answered 500 with a JSON body that describes the error. *)
Definition first_events : Page :=
  {| page_assets := None; page_asset_events := Some [sale];
     page_owners := None; next := Some "c2" |}.

Definition outage : Host :=
  Sample.host_ (λ r n,
    match r with
    | GetEvents _ _ _ (Some _) => Some (Sample.answer_ 500 None (Some error_page))
    | GetEvents _ _ _ None => Some (Sample.answer_ 200 None (Some first_events))
    | GetOwners _ _ _ _ => Some (Sample.answer_ 200 None (Some history_page))
    | _ => Some (Sample.answer_ 200 None (Some (Sample.page_of [Sample.bear])))
    end).

(** Every request is answered 429 with a hint that is not a number. *)
Definition unhinted : Host :=
  Sample.host_ (λ r n, Some (Sample.answer_ 429 (Some "soon") None)).

(** An asset listed without any image address. *)
Definition faceless : CollectionAsset :=
  {| asset_id := 2; token_id := "11"; image_url := None;
     image_original_url := None; asset_name := "Hunny #11";
     asset_description := "a bear"; traits := [];
     asset_contract_address := "0xc0ffee"; collection_slug := "hunnys" |}.

(** The asset [bear] of the harvest on [broken_image], once [prepare] has
    made its URL object. *)
Definition bear_prepared : World :=
  (prepare Sample.broken_image "hunnys" Sample.bear Sample.listed_world).2.

(** An asset whose image is kept in a data: address. *)
Definition inline : CollectionAsset :=
  {| asset_id := 3; token_id := "12"; image_url := None;
     image_original_url := Some "data:image/png;base64,iVBORw0KGgo=";
     asset_name := "Hunny #12"; asset_description := "a bear"; traits := [];
     asset_contract_address := "0xc0ffee"; collection_slug := "hunnys" |}.

Definition inline_url : URL :=
  {| protocol := "data:"; url_username := ""; url_password := "";
     hostname := None; port := "";
     pathname := "image/png;base64,iVBORw0KGgo="; search := "";
     hash := ""; opaque := true |}.

Definition inline_prepared : World :=
  {| trace := [Mkdir "./.metadata/hunnys"; Log "Downloading image for Hunny #12"];
     fs := ∅; heap := [inline_url] |}.

(** A parsed holder list: the header and fifteen rows. *)
Definition holders : list (list string) :=
  ["id"; "address"]
    :: map (λ k, [pretty k; "0x" +:+ pretty k]) (seq 1 15).

(** A studio whose placeholder search finds one item, not a GIF. *)
Definition barren : Host :=
  {| net := net (Sample.studio Sample.two_files);
     disk := disk (Sample.studio Sample.two_files);
     mkdir_ok := mkdir_ok (Sample.studio Sample.two_files);
     mime_extension := mime_extension (Sample.studio Sample.two_files);
     backoffFactor := 2;
     opendir := opendir (Sample.studio Sample.two_files);
     giphy_search := λ _ _, Some (["https://media.example/b.webp"], 1);
     date_parse := date_parse (Sample.studio Sample.two_files);
     toLocaleDateString := toLocaleDateString (Sample.studio Sample.two_files);
     toISOString := toISOString (Sample.studio Sample.two_files) |}.

(** A corpus of two records, one of them without owners. *)
Definition ownerless_corpus : World :=
  {| trace := []; heap := [];
     fs := <["in/30.json" := Json Sample.eventless]>
           (<["in/10.json" := Json Sample.newer]> ∅) |}.

(** Two assets arrive, the enrichment of the first is rejected, a third
    asset arrives. *)
Definition rejected_first : list (MergeMap.Signal CollectionAsset) :=
  [MergeMap.Next Sample.bear; MergeMap.Next Sample.cub].

Definition arriving_late : list (MergeMap.Signal CollectionAsset) :=
  [MergeMap.Next Sample.elder].

Definition stream_after_rejection
  : MergeMap.State CollectionAsset * list (MergeMap.Obs CollectionAsset) :=
  ({| MergeMap.active := []; MergeMap.buffer := []; MergeMap.errored := true |},
   [MergeMap.Started Sample.bear; MergeMap.Settled Sample.bear]).

End Scenario.

(* ===================================================================== *)
(** * Properties *)
(* ===================================================================== *)

(** ** The monad and the trace *)

Lemma after_nil w : after [] w = w.
Proof. destruct w; unfold after; simpl. by rewrite app_nil_r. Qed.

Lemma after_after es1 es2 w : after es2 (after es1 w) = after (es1 ++ es2) w.
Proof. unfold after; simpl. by rewrite app_assoc. Qed.

Lemma fetches_app t1 t2 : fetches (t1 ++ t2) = fetches t1 ++ fetches t2.
Proof.
  induction t1 as [| e t1 IH]; [done |].
  destruct e; simpl; rewrite ?IH; done.
Qed.

Lemma bind_ok {A B} (m : M A) (f : A → M B) w a w' :
  m w = (Ok a, w') → (m ≫= f) w = f a w'.
Proof. intros H. unfold mbind, M_bind. by rewrite H. Qed.

Lemma bind_throw {A B} (m : M A) (f : A → M B) w e w' :
  m w = (Throw e, w') → (m ≫= f) w = (Throw e, w').
Proof. intros H. unfold mbind, M_bind. by rewrite H. Qed.

Lemma bind_pending {A B} (m : M A) (f : A → M B) w w' :
  m w = (Pending, w') → (m ≫= f) w = (Pending, w').
Proof. intros H. unfold mbind, M_bind. by rewrite H. Qed.

Lemma fetch_answered h r w resp :
  net h r (count_fetch r (trace w)) = Some resp →
  fetch h r w = (Ok resp, after [Fetch r] w).
Proof. intros H. unfold fetch. by rewrite H. Qed.

Lemma fetch_rejected h r w :
  net h r (count_fetch r (trace w)) = None →
  fetch h r w = (Throw FetchError, after [Fetch r] w).
Proof. intros H. unfold fetch. by rewrite H. Qed.

(** ** The retry policy *)

Lemma retry_settled {T} h (op : M T) n d w v w' :
  op w = (Ok v, w') → retryWithBackoff h op (S n) d w = (Ok v, w').
Proof. intros H. simpl. by rewrite H. Qed.

Lemma retry_again {T} h (op : M T) n d w e w' :
  op w = (Throw e, w') →
  retryWithBackoff h op (S (S n)) d w
  = retryWithBackoff h op (S n) (d * backoffFactor h) (after [Log "Retrying"; Backoff d] w').
Proof.
  intros H. cbn [retryWithBackoff]. rewrite H.
  unfold mbind, M_bind, emit. by rewrite after_after.
Qed.

Lemma retry_last {T} h (op : M T) d w e w' :
  op w = (Throw e, w') →
  retryWithBackoff h op 1 d w = (Throw RetryExhausted, w').
Proof. intros H. simpl. by rewrite H. Qed.

(** ** Rate limiting *)

Module RateLimit.
Import OpenSea.

Lemma rate_limit_waits resp r w :
  status resp = 429 →
  parseInt (default "0" (retry_after resp)) = Some r →
  0 < r →
  rate_limit resp w
  = (Throw (Err_ "Rate limited"), after [Log (waiting_line r); Sleep (r * 1000)] w).
Proof.
  intros Hs Hp Hr. unfold rate_limit. rewrite Hs, Hp. simpl.
  assert ((0 <? r) = true) as -> by lia.
  unfold mbind, M_bind, emit, throw. by rewrite after_after.
Qed.

(** A request answered 429 with a positive hint: the attempt ends, after
    the wait, by throwing. *)
Lemma attempt_waits h req resp r w :
  net h req (count_fetch req (trace w)) = Some resp →
  status resp = 429 →
  parseInt (default "0" (retry_after resp)) = Some r →
  0 < r →
  (response ← fetch h req; rate_limit response;; response_json response) w
  = (Throw (Err_ "Rate limited"),
     after [Fetch req; Log (waiting_line r); Sleep (r * 1000)] w).
Proof.
  intros Hn Hs Hp Hr.
  rewrite (bind_ok _ _ _ _ _ (fetch_answered _ _ _ _ Hn)).
  rewrite (bind_throw _ _ _ _ _ (rate_limit_waits _ _ _ Hs Hp Hr)).
  by rewrite after_after.
Qed.

End RateLimit.

Module RateLimitClaims.
Import OpenSea RateLimit.

(** C3.  A fetcher (of the asset listing, of an asset's events, of an
    asset's owners) whose request is answered 429 with a positive
    retry-after hint of [r] seconds waits [r * 1000] milliseconds and only
    then throws.  For the retry policy around it that is one failed attempt
    like any other: with two or more attempts left it goes on, after its own
    backoff, with one attempt fewer, and with one attempt left it is
    exhausted; the wait itself takes no attempt. *)
Theorem rate_limit_wait_consumes_no_attempt
    (h : Host) (collectionSlug apiKey : string) (a : CollectionAsset)
    (next_ : option string) (op : M Page) (req : Request)
    (w : World) (resp : Response) (r : Z) (n : nat) (d : Z) :
  (op = assets_fetcher h collectionSlug apiKey next_
     ∧ req = GetAssets apiKey collectionSlug (cursor_param next_))
  ∨ (op = events_attempt h apiKey a next_
     ∧ req = GetEvents apiKey (asset_contract_address a) (token_id a) (cursor_param next_))
  ∨ (op = owners_fetcher h apiKey a next_
     ∧ req = GetOwners apiKey (asset_contract_address a) (token_id a) (cursor_param next_)) →
  net h req (count_fetch req (trace w)) = Some resp →
  status resp = 429 →
  parseInt (default "0" (retry_after resp)) = Some r →
  0 < r →
  let waited := after [Fetch req; Log (waiting_line r); Sleep (r * 1000)] w in
  op w = (Throw (Err_ "Rate limited"), waited)
  ∧ retryWithBackoff h op (S (S n)) d w
    = retryWithBackoff h op (S n) (d * backoffFactor h)
        (after [Log "Retrying"; Backoff d] waited)
  ∧ retryWithBackoff h op 1 d w = (Throw RetryExhausted, waited).
Proof.
  intros Hop Hn Hs Hp Hr waited.
  assert (op w = (Throw (Err_ "Rate limited"), waited)) as Hw.
  { destruct Hop as [[-> ->] | [[-> ->] | [-> ->]]];
      apply (attempt_waits _ _ _ _ _ Hn Hs Hp Hr). }
  split; [exact Hw |].
  split; [exact (retry_again _ _ _ _ _ _ _ Hw) | exact (retry_last _ _ _ _ _ _ Hw)].
Qed.

(** The theorem on a listing that is rate limited once, with a hint of two
    seconds. *)
Lemma rate_limit_wait_consumes_no_attempt_witness :
  let op := assets_fetcher Sample.throttled "hunnys" "key" None in
  let waited :=
    after [Fetch (GetAssets "key" "hunnys" None); Log (waiting_line 2); Sleep 2000]
          initial_world in
  op initial_world = (Throw (Err_ "Rate limited"), waited)
  ∧ retryWithBackoff Sample.throttled op 5 250 initial_world
    = retryWithBackoff Sample.throttled op 4 500
        (after [Log "Retrying"; Backoff 250] waited)
  ∧ retryWithBackoff Sample.throttled op 1 250 initial_world
    = (Throw RetryExhausted, waited).
Proof.
  apply (rate_limit_wait_consumes_no_attempt Sample.throttled "hunnys" "key"
           Sample.bear None _ (GetAssets "key" "hunnys" None) initial_world
           (Sample.answer_ 429 (Some "2") None) 2 3 250).
  - left. split; reflexivity.
  - reflexivity.
  - reflexivity.
  - reflexivity.
  - lia.
Defined.

End RateLimitClaims.

(** ** Pagination *)

Module PaginationClaims.
Import OpenSea Paging.

Lemma truthy_cursor n : truthy (cursor (S n)) = true.
Proof. reflexivity. Qed.

Lemma length_cursor n : String.length (cursor n) = n.
Proof. induction n; simpl; congruence. Qed.

Lemma cursor_param_held off : cursor_param (held off) = held off.
Proof. by destruct off. Qed.

Lemma offset_of_held off : offset_of (held off) = off.
Proof. destruct off; [done |]. unfold held, offset_of. apply length_cursor. Qed.

Section Served.
Variables (items : list CollectionAsset) (P : nat).
Variables (collectionSlug apiKey : string).
Hypothesis P_pos : (0 < P)%nat.

Lemma fetcher_serves c w :
  listing_fetcher items P collectionSlug apiKey c w
  = (Ok (serve items P (cursor_param c)),
     after [Fetch (GetAssets apiKey collectionSlug (cursor_param c))] w).
Proof. reflexivity. Qed.

Lemma retried_fetcher_serves c w :
  retryWithBackoff (listing_host items P)
    (listing_fetcher items P collectionSlug apiKey c) 5 250 w
  = (Ok (serve items P (cursor_param c)),
     after [Fetch (GetAssets apiKey collectionSlug (cursor_param c))] w).
Proof. apply retry_settled, fetcher_serves. Qed.

Lemma ceil_small r : (r ≤ P → Nat.max 1 (ceil_div r P) = 1)%nat.
Proof.
  intros Hr. unfold ceil_div.
  destruct (decide (r = 0%nat)) as [-> | Hne].
  - rewrite Nat.div_small by lia. reflexivity.
  - replace (r + P - 1)%nat with ((r - 1) + 1 * P)%nat by lia.
    rewrite Nat.div_add by lia. rewrite Nat.div_small by lia. reflexivity.
Qed.

Lemma ceil_large r :
  (P < r → Nat.max 1 (ceil_div r P) = S (Nat.max 1 (ceil_div (r - P) P)))%nat.
Proof.
  intros Hr. unfold ceil_div.
  replace (r + P - 1)%nat with ((r - P + P - 1) + 1 * P)%nat by lia.
  rewrite Nat.div_add by lia.
  assert (1 ≤ (r - P + P - 1) / P)%nat.
  { replace (r - P + P - 1)%nat with ((r - P - 1) + 1 * P)%nat by lia.
    rewrite Nat.div_add by lia. lia. }
  lia.
Qed.

Lemma next_serve off :
  next (serve items P (held off))
  = if (off + P <? length items)%nat then held (off + P) else None.
Proof.
  unfold serve. cbn [next]. rewrite offset_of_held.
  destruct (off + P <? length items)%nat; [| done].
  unfold held. destruct (off + P)%nat eqn:E; [lia | done].
Qed.

Lemma assets_serve off :
  default [] (page_assets (serve items P (held off))) = take P (drop off items).
Proof. unfold serve. cbn [page_assets default]. by rewrite offset_of_held. Qed.

Lemma truthy_held off : (0 < off)%nat → truthy_opt (held off) = true.
Proof. destruct off; [lia | done]. Qed.

(** From any offset, with enough fuel: the pages, their number, their
    items, their cursors and the requests made. *)
Lemma pages_from_offset fuel : ∀ off w,
  (1 ≤ fuel)%nat → (length items - off ≤ fuel * P)%nat →
  ∃ pages w',
    pages_from (listing_host items P) (listing_fetcher items P collectionSlug apiKey) fuel (held off) w = ((pages, Done), w')
    ∧ length pages = Nat.max 1 (ceil_div (length items - off) P)
    ∧ concat (map (λ p, default [] (page_assets p)) pages) = drop off items
    ∧ Forall (λ p, truthy_opt (next p) = true) (removelast pages)
    ∧ next (List.last pages (serve items P None)) = None
    ∧ fetches (trace w')
      = fetches (trace w)
        ++ map (GetAssets apiKey collectionSlug)
               (held off :: map next (removelast pages)).
Proof.
  induction fuel as [| fuel IH]; intros off w Hfuel Hlen; [lia |].
  cbn [pages_from]. rewrite retried_fetcher_serves, cursor_param_held.
  rewrite next_serve.
  destruct (off + P <? length items)%nat eqn:Hmore.
  - apply Nat.ltb_lt in Hmore.
    rewrite truthy_held by lia. cbn [negb].
    destruct (IH (off + P)%nat
                 (after [Fetch (GetAssets apiKey collectionSlug (held off))] w))
      as (pages & w' & Hrun & Hcount & Hitems & Hnexts & Hlast & Hreq);
      [lia | lia |].
    rewrite Hrun.
    assert (pages ≠ []) as Hne.
    { intros ->. simpl in Hcount. lia. }
    assert (next (serve items P (held off)) = held (off + P)) as Hnext.
    { rewrite next_serve. by apply Nat.ltb_lt in Hmore as ->. }
    eexists _, _. split; [reflexivity |].
    split; [| split; [| split; [| split]]].
    + cbn [length]. rewrite Hcount.
      rewrite (ceil_large (length items - off)) by lia.
      do 3 f_equal. lia.
    + cbn [map concat]. rewrite Hitems, assets_serve.
      rewrite <- drop_drop. apply take_drop.
    + destruct pages as [| p pages]; [done |].
      cbn [removelast]. constructor; [| exact Hnexts].
      rewrite Hnext. apply truthy_held. lia.
    + destruct pages as [| p pages]; [done |]. exact Hlast.
    + rewrite Hreq. cbn [trace after]. rewrite fetches_app. cbn [fetches].
      rewrite <- app_assoc. f_equal. cbn [app map]. f_equal.
      destruct pages as [| p pages]; [done |].
      cbn [removelast map]. f_equal. by rewrite Hnext.
  - apply Nat.ltb_ge in Hmore. cbn [truthy_opt negb].
    assert (next (serve items P (held off)) = None) as Hnext.
    { rewrite next_serve. by apply Nat.ltb_ge in Hmore as ->. }
    eexists _, _. split; [reflexivity |].
    split; [| split; [| split; [| split]]].
    + cbn [length]. symmetry. apply ceil_small. lia.
    + cbn [map concat]. rewrite assets_serve, app_nil_r.
      apply take_ge. rewrite length_drop. lia.
    + constructor.
    + cbn [List.last]. exact Hnext.
    + cbn [trace after removelast map]. by rewrite fetches_app.
Qed.

End Served.

(** C7, as the code has it.  A listing of [L] items served [P] at a time
    (with enough fuel for the loop) makes the generator return after
    [max 1 (ceil (L / P))] pages: one page even when the listing is empty.
    The items of the pages, concatenated, are the listing in its order;
    every page but the last carries a truthy next cursor and the last
    carries none; the requests are made in order, the first without a
    cursor and each later one with the cursor of the page before it. *)
Theorem paginated_fetch_pages
    (items : list CollectionAsset) (P : nat) (collectionSlug apiKey : string)
    (fuel : nat) (w : World) :
  (0 < P)%nat → (1 ≤ fuel)%nat → (length items ≤ fuel * P)%nat →
  ∃ pages w',
    fetchWithPagination (listing_host items P)
      (assets_fetcher (listing_host items P) collectionSlug apiKey) fuel w
    = ((pages, Done), w')
    ∧ length pages = Nat.max 1 (ceil_div (length items) P)
    ∧ concat (map (λ p, default [] (page_assets p)) pages) = items
    ∧ Forall (λ p, truthy_opt (next p) = true) (removelast pages)
    ∧ next (List.last pages (serve items P None)) = None
    ∧ fetches (trace w')
      = fetches (trace w)
        ++ map (GetAssets apiKey collectionSlug)
               (None :: map next (removelast pages)).
Proof.
  intros HP Hfuel Hlen.
  destruct (pages_from_offset items P collectionSlug apiKey HP fuel 0%nat w)
    as (pages & w' & Hrun & Hcount & Hitems & Hrest); [lia | lia |].
  exists pages, w'. rewrite Nat.sub_0_r in Hcount.
  split; [exact Hrun |]. split; [exact Hcount |]. split; [exact Hitems | exact Hrest].
Qed.

(** The theorem on three assets served two at a time. *)
Lemma paginated_fetch_pages_witness :
  ∃ pages w',
    fetchWithPagination (listing_host [Sample.bear; Sample.cub; Sample.elder] 2)
      (assets_fetcher (listing_host [Sample.bear; Sample.cub; Sample.elder] 2)
                      "hunnys" "key") 5 initial_world
    = ((pages, Done), w')
    ∧ length pages = Nat.max 1 (ceil_div 3 2)
    ∧ concat (map (λ p, default [] (page_assets p)) pages)
      = [Sample.bear; Sample.cub; Sample.elder]
    ∧ Forall (λ p, truthy_opt (next p) = true) (removelast pages)
    ∧ next (List.last pages (serve [Sample.bear; Sample.cub; Sample.elder] 2 None))
      = None
    ∧ fetches (trace w')
      = fetches (trace initial_world)
        ++ map (GetAssets "key" "hunnys") (None :: map next (removelast pages)).
Proof.
  apply (paginated_fetch_pages [Sample.bear; Sample.cub; Sample.elder] 2
           "hunnys" "key" 5 initial_world); simpl; lia.
Defined.

(** C7 as stated fails for the empty listing: the generator asks for one
    page and yields it, and the ceiling of 0 / P is 0. *)
Lemma empty_listing_yields_one_page :
  fst (fetchWithPagination (listing_host [] 2)
         (assets_fetcher (listing_host [] 2) "hunnys" "key") 3 initial_world)
  = ([serve [] 2 None], Done)
  ∧ length [serve [] 2 None] ≠ ceil_div (length (@nil CollectionAsset)) 2.
Proof. split; [reflexivity | vm_compute; lia]. Qed.

End PaginationClaims.

(** ** Strings *)

Module StringFacts.

Lemma count_char_app c s t :
  count_char c (s +:+ t) = (count_char c s + count_char c t)%nat.
Proof. induction s as [| a s IH]; simpl; [done |]. rewrite IH. lia. Qed.

Lemma app_assoc_s (a b c : string) : (a +:+ b) +:+ c = a +:+ (b +:+ c).
Proof. induction a as [| x a IH]; simpl; congruence. Qed.

Lemma app_empty_r (a : string) : a +:+ "" = a.
Proof. induction a as [| x a IH]; simpl; congruence. Qed.

Lemma strip_prefix_Some pat : ∀ s rest,
  strip_prefix pat s = Some rest → s = pat +:+ rest.
Proof.
  induction pat as [| a pat IH]; intros s rest H; simpl in *.
  - congruence.
  - destruct s as [| b s]; [done |].
    destruct (Ascii.eqb_spec a b) as [-> | Hne]; [| done].
    f_equal. by apply IH.
Qed.

Lemma strip_prefix_app_Some pat t : ∀ s rest,
  strip_prefix pat s = Some rest → strip_prefix pat (s +:+ t) = Some (rest +:+ t).
Proof.
  induction pat as [| a pat IH]; intros s rest H; simpl in *.
  - congruence.
  - destruct s as [| b s]; [done |]. simpl.
    destruct (Ascii.eqb a b); [by apply IH | done].
Qed.

Lemma strip_prefix_app_None pat x t : ∀ s,
  avoids x pat = true →
  strip_prefix pat s = None → strip_prefix pat (s +:+ String x t) = None.
Proof.
  induction pat as [| a pat IH]; intros s Hav H; simpl in *; [done |].
  apply andb_true_iff in Hav as [Hax Hav].
  destruct s as [| b s]; simpl.
  - by destruct (Ascii.eqb a x).
  - destruct (Ascii.eqb a b); [by apply IH | done].
Qed.

(** A replacement commutes with appending a text that the pattern neither
    occurs in nor can run into. *)
Lemma replace_app pat rep x t : ∀ s,
  avoids x pat = true → pat ≠ "" →
  JS.replace pat rep (String x t) = String x t →
  JS.replace pat rep (s +:+ String x t) = JS.replace pat rep s +:+ String x t.
Proof.
  intros s Hav Hpat Hfix. induction s as [| b s IH].
  - change ("" +:+ String x t) with (String x t). rewrite Hfix.
    by destruct pat as [| a pat].
  - change (String b s +:+ String x t) with (String b (s +:+ String x t)).
    cbn [JS.replace].
    change (String b (s +:+ String x t)) with (String b s +:+ String x t).
    destruct (strip_prefix pat (String b s)) as [rest |] eqn:E.
    + rewrite (strip_prefix_app_Some _ _ _ _ E). by rewrite app_assoc_s.
    + rewrite (strip_prefix_app_None _ _ _ _ Hav E). simpl. by rewrite IH.
Qed.

Lemma count_char_replace c pat rep s :
  count_char c pat = 0%nat → count_char c rep = 0%nat →
  count_char c (JS.replace pat rep s) = count_char c s.
Proof.
  intros Hpat Hrep. induction s as [| b s IH].
  - simpl. destruct (strip_prefix pat "") as [rest |] eqn:E; [| done].
    apply strip_prefix_Some in E.
    rewrite count_char_app, Hrep. simpl.
    assert (count_char c "" = 0%nat) as H0 by done.
    rewrite E, count_char_app in H0. lia.
  - cbn [JS.replace].
    destruct (strip_prefix pat (String b s)) as [rest |] eqn:E.
    + apply strip_prefix_Some in E. rewrite E, !count_char_app. lia.
    + simpl. by rewrite IH.
Qed.

End StringFacts.

(** ** The image URL across attempts *)

Module ImageUrlClaims.
Import OpenSea Paging StringFacts.

Lemma suffixes_snoc k : suffixes k +:+ "=d" = suffixes (S k).
Proof.
  induction k as [| k IH]; [done |].
  cbn [suffixes]. rewrite app_assoc_s, IH. done.
Qed.

Lemma replace_in_suffixes k :
  JS.replace "/gae/" "/" (suffixes k) = suffixes k.
Proof. induction k as [| k IH]; [done |]. simpl. by rewrite IH. Qed.

Lemma replace_suffixes s k :
  JS.replace "/gae/" "/" (s +:+ suffixes k) = JS.replace "/gae/" "/" s +:+ suffixes k.
Proof.
  destruct k as [| k]; [by rewrite !app_empty_r |].
  change (suffixes (S k)) with (String "=" (String "d" (suffixes k))).
  apply replace_app; [done | done |].
  apply (replace_in_suffixes (S k)).
Qed.

(** *** The URL objects [new URL] makes *)

Lemma break_stops stop s :
  (Url.break stop s).2 = ""
  ∨ ∃ c t, (Url.break stop s).2 = String c t ∧ stop c = true.
Proof.
  induction s as [| a s IH]; cbn [Url.break]; [by left |].
  destruct (stop a) eqn:Ha; [right; by exists a, s |].
  destruct (Url.break stop s) as [x y]. exact IH.
Qed.

Lemma split_tail_rooted rest :
  (rest = "" ∨ ∃ c t, rest = String c t ∧ stop_authority c = true) →
  (split_tail rest).1.1 = "" ∨ starts_with "/" (split_tail rest).1.1 = true.
Proof.
  intros [-> | (c & t & -> & Hc)]; [by left |].
  unfold split_tail. cbn [Url.break]. unfold stop_authority in Hc.
  destruct (is_char "?" c || is_char "#" c) eqn:Hq.
  - left. by destruct (Url.break (is_char "#") (String c t)).
  - right. apply orb_false_elim in Hq as [Hq1 Hq2].
    rewrite Hq1, Hq2, !orb_false_r in Hc.
    destruct (Url.break _ t) as [x y].
    destruct (Url.break (is_char "#") y). cbn. exact Hc.
Qed.

Lemma hierarchical_rooted scheme rest u :
  hierarchical scheme rest = Some u → opaque u = false ∧ rooted u = true.
Proof.
  unfold hierarchical.
  pose proof (break_stops stop_authority rest) as Hrest.
  destruct (Url.break stop_authority rest) as [authority rest'].
  cbn [snd] in Hrest.
  pose proof (split_tail_rooted rest' Hrest) as Hpath.
  destruct (split_tail rest') as [[path query] fragment]. cbn [fst] in Hpath.
  destruct (parse_authority scheme authority) as [[[[user pass] host] prt] |];
    [| done].
  intros [= <-]. split; [done |]. unfold rooted. cbn [opaque pathname orb].
  destruct Hpath as [-> | Hpath]; [by destruct (special scheme) |].
  destruct path; [done |]. cbn [String.eqb andb]. rewrite andb_false_r.
  cbn. exact Hpath.
Qed.

(** Every URL object [new URL] returns has a path that is opaque, empty
    or starts with "/". *)
Lemma parse_rooted s u : Url.parse s = Some u → rooted u = true.
Proof.
  unfold Url.parse.
  destruct (split_scheme (clean s)) as [[scheme rest] |]; [| done].
  destruct (String.eqb scheme "file").
  - unfold parse_file. destruct (strip_prefix "//" rest) as [rest' |].
    + pose proof (break_stops stop_authority rest') as Hrest.
      destruct (Url.break stop_authority rest') as [host rest''].
      cbn [snd] in Hrest.
      pose proof (split_tail_rooted rest'' Hrest) as Hpath.
      destruct (split_tail rest'') as [[path query] fragment]. cbn [fst] in Hpath.
      destruct (_ || _); [| done]. intros [= <-].
      unfold rooted. cbn [opaque pathname orb].
      destruct Hpath as [-> | Hpath]; [done |].
      destruct path; [done |]. exact Hpath.
    + destruct (split_tail rest) as [[path query] fragment]. intros [= <-].
      unfold rooted. cbn [opaque pathname orb].
      destruct (starts_with "/" path) eqn:Hp; [| done].
      rewrite Hp. by destruct (String.eqb path "").
  - destruct (special scheme).
    + intros H. by destruct (hierarchical_rooted _ _ _ H).
    + destruct (strip_prefix "//" rest) as [rest' |].
      * intros H. by destruct (hierarchical_rooted _ _ _ H).
      * pose proof (split_tail_rooted rest) as Hpath.
        destruct (split_tail rest) as [[path query] fragment]. intros [= <-].
        unfold rooted. cbn [opaque pathname].
        destruct rest as [| c t]; [done |]. cbn [starts_with] in *.
        unfold stop_authority, is_char in Hpath.
        destruct (Ascii.eqb "/" c) eqn:Hc; [| done]. cbn [negb orb].
        cbn [fst] in Hpath.
        destruct Hpath as [-> | ->]; [| done |].
        { right. exists c, t. by rewrite Hc. }
        by destruct (String.eqb path "").
Qed.

(** *** One rewrite *)

Lemma replace_rooted p :
  starts_with "/" p = true → starts_with "/" (JS.replace "/gae/" "/" p) = true.
Proof.
  destruct p as [| c p]; [done |]. intros Hc.
  cbn [starts_with] in Hc. apply Ascii.eqb_eq in Hc. subst c.
  change (JS.replace "/gae/" "/" (String "/" p))
    with (match strip_prefix "gae/" p with
          | Some rest => "/" +:+ rest
          | None => String "/" (JS.replace "/gae/" "/" p)
          end).
  by destruct (strip_prefix "gae/" p).
Qed.

Lemma suffixed_not_empty p : String.eqb (p +:+ "=d") "" = false.
Proof. by destruct p. Qed.

Lemma starts_with_app c p q :
  starts_with c p = true → starts_with c (p +:+ q) = true.
Proof. by destruct p. Qed.

Lemma suffixed_rooted p :
  starts_with "/" p = true → starts_with "/" (p +:+ "=d") = true.
Proof. apply starts_with_app. Qed.

(** On a URL object without an opaque path the three assignments take
    effect: the query goes, the host is the canonical one, and the path is
    the former one, "/gae/" replaced once, with "=d" behind it. *)
Lemma rewrite_hierarchical u :
  opaque u = false → rooted u = true →
  rewrite_url u
  = {| protocol := protocol u; url_username := url_username u;
       url_password := url_password u; hostname := Some canonical_host;
       port := port u;
       pathname := JS.replace "/gae/" "/" (base_path u) +:+ "=d";
       search := ""; hash := hash u; opaque := false |}.
Proof.
  intros Hop Hroot. unfold rewrite_url, set_hostname, set_pathname, set_search.
  cbn [opaque pathname protocol url_username url_password hostname port search hash].
  rewrite Hop.
  change (host_text (Url.break stop_authority "lh3.googleusercontent.com").1)
    with true.
  cbv iota.
  cbn [opaque pathname protocol url_username url_password hostname port search hash].
  rewrite suffixed_not_empty.
  assert (∀ b : bool,
            (if b then lowercase (Url.break stop_authority "lh3.googleusercontent.com").1
             else (Url.break stop_authority "lh3.googleusercontent.com").1)
            = canonical_host) as -> by by intros [].
  f_equal.
  unfold rooted in Hroot. rewrite Hop in Hroot. cbn [orb] in Hroot. unfold base_path.
  destruct (String.eqb (pathname u) "") eqn:He.
  - apply String.eqb_eq in He. rewrite He. reflexivity.
  - cbn [orb] in Hroot.
    by rewrite (suffixed_rooted _ (replace_rooted _ Hroot)).
Qed.

(** On a URL object with an opaque path only the query goes: the
    assignments to the host and to the path do nothing. *)
Lemma rewrite_opaque u : opaque u = true → rewrite_url u = set_search "" u.
Proof.
  intros Hop. unfold rewrite_url. cbv zeta.
  assert (opaque (set_search "" u) = true) as Hs by exact Hop.
  unfold set_hostname. rewrite Hs. unfold set_pathname. by rewrite Hs.
Qed.

Lemma attempt_url_S k u : attempt_url (S k) u = rewrite_url (attempt_url k u).
Proof. reflexivity. Qed.

(** The object after [k + 1] rewrites. *)
Lemma attempt_hierarchical k u :
  opaque u = false → rooted u = true →
  attempt_url (S k) u
  = {| protocol := protocol u; url_username := url_username u;
       url_password := url_password u; hostname := Some canonical_host;
       port := port u;
       pathname := Nat.iter (S k) (JS.replace "/gae/" "/") (base_path u)
                     +:+ suffixes (S k);
       search := ""; hash := hash u; opaque := false |}.
Proof.
  intros Hop Hroot. induction k as [| k IH].
  - change (attempt_url 1 u) with (rewrite_url u).
    rewrite (rewrite_hierarchical u Hop Hroot). reflexivity.
  - rewrite attempt_url_S, IH.
    set (p := Nat.iter (S k) (JS.replace "/gae/" "/") (base_path u) +:+ suffixes (S k)).
    assert (starts_with "/" p = true) as Hp.
    { subst p.
      assert (starts_with "/" (base_path u) = true) as Hb.
      { unfold base_path, rooted in *. rewrite Hop in Hroot. cbn [orb] in Hroot.
        by destruct (String.eqb (pathname u) ""). }
      assert (∀ n, starts_with "/" (Nat.iter n (JS.replace "/gae/" "/") (base_path u))
                   = true) as Hn.
      { induction n as [| n IHn]; [done |]. cbn [Nat.iter]. by apply replace_rooted. }
      apply starts_with_app, (Hn (S k)). }
    rewrite rewrite_hierarchical; cbn [opaque pathname]; [| done |].
    + cbn [protocol url_username url_password port hash]. f_equal.
      unfold base_path. cbn [pathname].
      assert (String.eqb p "" = false) as -> by by destruct p.
      subst p. rewrite replace_suffixes, app_assoc_s, suffixes_snoc. done.
    + unfold rooted. cbn [opaque pathname orb]. rewrite Hp. by rewrite orb_true_r.
Qed.

Lemma attempt_opaque k u : opaque u = true → attempt_url (S k) u = set_search "" u.
Proof.
  intros Hop. induction k as [| k IH].
  - by apply rewrite_opaque.
  - rewrite attempt_url_S, IH, rewrite_opaque by done. reflexivity.
Qed.



(** What the [k + 1]-th attempt asks for, written out. *)
Lemma attempt_address k u :
  opaque u = false → rooted u = true →
  toString (attempt_url (S k) u)
  = protocol u +:+ "//" +:+ credentials u +:+ canonical_host
      +:+ (if String.eqb (port u) "" then "" else ":" +:+ port u)
      +:+ Nat.iter (S k) (JS.replace "/gae/" "/") (base_path u)
      +:+ suffixes (S k) +:+ hash u.
Proof.
  intros Hop Hroot. rewrite (attempt_hierarchical k u Hop Hroot).
  unfold toString, credentials.
  cbn [protocol url_username url_password hostname port pathname search hash].
  rewrite !app_assoc_s. reflexivity.
Qed.

Lemma count_iter_replace k p :
  count_char "=" (Nat.iter k (JS.replace "/gae/" "/") p) = count_char "=" p.
Proof.
  induction k as [| k IH]; [done |].
  by rewrite Nat.iter_succ, count_char_replace.
Qed.

Lemma count_suffixes k : count_char "=" (suffixes k) = k.
Proof.
  induction k as [| k IH]; [done |]. cbn [suffixes].
  rewrite count_char_app, IH. reflexivity.
Qed.

Lemma attempts_differ j k u :
  opaque u = false → rooted u = true →
  (1 ≤ j)%nat → (1 ≤ k)%nat → j ≠ k →
  toString (attempt_url j u) ≠ toString (attempt_url k u).
Proof.
  intros Hop Hroot Hj Hk Hne Heq.
  apply (f_equal (count_char "=")) in Heq.
  destruct j as [| j]; [lia |]. destruct k as [| k]; [lia |].
  rewrite !attempt_address in Heq by done.
  rewrite !count_char_app, !count_iter_replace, !count_suffixes in Heq. lia.
Qed.

(** One attempt: the object is rewritten in place and what it then reads
    is fetched; the attempt does not stay pending. *)
Lemma image_attempt_once h a url u w :
  heap w !! url = Some u →
  ∃ r,
    image_attempt h a url w
    = (r, {| trace := trace w ++ [Fetch (GetImage (toString (rewrite_url u)))];
             fs := fs w;
             heap := alter rewrite_url url (heap w) |})
    ∧ r ≠ Pending.
Proof.
  intros Hu. unfold image_attempt.
  unfold mbind at 1, M_bind, update_URL. cbn [trace fs heap].
  unfold mbind at 1, M_bind. cbn [trace fs heap].
  unfold mbind at 1, M_bind. cbn [trace fs heap].
  unfold mbind at 1, M_bind, read_URL, deref. cbn [trace fs heap].
  rewrite !list_alter_alter_eq.
  rewrite list_lookup_alter_eq, Hu. cbn [fmap option_fmap option_map default].
  change (Datatypes.id _) with (rewrite_url u).
  set (w1 := {| trace := trace w; fs := fs w; heap := _ |}).
  assert (heap w1 = alter rewrite_url url (heap w)) as Hheap.
  { subst w1. cbn [heap]. apply list_alter_ext; [| done..]. intros x _. reflexivity. }
  unfold mbind, M_bind, fetch.
  destruct (net h (GetImage (toString (rewrite_url u)))
                (count_fetch (GetImage (toString (rewrite_url u))) (trace w1)))
    as [resp |].
  - unfold mbind, M_bind, emit, after. cbn [trace fs heap mret M_ret].
    destruct (negb (ok resp)); unfold throw, mret, M_ret;
      rewrite Hheap; eexists; (split; [reflexivity | done]).
  - unfold mbind, M_bind, emit, after, throw. cbn [trace fs heap].
    rewrite Hheap. eexists; (split; [reflexivity | done]).
Qed.

(** The object the attempts act on is the one [prepare] made of the
    asset's image address. *)
Lemma prepare_allocates h slug a w url w0 :
  prepare h slug a w = (Ok url, w0) →
  ∃ u, Url.parse (image_address a) = Some u ∧ heap w0 !! url = Some u.
Proof.
  unfold prepare, image_address, mbind, M_bind, new_URL, mkdir, emit.
  destruct (Url.parse _) as [u |]; [| done]. cbn [trace fs heap].
  destruct (mkdir_ok h _ _); [| done].
  intros [= <- <-]. exists u. split; [done |].
  cbn [after heap]. by rewrite lookup_app_r, Nat.sub_diag.
Qed.

(** An opaque path comes without a host. *)
Lemma parse_opaque s u :
  Url.parse s = Some u → opaque u = true → hostname u = None.
Proof.
  unfold Url.parse.
  destruct (split_scheme (clean s)) as [[scheme rest] |]; [| done].
  destruct (String.eqb scheme "file").
  { unfold parse_file. destruct (strip_prefix "//" rest) as [rest' |].
    - destruct (Url.break stop_authority rest') as [host rest''].
      destruct (split_tail rest'') as [[path query] fragment].
      destruct (_ || _); [| done]. by intros [= <-].
    - destruct (split_tail rest) as [[path query] fragment]. by intros [= <-]. }
  assert (∀ r, hierarchical scheme r = Some u → opaque u = true → hostname u = None)
    as Hh.
  { intros r H. destruct (hierarchical_rooted _ _ _ H) as [-> _]. done. }
  destruct (special scheme); [apply Hh |].
  destruct (strip_prefix "//" rest) as [rest' |]; [apply Hh |].
  destruct (split_tail rest) as [[path query] fragment]. by intros [= <-].
Qed.

Lemma attempt_url_shift k u : attempt_url k (rewrite_url u) = attempt_url (S k) u.
Proof. unfold attempt_url. by rewrite <- Nat.iter_succ_r. Qed.

Lemma retried_image_attempts h a url : ∀ n d w u,
  heap w !! url = Some u →
  ∃ m,
    (m ≤ n)%nat ∧ (1 ≤ n → 1 ≤ m)%nat
    ∧ fetches (trace (snd (retryWithBackoff h (image_attempt h a url) n d w)))
      = fetches (trace w)
        ++ map (λ k, GetImage (toString (attempt_url k u))) (seq 1 m)
    ∧ (is_ok (fst (retryWithBackoff h (image_attempt h a url) n d w)) = false → m = n).
Proof.
  induction n as [| n IH]; intros d w u Hu.
  - exists 0%nat. simpl. rewrite app_nil_r. done.
  - destruct (image_attempt_once h a url u w Hu) as (r & Hrun & Hr).
    destruct r as [resp | e |]; [| | done].
    + exists 1%nat. rewrite (retry_settled _ _ _ _ _ _ _ Hrun).
      cbn [snd fst trace is_ok]. rewrite fetches_app.
      split; [lia |]. split; [lia |]. split; [done | done].
    + destruct n as [| n].
      * exists 1%nat. rewrite (retry_last _ _ _ _ _ _ Hrun).
        cbn [snd fst trace]. rewrite fetches_app. done.
      * rewrite (retry_again _ _ _ _ _ _ _ Hrun).
        match goal with
        | |- context [retryWithBackoff h _ (S n) ?d' ?w'] =>
            destruct (IH d' w' (rewrite_url u)) as (m & Hm & Hm1 & Hreq & Hall)
        end.
        { cbn [heap after]. by rewrite list_lookup_alter_eq, Hu. }
        exists (S m). rewrite Hreq. cbn [trace after].
        rewrite !fetches_app. cbn [fetches]. rewrite app_nil_r, <- app_assoc.
        split; [lia |]. split; [lia |]. split.
        -- f_equal. cbn [seq map app]. f_equal.
           rewrite <- (seq_shift m 1), map_map.
           apply map_ext. intros k. by rewrite attempt_url_shift.
        -- intros H. f_equal. by apply Hall.
Qed.

(** C10, as the code has it.  The rewrite of the image URL sits inside
    the retried operation and acts on the one URL object [new URL] made of
    the asset's image address.  The requests of the image resolution are,
    in order, what the object reads after 1, 2, ..., m rewrites, where m is
    the number of attempts made (at least one, at most five, and five when
    the resolution fails).  Where the address has no opaque path (any
    address with an authority, such as an http(s) or ipfs address), the
    k-th request is for the address with its scheme, credentials, port and
    fragment, the canonical host, no query, and as path the original one
    ("/" for none) with "/gae/" replaced once per attempt and k copies of
    "=d" behind it; no two attempts ask for the same address, so only the
    first asks for the address rewritten once.  Where the path is opaque
    (a data: address), the assignments to host and path do nothing: every
    attempt asks for the address itself without its query, and no "=d" is
    ever appended. *)
Theorem image_url_suffix_accumulates
    (h : Host) (collectionSlug : string) (a : CollectionAsset)
    (w : World) (url : nat) (w0 : World) :
  prepare h collectionSlug a w = (Ok url, w0) →
  ∃ u,
    Url.parse (image_address a) = Some u
    ∧ (∃ m,
         (1 ≤ m ≤ 5)%nat
         ∧ fetches (trace (snd (resolve_image h a url w0)))
           = fetches (trace w0)
             ++ map (λ k, GetImage (toString (attempt_url k u))) (seq 1 m)
         ∧ (is_ok (fst (resolve_image h a url w0)) = false → m = 5%nat))
    ∧ (opaque u = false →
       (∀ k, (1 ≤ k)%nat →
          toString (attempt_url k u)
          = protocol u +:+ "//" +:+ credentials u +:+ canonical_host
              +:+ (if String.eqb (port u) "" then "" else ":" +:+ port u)
              +:+ Nat.iter k (JS.replace "/gae/" "/") (base_path u)
              +:+ suffixes k +:+ hash u)
       ∧ (∀ j k, (1 ≤ j)%nat → (1 ≤ k)%nat → j ≠ k →
            toString (attempt_url j u) ≠ toString (attempt_url k u)))
    ∧ (opaque u = true →
       ∀ k, (1 ≤ k)%nat →
         toString (attempt_url k u) = protocol u +:+ pathname u +:+ hash u).
Proof.
  intros Hprep.
  destruct (prepare_allocates _ _ _ _ _ _ Hprep) as (u & Hparse & Hu).
  pose proof (parse_rooted _ _ Hparse) as Hroot.
  exists u. split; [exact Hparse |]. split; [| split].
  - destruct (retried_image_attempts h a url 5 250 w0 u Hu)
      as (m & Hm & Hm1 & Hreq & Hall).
    exists m. split; [lia |]. split; [exact Hreq | exact Hall].
  - intros Hop. split.
    + intros [| k] Hk; [lia |]. by apply attempt_address.
    + intros j k Hj Hk Hne. by apply attempts_differ.
  - intros Hop [| k] Hk; [lia |].
    rewrite (attempt_opaque k u Hop). unfold toString.
    cbn [set_search protocol hostname opaque pathname search hash String.eqb].
    rewrite (parse_opaque _ _ Hparse Hop), Hop. reflexivity.
Qed.

(** The theorem on the asset [bear], whose image server answers 500. *)
Lemma image_url_suffix_accumulates_witness :
  ∃ u,
    Url.parse (image_address Sample.bear) = Some u
    ∧ (∃ m,
         (1 ≤ m ≤ 5)%nat
         ∧ fetches (trace (snd (resolve_image Sample.broken_image Sample.bear 0
                                              Scenario.bear_prepared)))
           = fetches (trace Scenario.bear_prepared)
             ++ map (λ k, GetImage (toString (attempt_url k u))) (seq 1 m)
         ∧ (is_ok (fst (resolve_image Sample.broken_image Sample.bear 0
                                      Scenario.bear_prepared)) = false
            → m = 5%nat))
    ∧ (opaque u = false →
       (∀ k, (1 ≤ k)%nat →
          toString (attempt_url k u)
          = protocol u +:+ "//" +:+ credentials u +:+ canonical_host
              +:+ (if String.eqb (port u) "" then "" else ":" +:+ port u)
              +:+ Nat.iter k (JS.replace "/gae/" "/") (base_path u)
              +:+ suffixes k +:+ hash u)
       ∧ (∀ j k, (1 ≤ j)%nat → (1 ≤ k)%nat → j ≠ k →
            toString (attempt_url j u) ≠ toString (attempt_url k u)))
    ∧ (opaque u = true →
       ∀ k, (1 ≤ k)%nat →
         toString (attempt_url k u) = protocol u +:+ pathname u +:+ hash u).
Proof.
  apply (image_url_suffix_accumulates Sample.broken_image "hunnys" Sample.bear
           Sample.listed_world 0 Scenario.bear_prepared).
  vm_compute. reflexivity.
Defined.

(** The claim as it is written, at an asset whose image is a data:
    address (as assets with an image kept on chain have).  [new URL]
    accepts the address.  Where the fetch of such an address is rejected,
    all five attempts ask for the very same address; where it is answered,
    the one attempt asks for it.  The path of the object never gains a
    "=d", and the host is never the canonical one. *)
Lemma inline_image_gains_no_suffix :
  Url.parse (image_address Scenario.inline) = Some Scenario.inline_url
  ∧ prepare Scenario.offline "hunnys" Scenario.inline initial_world
    = (Ok 0%nat, Scenario.inline_prepared)
  ∧ fst (resolve_image Scenario.offline Scenario.inline 0 Scenario.inline_prepared)
    = Throw RetryExhausted
  ∧ fetches (trace (snd (resolve_image Scenario.offline Scenario.inline 0
                                       Scenario.inline_prepared)))
    = replicate 5 (GetImage "data:image/png;base64,iVBORw0KGgo=")
  ∧ is_ok (fst (resolve_image Sample.healthy Scenario.inline 0
                              Scenario.inline_prepared)) = true
  ∧ fetches (trace (snd (resolve_image Sample.healthy Scenario.inline 0
                                       Scenario.inline_prepared)))
    = [GetImage "data:image/png;base64,iVBORw0KGgo="]
  ∧ (∀ k, (1 ≤ k)%nat →
       pathname (attempt_url k Scenario.inline_url) = "image/png;base64,iVBORw0KGgo="
       ∧ hostname (attempt_url k Scenario.inline_url) = None)
  ∧ toString (attempt_url 2 Scenario.inline_url)
    = toString (attempt_url 1 Scenario.inline_url).
Proof.
  do 6 (split; [reflexivity |]). split; [| reflexivity].
  intros [| k] Hk; [lia |].
  by rewrite (attempt_opaque k Scenario.inline_url eq_refl).
Qed.

(** The five requests of a resolution that fails, on a concrete asset. *)
Example five_attempts_five_urls :
  fetches (trace (snd (resolve_image Sample.broken_image Sample.bear 0
                                     Sample.bear_world)))
  = [GetImage "https://lh3.googleusercontent.com/abc=d";
     GetImage "https://lh3.googleusercontent.com/abc=d=d";
     GetImage "https://lh3.googleusercontent.com/abc=d=d=d";
     GetImage "https://lh3.googleusercontent.com/abc=d=d=d=d";
     GetImage "https://lh3.googleusercontent.com/abc=d=d=d=d=d"].
Proof. reflexivity. Qed.

End ImageUrlClaims.

(** ** Enrichment and its commit *)

Module EnrichmentClaims.
Import OpenSea.

Lemma writes_app t1 t2 : writes (t1 ++ t2) = writes t1 ++ writes t2.
Proof.
  induction t1 as [| e t1 IH]; [done |].
  destruct e; simpl; rewrite ?IH; done.
Qed.

Lemma quiet_ret {A} (a : A) : quiet (mret a).
Proof. by intros w. Qed.

Lemma quiet_throw {A} e : quiet (@throw A e).
Proof. by intros w. Qed.

Lemma quiet_lift {A} (r : Res A) : quiet (lift r).
Proof. by intros w. Qed.

Lemma quiet_bind {A B} (m : M A) (f : A → M B) :
  quiet m → (∀ a, quiet (f a)) → quiet (m ≫= f).
Proof.
  intros Hm Hf w. specialize (Hm w). unfold mbind, M_bind.
  destruct (m w) as [[a | e |] w']; cbn [snd] in *; [| done..].
  destruct (Hf a w') as [H1 H2]. destruct Hm. split; congruence.
Qed.

Lemma quiet_emit e :
  (∀ p data done, e ≠ WriteFile p data done) → quiet (emit e).
Proof.
  intros He w. unfold emit, after. cbn [snd fs trace]. split; [done |].
  rewrite writes_app. destruct e; simpl; rewrite ?app_nil_r; try done.
  by destruct (He path data done).
Qed.

Lemma quiet_fetch h r : quiet (fetch h r).
Proof.
  intros w. unfold fetch. destruct (net h r _).
  - apply (quiet_bind (emit (Fetch r)) (λ _, mret r0));
      [by apply quiet_emit | intros; apply quiet_ret].
  - apply (quiet_bind (emit (Fetch r)) (λ _, throw FetchError));
      [by apply quiet_emit | intros; apply quiet_throw].
Qed.

Lemma quiet_retry {T} h (op : M T) : quiet op → ∀ n d, quiet (retryWithBackoff h op n d).
Proof.
  intros Hop. induction n as [| n IH]; intros d w; [done |].
  cbn [retryWithBackoff]. specialize (Hop w).
  destruct (op w) as [[v | e |] w']; cbn [snd] in *; [done | | done].
  destruct n as [| n]; [done |].
  set (k := emit (Log "Retrying");; emit (Backoff d);;
            retryWithBackoff h op (S n) (d * backoffFactor h)).
  assert (quiet k) as Hk.
  { apply quiet_bind; [by apply quiet_emit |]. intros _.
    apply quiet_bind; [by apply quiet_emit |]. intros _. apply IH. }
  destruct (Hk w') as [H1 H2]. destruct Hop. split; congruence.
Qed.

Lemma quiet_rate_limit resp : quiet (rate_limit resp).
Proof.
  unfold rate_limit. destruct (status resp =? 429); [| apply quiet_ret].
  apply quiet_bind; [| intros; apply quiet_throw].
  destruct (gt0 _); [| apply quiet_ret].
  apply quiet_bind; [by apply quiet_emit | intros; by apply quiet_emit].
Qed.

Lemma quiet_response_json resp : quiet (response_json resp).
Proof. unfold response_json. destruct (json resp); [apply quiet_ret | apply quiet_throw]. Qed.

Lemma quiet_request h req :
  quiet (response ← fetch h req; rate_limit response;; response_json response).
Proof.
  apply quiet_bind; [apply quiet_fetch |]. intros resp.
  apply quiet_bind; [apply quiet_rate_limit |]. intros _. apply quiet_response_json.
Qed.

Lemma quiet_pages h (fetcher : option string → M Page) :
  (∀ c, quiet (fetcher c)) →
  ∀ fuel c w,
    fs (pages_from h fetcher fuel c w).2 = fs w
    ∧ writes (trace (pages_from h fetcher fuel c w).2) = writes (trace w).
Proof.
  intros Hf. induction fuel as [| fuel IH]; intros c w; [done |].
  cbn [pages_from].
  pose proof (quiet_retry h (fetcher c) (Hf c) 5 250 w) as Hq.
  destruct (retryWithBackoff h (fetcher c) 5 250 w) as [[result | e |] w'];
    cbn [snd] in *; [| done..].
  destruct (negb (truthy_opt (next result))); [done |].
  specialize (IH (next result) w').
  destruct (pages_from h fetcher fuel (next result) w') as [[rest e] w''].
  cbn [snd] in *. destruct IH, Hq. split; congruence.
Qed.

Lemma quiet_for_await {A} h (fetcher : option string → M Page) fuel
    (body : A → Page → A) init :
  (∀ c, quiet (fetcher c)) →
  quiet (for_await (fetchWithPagination h fetcher fuel) body init).
Proof.
  intros Hf w. unfold for_await, fetchWithPagination.
  pose proof (quiet_pages h fetcher Hf fuel None w) as Hq.
  destruct (pages_from h fetcher fuel None w) as [[pages e] w'].
  cbn [snd] in *. by destruct e.
Qed.

Lemma quiet_image_attempt h a url : quiet (image_attempt h a url).
Proof.
  unfold image_attempt.
  do 3 (apply quiet_bind; [by intros w | intros _]).
  apply quiet_bind; [by intros w | intros href].
  apply quiet_bind; [apply quiet_fetch | intros resp].
  destruct (negb (ok resp)); [apply quiet_throw | apply quiet_ret].
Qed.

Lemma quiet_mkdir h path : quiet (mkdir h path).
Proof.
  intros w. unfold mkdir. destruct (mkdir_ok h path _); cbn [snd after fs trace].
  - split; [done |]. rewrite writes_app. cbn. by rewrite app_nil_r.
  - split; [done |]. rewrite writes_app. cbn. by rewrite app_nil_r.
Qed.

Lemma quiet_prepare h slug a : quiet (prepare h slug a).
Proof.
  unfold prepare. apply quiet_bind.
  - intros w. unfold new_URL. by destruct (Url.parse _).
  - intros url. apply quiet_bind; [apply quiet_mkdir | intros _].
    apply quiet_bind; [by apply quiet_emit | intros _]. apply quiet_ret.
Qed.

(** The enrichment of an asset touches no file. *)
Lemma quiet_enrich h slug key fuel a : quiet (enrich h slug key fuel a).
Proof.
  unfold enrich, resolve_image, resolve_events, resolve_owners.
  apply quiet_bind; [apply quiet_prepare | intros url].
  apply quiet_bind; [apply quiet_retry, quiet_image_attempt | intros resp].
  apply quiet_bind.
  { apply quiet_for_await. intros c. apply quiet_retry, quiet_request. }
  intros evs. apply quiet_bind.
  { apply quiet_for_await. intros c. apply quiet_request. }
  intros ows. apply quiet_ret.
Qed.


(** The callback of [tap]: the body of the image response is read first;
    when that fails nothing is written; otherwise the image write, and only
    after it succeeded the write of the record. *)
Lemma persist_outcomes h x w :
  ∃ w' : World,
    detached (persist h x) w = (Ok tt, w')
    ∧ match arrayBuffer (imageResponse x) with
      | None =>
          w' = after [Log ("Writing image for " +:+ asset_name (enriched_asset x));
                      UnhandledRejection BodyError] w
      | Some body =>
          ∃ image_written record_written : bool,
            writes (trace w')
            = writes (trace w)
              ++ (image_path h x, Binary body, image_written)
                 :: (if image_written
                     then [(json_path (enriched_asset x), Json (record_of h x),
                            record_written)]
                     else [])
            ∧ fs w'
              = (if image_written && record_written
                 then <[json_path (enriched_asset x) := Json (record_of h x)]>
                 else Datatypes.id)
                  ((if image_written
                    then <[image_path h x := Binary body]>
                    else Datatypes.id) (fs w))
      end.
Proof.
  unfold detached, persist, response_arrayBuffer, mbind, M_bind, emit.
  destruct (arrayBuffer (imageResponse x)) as [body |].
  - unfold mret, M_ret, writeFile, after. cbn [trace fs heap].
    destruct (disk h (image_path h x) _) eqn:Himg.
    + cbn [trace fs heap].
      destruct (disk h (json_path (enriched_asset x)) _) eqn:Hjson.
      * eexists. split; [reflexivity |]. exists true, true.
        cbn [trace fs andb]. rewrite !writes_app. cbn [writes app].
        rewrite ?app_nil_r, <- ?app_assoc. done.
      * eexists. split; [reflexivity |]. exists true, false.
        cbn [trace fs andb]. rewrite !writes_app. cbn [writes app].
        rewrite ?app_nil_r, <- ?app_assoc. done.
    + eexists. split; [reflexivity |]. exists false, false.
      cbn [trace fs andb]. rewrite !writes_app. cbn [writes app].
      rewrite ?app_nil_r, <- ?app_assoc. done.
  - unfold throw, after. cbn [trace fs heap]. eexists. split; [reflexivity |].
    by rewrite <- app_assoc.
Qed.

(** What the retry policy fulfils with is what an attempt fulfilled with. *)
Lemma retry_fulfilled {T} h (op : M T) (P : T → Prop) :
  (∀ w r w', op w = (Ok r, w') → P r) →
  ∀ n d w r w', retryWithBackoff h op n d w = (Ok r, w') → P r.
Proof.
  intros Hop. induction n as [| n IH]; intros d w r w'; cbn [retryWithBackoff].
  - done.
  - destruct (op w) as [[r1 | e |] w1] eqn:E.
    + intros [= <- <-]. by eapply Hop.
    + destruct n as [| n']; [done |].
      unfold mbind, M_bind, emit. apply IH.
    + done.
Qed.

(** An image resolution fulfils only with an answer whose status is in the
    200s. *)
Lemma resolve_image_ok h a url w resp w' :
  resolve_image h a url w = (Ok resp, w') → ok resp = true.
Proof.
  unfold resolve_image. apply (retry_fulfilled h _ (λ r, ok r = true)).
  clear. intros w r w'. unfold image_attempt, mbind, M_bind, update_URL, read_URL.
  destruct (fetch h _ _) as [[resp | e |] w1]; [| done..].
  destruct (ok resp) eqn:Hok; cbn [negb]; [| done].
  by intros [= <- <-].
Qed.

Lemma fold_left_app_concat {A B} (f : B → list A) (l : list B) (init : list A) :
  fold_left (λ acc x, acc ++ f x) l init = init ++ concat (map f l).
Proof.
  revert init. induction l as [| x l IH]; intros init; cbn.
  - by rewrite app_nil_r.
  - by rewrite IH, app_assoc.
Qed.

(** A fulfilled events resolution read its listing to the end and returns
    what the pages held, without the back references. *)
Lemma events_resolved h key fuel a w evs w' :
  resolve_events h key fuel a w = (Ok evs, w') →
  ∃ pages,
    fetchWithPagination h (events_fetcher h key a) fuel w = ((pages, Done), w')
    ∧ evs = map delete_asset
                (concat (map (λ p, default [] (page_asset_events p)) pages)).
Proof.
  unfold resolve_events, for_await.
  destruct (fetchWithPagination h (events_fetcher h key a) fuel w)
    as [[pages ending] w1].
  destruct ending; [| done..]. intros [= <- <-]. exists pages.
  split; [done |].
  rewrite (fold_left_app_concat
             (λ p, map delete_asset (default [] (page_asset_events p)))).
  cbn [app]. by rewrite concat_map, map_map.
Qed.

Lemma owners_resolved h key fuel a w ows w' :
  resolve_owners h key fuel a w = (Ok ows, w') →
  ∃ pages,
    fetchWithPagination h (owners_fetcher h key a) fuel w = ((pages, Done), w')
    ∧ ows = concat (map (λ p, default [] (page_owners p)) pages).
Proof.
  unfold resolve_owners, for_await.
  destruct (fetchWithPagination h (owners_fetcher h key a) fuel w)
    as [[pages ending] w1].
  destruct ending; [| done..]. intros [= <- <-]. exists pages.
  split; [done |].
  by rewrite (fold_left_app_concat (λ p, default [] (page_owners p))).
Qed.

(** A fulfilled enrichment went through all three sub-resolutions. *)
Lemma enrich_joined h slug key fuel a w x w1 :
  enrich h slug key fuel a w = (Ok x, w1) →
  enriched_asset x = a
  ∧ ∃ url w0 wi we,
      prepare h slug a w = (Ok url, w0)
      ∧ resolve_image h a url w0 = (Ok (imageResponse x), wi)
      ∧ resolve_events h key fuel a wi = (Ok (enriched_events x), we)
      ∧ resolve_owners h key fuel a we = (Ok (enriched_owners x), w1).
Proof.
  unfold enrich, mbind, M_bind. intros H.
  destruct (prepare h slug a w) as [[url | |] w0] eqn:E0; [| done..].
  destruct (resolve_image h a url w0) as [[resp | |] wi] eqn:E1; [| done..].
  destruct (resolve_events h key fuel a wi) as [[evs | |] we] eqn:E2; [| done..].
  destruct (resolve_owners h key fuel a we) as [[ows | |] wo] eqn:E3; [| done..].
  injection H as <- <-. cbn [enriched_asset imageResponse enriched_events enriched_owners].
  split; [done |]. exists url, w0, wi, we. done.
Qed.

(** What the fetchers of the two histories take for a page: any answer
    whose status is not 429 and whose body is JSON. *)
Lemma answered_page h (r : Request) w resp w' p :
  fetch h r w = (Ok resp, w') →
  status resp ≠ 429 →
  json resp = Some p →
  (response ← fetch h r; rate_limit response;; response_json response) w
  = (Ok p, w').
Proof.
  intros Hf Hst Hj. rewrite (bind_ok _ _ _ _ _ Hf).
  unfold rate_limit, response_json, mbind, M_bind, mret, M_ret.
  destruct (Z.eqb_spec (status resp) 429) as [E | _]; [done |].
  by rewrite Hj.
Qed.

(** C6, as the code has it.  The enrichment of an asset is rejected as soon
    as one of its three sub-resolutions (image, events, owners) is rejected;
    a rejected enrichment has written no file and attempted no write, and
    the subscription ends with its error.  What rejects the two histories
    is narrower than what rejects the image: the image resolution fulfils
    only with an answer whose status is in the 200s, while a page request
    for events or owners takes any answer whose status is not 429 and whose
    body is JSON for a page, whatever the status says; the entries such a
    page lacks count as none and, without a cursor, it ends the listing.
    A fulfilled enrichment went through all three, and its record holds the
    name, description and traits of the asset, the name of the image file,
    and the events (without their back reference) and owners of every page
    read, page after page.  Only then does the commit run, unawaited: the
    body of the image answer is read; if that fails nothing is written;
    otherwise the image file is written first, and if that write succeeded
    the record.  The record is in harvest storage exactly when both writes
    succeeded. *)
Theorem enrichment_commits_whole_records
    (h : Host) (collectionSlug apiKey : string) (fuel : nat)
    (a : CollectionAsset) (rest : list CollectionAsset) (w : World) :
  (∀ url w0, prepare h collectionSlug a w = (Ok url, w0) →
     (∀ e w1, resolve_image h a url w0 = (Throw e, w1) →
              enrich h collectionSlug apiKey fuel a w = (Throw e, w1))
     ∧ (∀ resp w1 e w2,
          resolve_image h a url w0 = (Ok resp, w1) →
          resolve_events h apiKey fuel a w1 = (Throw e, w2) →
          enrich h collectionSlug apiKey fuel a w = (Throw e, w2))
     ∧ (∀ resp w1 evs w2 e w3,
          resolve_image h a url w0 = (Ok resp, w1) →
          resolve_events h apiKey fuel a w1 = (Ok evs, w2) →
          resolve_owners h apiKey fuel a w2 = (Throw e, w3) →
          enrich h collectionSlug apiKey fuel a w = (Throw e, w3)))
  ∧ (∀ e w1, enrich h collectionSlug apiKey fuel a w = (Throw e, w1) →
       pipeline h collectionSlug apiKey fuel (a :: rest) w = (Throw e, w1)
       ∧ fs w1 = fs w
       ∧ writes (trace w1) = writes (trace w))
  ∧ (∀ next_ resp p w0 w1,
       status resp ≠ 429 →
       json resp = Some p →
       (fetch h (GetEvents apiKey (asset_contract_address a) (token_id a)
                           (cursor_param next_)) w0 = (Ok resp, w1) →
        events_fetcher h apiKey a next_ w0 = (Ok p, w1))
       ∧ (fetch h (GetOwners apiKey (asset_contract_address a) (token_id a)
                             (cursor_param next_)) w0 = (Ok resp, w1) →
          owners_fetcher h apiKey a next_ w0 = (Ok p, w1)))
  ∧ (∀ x w1, enrich h collectionSlug apiKey fuel a w = (Ok x, w1) →
       enriched_asset x = a
       ∧ (∃ url w0 wi we event_pages owner_pages,
            prepare h collectionSlug a w = (Ok url, w0)
            ∧ resolve_image h a url w0 = (Ok (imageResponse x), wi)
            ∧ ok (imageResponse x) = true
            ∧ fetchWithPagination h (events_fetcher h apiKey a) fuel wi
              = ((event_pages, Done), we)
            ∧ enriched_events x
              = map delete_asset
                    (concat (map (λ p, default [] (page_asset_events p)) event_pages))
            ∧ fetchWithPagination h (owners_fetcher h apiKey a) fuel we
              = ((owner_pages, Done), w1)
            ∧ enriched_owners x
              = concat (map (λ p, default [] (page_owners p)) owner_pages))
       ∧ record_of h x
         = {| name := asset_name a;
              description := asset_description a;
              image := "./" +:+ token_id a +:+ "."
                         +:+ default "false"
                               (mime_extension h
                                  (default "" (content_type (imageResponse x))));
              attributes := Some (traits a);
              owners := enriched_owners x;
              events := Some (enriched_events x);
              id := None;
              original_creation_date := None |}
       ∧ ∃ w2 : World,
           pipeline h collectionSlug apiKey fuel (a :: rest) w
           = pipeline h collectionSlug apiKey fuel rest w2
           ∧ match arrayBuffer (imageResponse x) with
             | None => writes (trace w2) = writes (trace w) ∧ fs w2 = fs w
             | Some body =>
                 ∃ image_written record_written : bool,
                   writes (trace w2)
                   = writes (trace w)
                     ++ (image_path h x, Binary body, image_written)
                        :: (if image_written
                            then [(json_path a, Json (record_of h x), record_written)]
                            else [])
                   ∧ fs w2
                     = (if image_written && record_written
                        then <[json_path a := Json (record_of h x)]>
                        else Datatypes.id)
                         ((if image_written
                           then <[image_path h x := Binary body]>
                           else Datatypes.id) (fs w))
             end).
Proof.
  split; [| split; [| split]].
  - intros url w0 Hprep. unfold enrich. split; [| split].
    + intros e w1 Himg.
      rewrite (bind_ok _ _ _ _ _ Hprep). by rewrite (bind_throw _ _ _ _ _ Himg).
    + intros resp w1 e w2 Himg Hev.
      rewrite (bind_ok _ _ _ _ _ Hprep), (bind_ok _ _ _ _ _ Himg).
      by rewrite (bind_throw _ _ _ _ _ Hev).
    + intros resp w1 evs w2 e w3 Himg Hev How.
      rewrite (bind_ok _ _ _ _ _ Hprep), (bind_ok _ _ _ _ _ Himg).
      rewrite (bind_ok _ _ _ _ _ Hev). by rewrite (bind_throw _ _ _ _ _ How).
  - intros e w1 Hen. split.
    + cbn [pipeline]. by rewrite (bind_throw _ _ _ _ _ Hen).
    + pose proof (quiet_enrich h collectionSlug apiKey fuel a w) as Hq.
      rewrite Hen in Hq. exact Hq.
  - intros next_ resp p w0 w1 Hst Hj. split.
    + intros Hf. unfold events_fetcher. cbn [retryWithBackoff].
      unfold events_attempt. by rewrite (answered_page _ _ _ resp _ _ Hf Hst Hj).
    + intros Hf. unfold owners_fetcher. by apply (answered_page _ _ _ resp).
  - intros x w1 Hen.
    destruct (enrich_joined _ _ _ _ _ _ _ _ Hen)
      as (Ha & url & w0 & wi & we & Hprep & Himg & Hev & How).
    split; [exact Ha |]. split; [| split].
    + destruct (events_resolved _ _ _ _ _ _ _ Hev) as (eps & Heps & Hevs).
      destruct (owners_resolved _ _ _ _ _ _ _ How) as (ops & Hops & Hows).
      exists url, w0, wi, we, eps, ops.
      pose proof (resolve_image_ok _ _ _ _ _ _ Himg) as Hok. done.
    + unfold record_of, image_file. by rewrite Ha.
    + destruct (persist_outcomes h x w1) as (w2 & Hper & Hout).
      pose proof (quiet_enrich h collectionSlug apiKey fuel a w) as Hq.
      rewrite Hen in Hq. cbn [snd] in Hq. destruct Hq as [Hq1 Hq2].
      exists w2. split.
      * cbn [pipeline]. rewrite (bind_ok _ _ _ _ _ Hen).
        by rewrite (bind_ok _ _ _ _ _ Hper).
      * destruct (arrayBuffer (imageResponse x)) as [body |].
        -- destruct Hout as (iw & rw & Hwr & Hfs). exists iw, rw.
           rewrite Hwr, Hfs, Hq1, Hq2, Ha. done.
        -- subst w2. cbn [after trace fs]. rewrite writes_app. cbn [writes].
           by rewrite app_nil_r, Hq1, Hq2.
Qed.

(** The claim as it is written, on a harvest of one asset.  The first page
    of the asset's events names a second one, and the request for that one
    is answered 500: the history of the asset could not be read.  The
    enrichment is fulfilled all the same, the harvest fulfils, and both
    files are written; the record holds the one event of the first page. *)
Lemma failed_history_request_leaves_partial_record :
  let run := downloadMetadata Scenario.outage "hunnys" "key" 3 initial_world in
  option_map (λ r, (status r, ok r))
             (net Scenario.outage (GetEvents "key" "0xc0ffee" "7" (Some "c2")) 0)
  = Some (500, false)
  ∧ count_fetch (GetEvents "key" "0xc0ffee" "7" (Some "c2")) (trace run.2) = 1%nat
  ∧ run.1 = Ok tt
  ∧ fs run.2 !! "./.metadata/hunnys/7.png" = Some (Binary "PNG")
  ∧ fs run.2 !! "./.metadata/hunnys/7.json"
    = Some (Json {| name := "Hunny #7"; description := "a bear";
                    image := "./7.png"; attributes := Some [];
                    owners := [Sample.owner_ "2021-03-01T00:00:00"];
                    events := Some [delete_asset Scenario.sale];
                    id := None; original_creation_date := None |}).
Proof. repeat split; vm_compute; reflexivity. Qed.

(** On a host whose image server always answers 500, the harvest of the
    one listed asset leaves harvest storage empty. *)
Example failed_enrichment_writes_nothing :
  let run := downloadMetadata Sample.broken_image "hunnys" "key" 3 initial_world in
  fs run.2 = ∅ ∧ writes (trace run.2) = [].
Proof. split; vm_compute; reflexivity. Qed.

(** On a healthy host both files of the asset are written. *)
Example healthy_enrichment_commits :
  let run := downloadMetadata Sample.healthy "hunnys" "key" 3 initial_world in
  run.1 = Ok tt
  ∧ map (λ e, (e.1.1, e.2)) (writes (trace run.2))
    = [("./.metadata/hunnys/7.png", true); ("./.metadata/hunnys/7.json", true)].
Proof. split; vm_compute; reflexivity. Qed.

End EnrichmentClaims.

(** ** The outcome of a harvest *)

Module HarvestClaims.
Import OpenSea.





End HarvestClaims.

(** ** Concurrency of the enrichment *)

Module ConcurrencyClaims.
Import MergeMap.

Lemma started_app {A} (obs1 obs2 : list (Obs A)) :
  started (obs1 ++ obs2) = (started obs1 + started obs2)%nat.
Proof. induction obs1 as [| [a | a] obs1 IH]; simpl; lia. Qed.

Lemma settled_app {A} (obs1 obs2 : list (Obs A)) :
  settled (obs1 ++ obs2) = (settled obs1 + settled obs2)%nat.
Proof. induction obs1 as [| [a | a] obs1 IH]; simpl; lia. Qed.

Section Runs.
Context {A : Type}.
Variable concurrent : nat.
Hypothesis concurrent_pos : (1 ≤ concurrent)%nat.

Implicit Types (s : State A) (obs : list (Obs A)).

Lemma bounded_nil n : (n ≤ concurrent)%nat → bounded concurrent n (@nil (Obs A)).
Proof.
  intros Hn pre post H. symmetry in H. apply app_eq_nil in H as [-> _].
  simpl. lia.
Qed.

Lemma bounded_cons_started n a obs :
  (n < concurrent)%nat → bounded concurrent (S n) obs → bounded concurrent n (Started a :: obs).
Proof.
  intros Hn Hb pre post H. destruct pre as [| o pre]; [simpl; lia |].
  injection H as Ho H; subst o. destruct (Hb pre post H). simpl. lia.
Qed.

Lemma bounded_cons_settled n a obs :
  (S n ≤ concurrent)%nat → bounded concurrent n obs → bounded concurrent (S n) (Settled a :: obs).
Proof.
  intros Hn Hb pre post H. destruct pre as [| o pre]; [simpl; lia |].
  injection H as Ho H; subst o. destruct (Hb pre post H). simpl. lia.
Qed.

Lemma length_delete_active (l : list A) k a :
  l !! k = Some a → length l = S (length (delete k l)).
Proof.
  intros H. rewrite length_delete; [| by eexists].
  apply lookup_lt_Some in H. lia.
Qed.

(** What one signal does to the number of running promises. *)
Lemma step_bounded s sig s' obs1 :
  (length (active s) ≤ concurrent)%nat →
  step concurrent s sig = Some (s', obs1) →
  (length (active s') ≤ concurrent)%nat
  ∧ ∀ obs2, bounded concurrent (length (active s')) obs2 →
            bounded concurrent (length (active s)) (obs1 ++ obs2).
Proof.
  intros Hlen Hstep. destruct sig as [a | k | k]; cbn [step] in Hstep.
  - destruct (errored s).
    { injection Hstep as Hs Ho; subst s' obs1. done. }
    destruct (length (active s) <? concurrent)%nat eqn:Hfree;
      injection Hstep as Hs Ho; subst s' obs1; cbn [active].
    + apply Nat.ltb_lt in Hfree. rewrite length_app. cbn [length]. split; [lia |].
      intros obs2 Hb. apply bounded_cons_started; [lia |].
      by replace (S (length (active s))) with (length (active s) + 1)%nat by lia.
    + done.
  - destruct (active s !! k) as [a |] eqn:Hk; [| done].
    pose proof (length_delete_active _ _ _ Hk) as Hdel.
    destruct (buffer s) as [| b waiting].
    + injection Hstep as Hs Ho; subst s' obs1; cbn [active]. split; [lia |].
      intros obs2 Hb. rewrite Hdel. apply bounded_cons_settled; [lia | done].
    + destruct (length (delete k (active s)) <? concurrent)%nat eqn:Hfree;
        injection Hstep as Hs Ho; subst s' obs1; cbn [active].
      * apply Nat.ltb_lt in Hfree. rewrite length_app. cbn [length]. split; [lia |].
        intros obs2 Hb. rewrite Hdel. cbn [app].
        apply bounded_cons_settled; [lia |].
        apply bounded_cons_started; [lia |].
        by replace (S (length (delete k (active s))))
          with (length (delete k (active s)) + 1)%nat by lia.
      * split; [lia |].
        intros obs2 Hb. rewrite Hdel. apply bounded_cons_settled; [lia | done].
  - destruct (active s !! k) as [a |] eqn:Hk; [| done].
    pose proof (length_delete_active _ _ _ Hk) as Hdel.
    injection Hstep as Hs Ho; subst s' obs1; cbn [active]. split; [lia |].
    intros obs2 Hb. rewrite Hdel. apply bounded_cons_settled; [lia | done].
Qed.

Lemma run_bounded sigs : ∀ s s' obs,
  (length (active s) ≤ concurrent)%nat →
  run concurrent s sigs = Some (s', obs) →
  (length (active s') ≤ concurrent)%nat ∧ bounded concurrent (length (active s)) obs.
Proof.
  induction sigs as [| sig sigs IH]; intros s s' obs Hlen Hrun; cbn [run] in Hrun.
  - injection Hrun as Hs Ho; subst s' obs. split; [done | by apply bounded_nil].
  - destruct (step concurrent s sig) as [[s1 obs1] |] eqn:Hstep; [| done].
    destruct (run concurrent s1 sigs) as [[s2 obs2] |] eqn:Hrest; [| done].
    injection Hrun as Hs Ho; subst s' obs.
    destruct (step_bounded _ _ _ _ Hlen Hstep) as [Hlen1 Hglue].
    destruct (IH _ _ _ Hlen1 Hrest) as [Hlen2 Hb].
    split; [done | by apply Hglue].
Qed.

End Runs.

(** C9.  The subscription of [downloadMetadata] gives [mergeMap] a
    concurrency of one.  In every run of the operator from its idle state,
    whatever the order in which assets arrive and enrichments settle: at most
    one enrichment is running in the end and after every prefix of what the
    operator did, and whenever an enrichment is started all those started
    before it have settled. *)
Theorem one_enrichment_in_flight
    (sigs : list (Signal CollectionAsset)) (s : State CollectionAsset)
    (obs : list (Obs CollectionAsset)) :
  run enrichment_concurrency idle sigs = Some (s, obs) →
  (length (active s) ≤ 1)%nat
  ∧ (∀ pre post, obs = pre ++ post → (started pre ≤ settled pre + 1)%nat)
  ∧ (∀ pre a post, obs = pre ++ Started a :: post → started pre = settled pre).
Proof.
  intros Hrun.
  assert (1 ≤ enrichment_concurrency)%nat as Hpos by (unfold enrichment_concurrency; lia).
  destruct (run_bounded enrichment_concurrency Hpos sigs idle s obs) as [Hlen Hb];
    [simpl; lia | done |].
  split; [exact Hlen |]. split.
  - intros pre post H. destruct (Hb pre post H) as [_ H2].
    unfold enrichment_concurrency in H2. simpl in H2. lia.
  - intros pre a post H.
    destruct (Hb pre (Started a :: post) H) as [H1 _].
    destruct (Hb (pre ++ [Started a]) post) as [_ H2].
    { by rewrite <- app_assoc. }
    rewrite started_app, settled_app in H2.
    unfold enrichment_concurrency in H2. simpl in *. lia.
Qed.

(** The theorem on three assets that arrive before the first enrichment
    settles. *)
Lemma one_enrichment_in_flight_witness :
  (length (active (Sample.after_three_assets).1) ≤ 1)%nat
  ∧ (∀ pre post, (Sample.after_three_assets).2 = pre ++ post →
                 (started pre ≤ settled pre + 1)%nat)
  ∧ (∀ pre a post, (Sample.after_three_assets).2 = pre ++ Started a :: post →
                   started pre = settled pre).
Proof.
  apply (one_enrichment_in_flight Sample.three_assets).
  vm_compute. reflexivity.
Defined.

(** Three assets arrive at once; they are enriched one after the other, in
    the order they arrived. *)
Example three_assets_in_turn :
  run enrichment_concurrency idle Sample.three_assets
  = Some (idle,
          [Started Sample.bear; Settled Sample.bear;
           Started Sample.cub; Settled Sample.cub;
           Started Sample.elder; Settled Sample.elder]).
Proof. reflexivity. Qed.

End ConcurrencyClaims.

(** ** Sorting *)

Module SortFacts.

Lemma filter_none {A} (P : A → Prop) `{∀ x, Decision (P x)} (l : list A) :
  Forall (λ z, ¬ P z) l → filter P l = [].
Proof.
  induction 1 as [| z l Hz _ IH]; [done |].
  by rewrite filter_cons_False.
Qed.

Section Stable.
Context {A K : Type} `{EqDecision K}.
Variables (key : A → K) (ltK : K → K → bool) (compareFn : A → A → Res Z).
Hypothesis lt_asym : ∀ x y, ltK x y = true → ltK y x = false.
Hypothesis le_trans :
  ∀ x y z, ltK y x = false → ltK z y = false → ltK z x = false.
Hypothesis compare_key :
  ∀ a b d, compareFn a b = Ok d → (d <? 0) = ltK (key a) (key b).

Lemma insert_inv x y rest l' :
  insert compareFn x (y :: rest) = Ok l' →
  (ltK (key x) (key y) = true ∧ l' = x :: y :: rest)
  ∨ (ltK (key x) (key y) = false
     ∧ ∃ rest', insert compareFn x rest = Ok rest' ∧ l' = y :: rest').
Proof.
  cbn [insert]. unfold mbind, Res_bind.
  destruct (compareFn x y) as [d | |] eqn:Hc; [| done..].
  rewrite (compare_key _ _ _ Hc).
  destruct (ltK (key x) (key y)).
  - intros [= <-]. by left.
  - destruct (insert compareFn x rest) as [rest' | |]; [| done..].
    intros [= <-]. right. split; [done |]. by exists rest'.
Qed.

Lemma insert_perm x : ∀ l l',
  insert compareFn x l = Ok l' → Permutation (x :: l) l'.
Proof.
  induction l as [| y rest IH]; intros l' H.
  - injection H as <-. done.
  - destruct (insert_inv _ _ _ _ H) as [[_ ->] | [_ (rest' & Hr & ->)]]; [done |].
    rewrite <- (IH _ Hr). apply perm_swap.
Qed.

Lemma insert_sorted x : ∀ l l',
  StronglySorted (precedes key ltK) l → insert compareFn x l = Ok l' → StronglySorted (precedes key ltK) l'.
Proof.
  induction l as [| y rest IH]; intros l' Hs H.
  - injection H as <-. repeat constructor.
  - apply StronglySorted_inv in Hs as [Hrest Hy].
    destruct (insert_inv _ _ _ _ H) as [[Hlt ->] | [Hge (rest' & Hr & ->)]].
    + constructor; [by constructor |].
      assert (precedes key ltK x y) as Hxy by by apply lt_asym.
      constructor; [done |].
      eapply Forall_impl; [exact Hy |]. intros z Hz.
      unfold precedes in *. by eapply le_trans.
    + constructor; [by eapply IH |].
      rewrite <- (insert_perm _ _ _ Hr). by constructor.
Qed.

Lemma insert_stable x k : ∀ l l',
  StronglySorted (precedes key ltK) l → insert compareFn x l = Ok l' →
  filter (λ a, key a = k) l'
  = filter (λ a, key a = k) l ++ filter (λ a, key a = k) [x].
Proof.
  induction l as [| y rest IH]; intros l' Hs H.
  - injection H as <-. done.
  - apply StronglySorted_inv in Hs as [Hrest Hy].
    destruct (insert_inv _ _ _ _ H) as [[Hlt ->] | [Hge (rest' & Hr & ->)]].
    + rewrite (filter_cons _ x), (filter_cons _ x []), filter_nil.
      destruct (decide (key x = k)) as [Hk | Hk]; [| by rewrite app_nil_r].
      assert (filter (λ a, key a = k) (y :: rest) = []) as ->; [| done].
      apply filter_none.
      apply Forall_forall. intros z Hz Hzk.
      assert (ltK (key x) (key z) = true) as Hxz.
      { apply elem_of_cons in Hz as [-> | Hz]; [done |].
        rewrite Forall_forall in Hy. specialize (Hy z Hz).
        unfold precedes in Hy.
        destruct (ltK (key x) (key z)) eqn:E; [done |].
        rewrite (le_trans _ _ _ Hy E) in Hlt. done. }
      rewrite Hzk, <- Hk in Hxz.
      pose proof (lt_asym _ _ Hxz). congruence.
    + rewrite !(filter_cons _ y), (IH _ Hrest Hr).
      by destruct (decide (key y = k)).
Qed.

Lemma sort_snoc l x :
  sort compareFn (l ++ [x]) = sort compareFn l ≫= insert compareFn x.
Proof. unfold sort. by rewrite fold_left_app. Qed.

(** The result of a sort that did not throw: the same elements, in
    ascending order of their keys, equal keys in their former order. *)
Lemma sort_spec : ∀ l s,
  sort compareFn l = Ok s →
  Permutation l s
  ∧ StronglySorted (precedes key ltK) s
  ∧ ∀ k, filter (λ a, key a = k) s = filter (λ a, key a = k) l.
Proof.
  induction l as [| x l IH] using rev_ind; intros s H.
  - injection H as <-. repeat split; constructor.
  - rewrite sort_snoc in H. unfold mbind, Res_bind in H.
    destruct (sort compareFn l) as [s0 | |] eqn:Hs0; [| done..].
    destruct (IH s0 eq_refl) as (Hperm & Hsorted & Hstable).
    split; [| split].
    + rewrite <- (insert_perm _ _ _ H), <- Hperm.
      symmetry. apply Permutation_cons_append.
    + by eapply insert_sorted.
    + intros k. rewrite (insert_stable _ k _ _ Hsorted H), Hstable.
      by rewrite filter_app.
Qed.

End Stable.

(** The comparator of the split layout compares file numbers. *)
Lemma split_compare_key a b d :
  Split.compareFn a b = Ok d → (d <? 0) = (file_number a <? file_number b).
Proof.
  unfold Split.compareFn, file_number, mbind, Res_bind, toNumber.
  destruct (BigNumber_from (basename a ".json")) as [x | |]; [| done..].
  destruct (BigNumber_from (basename b ".json")) as [y | |]; [| done..].
  destruct (_ && _); [| done]. intros [= <-].
  destruct (x - y <? 0) eqn:E1, (x <? y) eqn:E2; lia.
Qed.

Lemma split_sort_spec files sorted :
  sort Split.compareFn files = Ok sorted →
  Permutation files sorted
  ∧ StronglySorted (precedes file_number Z.ltb) sorted
  ∧ ∀ k, filter (λ a, file_number a = k) sorted
         = filter (λ a, file_number a = k) files.
Proof.
  apply (sort_spec file_number Z.ltb Split.compareFn).
  - intros x y. lia.
  - intros x y z. lia.
  - apply split_compare_key.
Qed.

Lemma ltb_leb x y : String.ltb y x = false ↔ String.leb x y = true.
Proof.
  unfold String.ltb, String.leb. rewrite (String.compare_antisym x y).
  by destruct (String.compare y x).
Qed.

Lemma string_lt_asym x y : String.ltb x y = true → String.ltb y x = false.
Proof.
  unfold String.ltb. rewrite (String.compare_antisym y x).
  by destruct (String.compare x y).
Qed.

Lemma string_le_trans x y z :
  String.ltb y x = false → String.ltb z y = false → String.ltb z x = false.
Proof.
  rewrite !ltb_leb. intros Hxy Hyz.
  assert (String.le x z) as H.
  { transitivity y; unfold String.le; [by rewrite Hxy | by rewrite Hyz]. }
  unfold String.le in H. by destruct (String.leb x z).
Qed.

(** The comparator of the flat layout compares oldest owner dates. *)
Lemma flat_compare_key a b d :
  Flat.compareFn a b = Ok d →
  (d <? 0) = String.ltb (oldest_owner_date a) (oldest_owner_date b).
Proof.
  unfold Flat.compareFn, oldest_owner_date, mbind, Res_bind.
  destruct (reduce Flat.oldestOwnerReducer (owners a)) as [x | |]; [| done..].
  destruct (reduce Flat.oldestOwnerReducer (owners b)) as [y | |]; [| done..].
  intros [= <-]. by destruct (String.ltb _ _).
Qed.

Lemma flat_sort_spec records sorted :
  sort Flat.compareFn records = Ok sorted →
  Permutation records sorted
  ∧ StronglySorted (precedes oldest_owner_date String.ltb) sorted
  ∧ ∀ k, filter (λ a, oldest_owner_date a = k) sorted
         = filter (λ a, oldest_owner_date a = k) records.
Proof.
  apply (sort_spec oldest_owner_date String.ltb Flat.compareFn).
  - apply string_lt_asym.
  - apply string_le_trans.
  - apply flat_compare_key.
Qed.

End SortFacts.

(** ** Normalization: what is written, in which order *)

Module NormalizationFacts.
Import EnrichmentClaims.

Lemma records_written_app t1 t2 :
  records_written (t1 ++ t2) = records_written t1 ++ records_written t2.
Proof.
  induction t1 as [| e t1 IH]; [done |].
  destruct e as [| | | | | | | p [b | m] [|] | |]; simpl; rewrite ?IH; done.
Qed.

Lemma read_all_spec dir : ∀ files w records w',
  read_all dir files w = (Ok records, w') →
  w' = w
  ∧ Forall2 (λ file m, fs w !! (dir +:+ "/" +:+ file) = Some (Json m)) files records.
Proof.
  induction files as [| file files IH]; intros w records w' H.
  - injection H as <- <-. done.
  - cbn [read_all] in H. unfold mbind at 1, M_bind, readJson in H.
    destruct (fs w !! (dir +:+ "/" +:+ file)) as [[b | m] |] eqn:Hf; [done | | done].
    unfold mbind, M_bind in H.
    destruct (read_all dir files w) as [[others | |] w1] eqn:Hrest; [| done..].
    injection H as <- <-.
    destruct (IH _ _ _ Hrest) as [-> Hall]. split; [done |].
    by constructor.
Qed.

Lemma records_written_writes t :
  records_written t
  = omap (λ x, match x with
               | (p, Json m, true) => Some (p, m)
               | _ => None
               end) (writes t).
Proof.
  induction t as [| e t IH]; [done |].
  destruct e as [| | | | | | | p [b | m] [|] | |]; simpl; rewrite ?IH; done.
Qed.

(** A computation that writes no file writes no record. *)
Lemma quiet_unrecorded {A} (m : M A) w :
  quiet m → records_written (trace (m w).2) = records_written (trace w).
Proof.
  intros Hq. destruct (Hq w) as [_ Hw].
  by rewrite !records_written_writes, Hw.
Qed.

Lemma retry_fetch_unrecorded h url n d w :
  records_written (trace (retryWithBackoff h (fetch h (GetImage url)) n d w).2)
  = records_written (trace w).
Proof. apply quiet_unrecorded, quiet_retry, quiet_fetch. Qed.

Lemma emit_log_unrecorded line w :
  records_written (trace (after [Log line] w)) = records_written (trace w).
Proof. cbn [after trace]. rewrite records_written_app. simpl. by rewrite app_nil_r. Qed.

Lemma write_binary h path bytes w r w' :
  writeFile h path (Binary bytes) w = (r, w') →
  records_written (trace w') = records_written (trace w).
Proof.
  unfold writeFile. destruct (disk h path _); intros [= <- <-];
    cbn [after trace]; rewrite records_written_app; simpl; by rewrite app_nil_r.
Qed.

Lemma write_record h path m w w' :
  writeFile h path (Json m) w = (Ok tt, w') →
  records_written (trace w') = records_written (trace w) ++ [(path, m)].
Proof.
  unfold writeFile. destruct (disk h path _); intros [= <-].
  cbn [trace]. by rewrite records_written_app.
Qed.

Lemma copy_unrecorded h src dst w r w' :
  copyFile h src dst w = (r, w') →
  records_written (trace w') = records_written (trace w).
Proof.
  unfold copyFile. destruct (fs w !! src); [destruct (disk h dst _) |];
    intros [= <- <-]; cbn [after trace]; rewrite records_written_app; simpl;
    by rewrite app_nil_r.
Qed.

(** *** The generator of placeholders *)

Lemma next_in_page h term fuel offset gifs total :
  Giphy.next h term (S fuel) (Giphy.InPage offset gifs total)
  = match gifs with
    | url :: rest =>
        if Giphy.is_gif url then mret (Some url, Giphy.InPage offset rest total)
        else Giphy.next h term (S fuel) (Giphy.InPage offset rest total)
    | [] =>
        if total <=? offset + Giphy.LIMIT then mret (None, Giphy.Finished)
        else
          page ← Giphy.search h term (offset + Giphy.LIMIT);
          Giphy.next h term fuel
                     (Giphy.InPage (offset + Giphy.LIMIT) (fst page) (snd page))
    end.
Proof. by destruct gifs. Qed.

Lemma next_fresh h term fuel :
  Giphy.next h term (S fuel) Giphy.Fresh
  = (page ← Giphy.search h term 0;
     Giphy.next h term (S fuel) (Giphy.InPage 0 (fst page) (snd page))).
Proof. reflexivity. Qed.

Lemma quiet_search h term offset : quiet (Giphy.search h term offset).
Proof.
  intros w. unfold Giphy.search.
  destruct (giphy_search h term offset); cbn [snd after fs trace];
    (split; [done |]); rewrite writes_app; cbn; by rewrite app_nil_r.
Qed.

(** Drawing a placeholder touches no file. *)
Lemma quiet_next h term : ∀ fuel g, quiet (Giphy.next h term fuel g).
Proof.
  induction fuel as [| fuel IH]; intros g; [by intros w |].
  assert (∀ gifs offset total,
            quiet (Giphy.next h term (S fuel) (Giphy.InPage offset gifs total)))
    as Hpage.
  { induction gifs as [| u rest IHg]; intros offset total; rewrite next_in_page.
    - destruct (total <=? offset + Giphy.LIMIT); [apply quiet_ret |].
      apply quiet_bind; [apply quiet_search | intros page; apply IH].
    - destruct (Giphy.is_gif u); [apply quiet_ret | apply IHg]. }
  destruct g as [| offset gifs total |].
  - rewrite next_fresh. apply quiet_bind; [apply quiet_search | intros; apply Hpage].
  - apply Hpage.
  - apply quiet_ret.
Qed.

(** The download of a placeholder: the draw, the fetch and the write of the
    GIF, as both passes have it up to the path written. *)
Lemma draw_unrecorded h o fuel g path w (r : Giphy.Gen) w' :
  (drawn ← Giphy.next h (searchTerm_of o) fuel g;
   match drawn.1 with
   | None => throw (Err_ "Ran out of GIFs")
   | Some url =>
       emit (Log ("Downloading " +:+ url));;
       gifImageResponse ← retryWithBackoff h (fetch h (GetImage url)) 5 250;
       gifImageBuffer ← response_arrayBuffer gifImageResponse;
       writeFile h path (Binary gifImageBuffer);;
       mret drawn.2
   end) w = (Ok r, w') →
  records_written (trace w') = records_written (trace w).
Proof.
  unfold mbind at 1, M_bind.
  pose proof (quiet_unrecorded (Giphy.next h (searchTerm_of o) fuel g) w
                (quiet_next h _ fuel g)) as Hdraw.
  destruct (Giphy.next h (searchTerm_of o) fuel g w) as [[[[url |] g'] | |] w0];
    [| done..].
  cbn [fst snd] in *. unfold mbind at 1, M_bind, emit.
  pose proof (retry_fetch_unrecorded h url 5 250
                (after [Log ("Downloading " +:+ url)] w0)) as Hfetch.
  unfold mbind at 1, M_bind.
  destruct (retryWithBackoff h (fetch h (GetImage url)) 5 250 _)
    as [[resp | |] w1]; [| done..].
  cbn [snd] in Hfetch. rewrite emit_log_unrecorded in Hfetch.
  unfold response_arrayBuffer, mbind, M_bind.
  destruct (arrayBuffer resp) as [body |]; [| done].
  unfold mret at 1, M_ret at 1.
  destruct (writeFile h path (Binary body) w1) as [[[] | |] w2] eqn:Hw;
    [| done..].
  intros [= <- <-]. rewrite (write_binary _ _ _ _ _ _ Hw). congruence.
Qed.

Lemma split_substitute_spec h o fuel i metadata g w r w' :
  Split.substitute h o fuel i metadata g w = (Ok r, w') →
  records_written (trace w') = records_written (trace w)
  ∧ same_but_image r.1 metadata.
Proof.
  unfold Split.substitute. unfold mbind at 1, M_bind, stat.
  destruct (bool_decide _); cbn [negb].
  - intros [= <- <-]. done.
  - unfold mbind at 1, M_bind.
    pose proof (quiet_unrecorded (Giphy.next h (searchTerm_of o) fuel g) w
                  (quiet_next h _ fuel g)) as Hdraw.
    destruct (Giphy.next h (searchTerm_of o) fuel g w) as [[[[url |] g'] | |] w0];
      [| done..].
    cbn [fst snd] in *. unfold mbind at 1, M_bind, emit.
    pose proof (retry_fetch_unrecorded h url 5 250
                  (after [Log ("Downloading " +:+ url)] w0)) as Hfetch.
    unfold mbind at 1, M_bind.
    destruct (retryWithBackoff h (fetch h (GetImage url)) 5 250 _)
      as [[resp | |] w1]; [| done..].
    cbn [snd] in Hfetch. rewrite emit_log_unrecorded in Hfetch.
    unfold response_arrayBuffer, mbind, M_bind.
    destruct (arrayBuffer resp) as [body |]; [| done].
    unfold mret at 1, M_ret at 1.
    destruct (writeFile h _ (Binary body) w1) as [[[] | |] w2] eqn:Hw;
      [| done..].
    intros [= <- <-]. rewrite (write_binary _ _ _ _ _ _ Hw). split; [congruence | done].
Qed.

Lemma split_copy_spec h o i metadata w m w' :
  Split.copy_original h o i metadata w = (Ok m, w') →
  records_written (trace w') = records_written (trace w)
  ∧ same_but_image m metadata.
Proof.
  unfold Split.copy_original, mbind, M_bind.
  destruct (copyFile h _ _ w) as [[[] | |] w1] eqn:Hc; [| done..].
  intros [= <- <-]. by rewrite (copy_unrecorded _ _ _ _ _ _ Hc).
Qed.

Lemma flat_substitute_spec h o fuel i metadata g w r w' :
  Flat.substitute h o fuel i metadata g w = (Ok r, w') →
  records_written (trace w') = records_written (trace w)
  ∧ r.1 = set_image (number i +:+ ".gif") metadata.
Proof.
  unfold Flat.substitute. unfold mbind at 1, M_bind, stat.
  unfold mbind at 1, M_bind.
  destruct (bool_decide _); cbn [negb].
  - intros [= <- <-]. done.
  - match goal with
    | |- context [match ?m w with _ => _ end] =>
        destruct (m w) as [[g' | |] w1] eqn:Hd; [| done..]
    end.
    intros [= <- <-]. by rewrite (draw_unrecorded _ _ _ _ _ _ _ _ Hd).
Qed.

Lemma flat_copy_spec h o i metadata w m w' :
  Flat.copy_original h o i metadata w = (Ok m, w') →
  records_written (trace w') = records_written (trace w)
  ∧ m = set_image (number i +:+ extname (image metadata)) metadata.
Proof.
  unfold Flat.copy_original, mbind, M_bind.
  destruct (copyFile h _ _ w) as [[[] | |] w1] eqn:Hc; [| done..].
  intros [= <- <-]. by rewrite (copy_unrecorded _ _ _ _ _ _ Hc).
Qed.

Lemma same_but_image_fields a b :
  same_but_image a b →
  name a = name b ∧ events a = events b ∧ owners a = owners b
  ∧ attributes a = attributes b ∧ description a = description b.
Proof.
  unfold same_but_image. intros H.
  repeat split;
    [apply (f_equal name) in H | apply (f_equal events) in H
     | apply (f_equal owners) in H | apply (f_equal attributes) in H
     | apply (f_equal description) in H]; exact H.
Qed.

Lemma derive_fields h o j m oldest f :
  Split.derive h o j m oldest = Ok f →
  id f = Some (number j) ∧ name f = name m ∧ events f = events m
  ∧ owners f = owners m ∧ image f = image m.
Proof.
  unfold Split.derive, mbind, Res_bind.
  destruct (Split.iso_of h _) as [iso | |]; [| done..].
  intros [= <-]. done.
Qed.

(** The records the numbering loop of the split layout writes, from index
    [i]: one per record, in the order of the list, at the path and with the
    id of its position. *)
Lemma split_loop_records h o fuel total : ∀ records i g w w',
  Split.loop h o fuel total i records g w = (Ok tt, w') →
  ∃ finals,
    records_written (trace w') = records_written (trace w) ++ finals
    ∧ map fst finals
      = map (λ j, outDir o +:+ "/metadata/" +:+ number j +:+ ".json")
            (seq i (length records))
    ∧ map (λ f, id f.2) finals = map (λ j, Some (number j)) (seq i (length records))
    ∧ map (λ f, name f.2) finals = map name records
    ∧ map (λ f, events f.2) finals = map events records
    ∧ map (λ f, owners f.2) finals = map owners records.
Proof.
  induction records as [| metadata rest IH]; intros i g w w' H.
  - injection H as <-. exists []. by rewrite app_nil_r.
  - cbn [Split.loop] in H.
    unfold mbind at 1, M_bind, emit in H.
    unfold mbind at 1, M_bind, lift in H.
    destruct (reduce_opt Split.oldestOwnerReducer (events metadata))
      as [oldest | |]; [| done..].
    unfold mbind at 1, M_bind in H.
    match type of H with
    | context [match ?m ?w0 with _ => _ end] =>
        destruct (m w0) as [[step | |] w1] eqn:Hstep; [| done..]
    end.
    assert (records_written (trace w1) = records_written (trace w)
            ∧ same_but_image step.1 metadata) as [Hw1 Hsame].
    { destruct g as [g |].
      - unfold mbind, M_bind in Hstep.
        destruct (Split.substitute h o fuel i metadata g _) as [[r | |] w2] eqn:Hs;
          [| done..].
        injection Hstep as <- <-.
        destruct (split_substitute_spec _ _ _ _ _ _ _ _ _ Hs) as [Hr ?].
        by rewrite Hr, emit_log_unrecorded.
      - unfold mbind, M_bind in Hstep.
        destruct (Split.copy_original h o i metadata _) as [[m | |] w2] eqn:Hs;
          [| done..].
        injection Hstep as <- <-.
        destruct (split_copy_spec _ _ _ _ _ _ _ Hs) as [Hr ?].
        by rewrite Hr, emit_log_unrecorded. }
    unfold mbind at 1, M_bind, lift in H.
    destruct (Split.derive h o i step.1 oldest) as [final | |] eqn:Hd; [| done..].
    unfold mbind at 1, M_bind in H.
    destruct (writeFile h _ (Json final) w1) as [[[] | |] w2] eqn:Hwr; [| done..].
    destruct (IH _ _ _ _ H) as (finals & Hrec & Hpaths & Hids & Hnames & Hevs & Hows).
    destruct (derive_fields _ _ _ _ _ _ Hd) as (Hid & Hname & Hev & How & _).
    destruct (same_but_image_fields _ _ Hsame) as (Hn & He & Ho & _).
    eexists (_ :: finals). split; [| split; [| split; [| split; [| split]]]].
    + rewrite Hrec, (write_record _ _ _ _ _ Hwr), Hw1, <- app_assoc. done.
    + cbn [map fst length seq]. by rewrite Hpaths.
    + cbn [map snd length seq]. by rewrite Hids, Hid.
    + cbn [map snd]. by rewrite Hnames, Hname, Hn.
    + cbn [map snd]. by rewrite Hevs, Hev, He.
    + cbn [map snd]. by rewrite Hows, How, Ho.
Qed.

(** The same for the flat layout: the record written is the record read,
    but for its image. *)
Lemma flat_loop_records h o fuel total : ∀ records i g w w',
  Flat.loop h o fuel total i records g w = (Ok tt, w') →
  ∃ finals,
    records_written (trace w') = records_written (trace w) ++ finals
    ∧ map fst finals
      = map (λ j, outDir o +:+ "/" +:+ number j +:+ ".json")
            (seq i (length records))
    ∧ Forall2 (λ f m, same_but_image f.2 m) finals records.
Proof.
  induction records as [| metadata rest IH]; intros i g w w' H.
  - injection H as <-. exists []. by rewrite app_nil_r.
  - cbn [Flat.loop] in H.
    unfold mbind at 1, M_bind, emit in H.
    unfold mbind at 1, M_bind in H.
    match type of H with
    | context [match ?m ?w0 with _ => _ end] =>
        destruct (m w0) as [[step | |] w1] eqn:Hstep; [| done..]
    end.
    assert (records_written (trace w1) = records_written (trace w)
            ∧ same_but_image step.1 metadata) as [Hw1 Hsame].
    { destruct g as [g |].
      - unfold mbind, M_bind in Hstep.
        destruct (Flat.substitute h o fuel i metadata g _) as [[r | |] w2] eqn:Hs;
          [| done..].
        injection Hstep as <- <-.
        destruct (flat_substitute_spec _ _ _ _ _ _ _ _ _ Hs) as [Hr ->].
        by rewrite Hr, emit_log_unrecorded.
      - unfold mbind, M_bind in Hstep.
        destruct (Flat.copy_original h o i metadata _) as [[m | |] w2] eqn:Hs;
          [| done..].
        injection Hstep as <- <-.
        destruct (flat_copy_spec _ _ _ _ _ _ _ Hs) as [Hr ->].
        by rewrite Hr, emit_log_unrecorded. }
    unfold mbind at 1, M_bind in H.
    destruct (writeFile h _ (Json step.1) w1) as [[[] | |] w2] eqn:Hwr; [| done..].
    destruct (IH _ _ _ _ H) as (finals & Hrec & Hpaths & Hall).
    eexists (_ :: finals). split; [| split].
    + rewrite Hrec, (write_record _ _ _ _ _ Hwr), Hw1, <- app_assoc. done.
    + cbn [map fst length seq]. by rewrite Hpaths.
    + by constructor.
Qed.

End NormalizationFacts.

(** ** Normalization: the claims *)

Module NormalizationClaims.
Import NormalizationFacts SortFacts.

(** *** Order of the identifiers *)

Lemma split_run_records h o fuel w w' :
  Split.prepareMetadata h o fuel w = (Ok tt, w') →
  ∃ sorted records finals,
    sort Split.compareFn (filesToParse h o) = Ok sorted
    ∧ Forall2 (λ file m, fs w !! (inDir o +:+ "/" +:+ file) = Some (Json m))
              sorted records
    ∧ records_written (trace w') = records_written (trace w) ++ finals
    ∧ map fst finals
      = map (λ j, outDir o +:+ "/metadata/" +:+ number j +:+ ".json")
            (seq 0 (length records))
    ∧ map (λ f, id f.2) finals = map (λ j, Some (number j)) (seq 0 (length records))
    ∧ map (λ f, name f.2) finals = map name records
    ∧ map (λ f, events f.2) finals = map events records
    ∧ map (λ f, owners f.2) finals = map owners records.
Proof.
  unfold Split.prepareMetadata.
  unfold mbind at 1, M_bind, emit. unfold mbind at 1, M_bind, emit.
  rewrite after_after.
  unfold mbind at 1, M_bind, lift.
  destruct (sort Split.compareFn (filesToParse h o)) as [sorted | |] eqn:Hsort;
    [| done..].
  unfold mbind at 1, M_bind.
  destruct (read_all (inDir o) sorted _) as [[records | |] w1] eqn:Hread; [| done..].
  destruct (read_all_spec _ _ _ _ _ Hread) as [-> Hall].
  intros Hloop.
  destruct (split_loop_records _ _ _ _ _ _ _ _ _ Hloop)
    as (finals & Hrec & Hrest).
  exists sorted, records, finals. split; [done |]. split; [exact Hall |].
  split; [| exact Hrest].
  rewrite Hrec. cbn [after trace]. rewrite records_written_app. simpl.
  by rewrite app_nil_r.
Qed.

Lemma flat_run_records h o fuel w w' :
  Flat.prepareMetadata h o fuel w = (Ok tt, w') →
  ∃ parsed sorted finals,
    Forall2 (λ file m, fs w !! (inDir o +:+ "/" +:+ file) = Some (Json m))
            (filesToParse h o) parsed
    ∧ sort Flat.compareFn parsed = Ok sorted
    ∧ records_written (trace w') = records_written (trace w) ++ finals
    ∧ map fst finals
      = map (λ j, outDir o +:+ "/" +:+ number j +:+ ".json")
            (seq 0 (length sorted))
    ∧ Forall2 (λ f m, same_but_image f.2 m) finals sorted.
Proof.
  unfold Flat.prepareMetadata.
  unfold mbind at 1, M_bind, emit.
  unfold mbind at 1, M_bind.
  destruct (read_all (inDir o) (filesToParse h o) _) as [[parsed | |] w1] eqn:Hread;
    [| done..].
  destruct (read_all_spec _ _ _ _ _ Hread) as [-> Hall].
  unfold mbind at 1, M_bind, lift.
  destruct (sort Flat.compareFn parsed) as [sorted | |] eqn:Hsort; [| done..].
  intros Hloop.
  destruct (flat_loop_records _ _ _ _ _ _ _ _ _ Hloop) as (finals & Hrec & Hrest).
  exists parsed, sorted, finals. split; [exact Hall |]. split; [done |].
  split; [| exact Hrest].
  rewrite Hrec. cbn [after trace]. rewrite records_written_app. simpl.
  by rewrite app_nil_r.
Qed.

(** C5, as the code has it.  A run of either pass that completes writes one
    record per input file, the j-th at the path numbered j (with id j in the
    split layout), j = 1..N, in the order the pass has sorted its input.
    The split layout sorts the file names by the number before ".json",
    ascending, equal numbers in enumeration order, and writes the records of
    the files in that order; it does not look at timestamps.  The flat layout
    sorts the records by the created_date of their oldest owner, ascending,
    equal dates in enumeration order; it does not look at events. *)
Theorem ids_follow_the_sort_keys
    (h : Host) (o : Options) (fuel : nat) (w w' : World)
    (h_ : Host) (o_ : Options) (fuel_ : nat) (v v' : World) :
  Split.prepareMetadata h o fuel w = (Ok tt, w') →
  Flat.prepareMetadata h_ o_ fuel_ v = (Ok tt, v') →
  (∃ sorted records finals,
     Permutation (filesToParse h o) sorted
     ∧ StronglySorted (precedes file_number Z.ltb) sorted
     ∧ (∀ k, filter (λ a, file_number a = k) sorted
             = filter (λ a, file_number a = k) (filesToParse h o))
     ∧ Forall2 (λ file m, fs w !! (inDir o +:+ "/" +:+ file) = Some (Json m))
               sorted records
     ∧ records_written (trace w') = records_written (trace w) ++ finals
     ∧ map fst finals
       = map (λ j, outDir o +:+ "/metadata/" +:+ number j +:+ ".json")
             (seq 0 (length records))
     ∧ map (λ f, id f.2) finals
       = map (λ j, Some (number j)) (seq 0 (length records))
     ∧ map (λ f, name f.2) finals = map name records
     ∧ map (λ f, events f.2) finals = map events records
     ∧ map (λ f, owners f.2) finals = map owners records)
  ∧ (∃ parsed sorted finals,
       Forall2 (λ file m, fs v !! (inDir o_ +:+ "/" +:+ file) = Some (Json m))
               (filesToParse h_ o_) parsed
       ∧ Permutation parsed sorted
       ∧ StronglySorted (precedes oldest_owner_date String.ltb) sorted
       ∧ (∀ k, filter (λ a, oldest_owner_date a = k) sorted
               = filter (λ a, oldest_owner_date a = k) parsed)
       ∧ records_written (trace v') = records_written (trace v) ++ finals
       ∧ map fst finals
         = map (λ j, outDir o_ +:+ "/" +:+ number j +:+ ".json")
               (seq 0 (length sorted))
       ∧ Forall2 (λ f m, same_but_image f.2 m) finals sorted).
Proof.
  intros Hsplit Hflat. split.
  - destruct (split_run_records _ _ _ _ _ Hsplit)
      as (sorted & records & finals & Hsort & Hread & Hrest).
    destruct (split_sort_spec _ _ Hsort) as (Hperm & Hsorted & Hstable).
    exists sorted, records, finals.
    split; [exact Hperm |]. split; [exact Hsorted |]. split; [exact Hstable |].
    split; [exact Hread | exact Hrest].
  - destruct (flat_run_records _ _ _ _ _ Hflat)
      as (parsed & sorted & finals & Hread & Hsort & Hrest).
    destruct (flat_sort_spec _ _ Hsort) as (Hperm & Hsorted & Hstable).
    exists parsed, sorted, finals.
    split; [exact Hread |]. split; [exact Hperm |]. split; [exact Hsorted |].
    split; [exact Hstable | exact Hrest].
Qed.

(** The theorem on the sample corpus, for both passes. *)
Lemma ids_follow_the_sort_keys_witness :
  (∃ sorted records finals,
     Permutation (filesToParse (Sample.studio Sample.two_files) (Sample.options_ false))
                 sorted
     ∧ StronglySorted (precedes file_number Z.ltb) sorted
     ∧ (∀ k, filter (λ a, file_number a = k) sorted
             = filter (λ a, file_number a = k)
                      (filesToParse (Sample.studio Sample.two_files)
                                    (Sample.options_ false)))
     ∧ Forall2 (λ file m,
                  fs Sample.corpus !! (inDir (Sample.options_ false) +:+ "/" +:+ file)
                  = Some (Json m))
               sorted records
     ∧ records_written (trace Sample.split_done)
       = records_written (trace Sample.corpus) ++ finals
     ∧ map fst finals
       = map (λ j, outDir (Sample.options_ false) +:+ "/metadata/" +:+ number j
                     +:+ ".json")
             (seq 0 (length records))
     ∧ map (λ f, id f.2) finals
       = map (λ j, Some (number j)) (seq 0 (length records))
     ∧ map (λ f, name f.2) finals = map name records
     ∧ map (λ f, events f.2) finals = map events records
     ∧ map (λ f, owners f.2) finals = map owners records)
  ∧ (∃ parsed sorted finals,
       Forall2 (λ file m,
                  fs Sample.corpus !! (inDir (Sample.options_ false) +:+ "/" +:+ file)
                  = Some (Json m))
               (filesToParse (Sample.studio Sample.two_files) (Sample.options_ false))
               parsed
       ∧ Permutation parsed sorted
       ∧ StronglySorted (precedes oldest_owner_date String.ltb) sorted
       ∧ (∀ k, filter (λ a, oldest_owner_date a = k) sorted
               = filter (λ a, oldest_owner_date a = k) parsed)
       ∧ records_written (trace Sample.flat_done)
         = records_written (trace Sample.corpus) ++ finals
       ∧ map fst finals
         = map (λ j, outDir (Sample.options_ false) +:+ "/" +:+ number j +:+ ".json")
               (seq 0 (length sorted))
       ∧ Forall2 (λ f m, same_but_image f.2 m) finals sorted).
Proof.
  apply (ids_follow_the_sort_keys
           (Sample.studio Sample.two_files) (Sample.options_ false) 5
           Sample.corpus Sample.split_done
           (Sample.studio Sample.two_files) (Sample.options_ false) 5
           Sample.corpus Sample.flat_done).
  - vm_compute. reflexivity.
  - vm_compute. reflexivity.
Defined.

(** C5 as stated fails.  Two harvested records without a prior id: the one
    in 10.json has its oldest event in 2021, the one in 20.json in 2020.  The
    split layout numbers the 2021 record 1 and the 2020 record 2. *)
Lemma later_record_numbered_first :
  (Split.prepareMetadata (Sample.studio Sample.two_files) (Sample.options_ false)
                         5 Sample.corpus).1 = Ok tt
  ∧ map (λ f, (f.1, name f.2, id f.2, oldest_event_date f.2))
        (records_written (trace Sample.split_done))
    = [("out/metadata/1.json", "Hunny #2", Some "1", Some "2021-02-01T00:00:00");
       ("out/metadata/2.json", "Bob", Some "2", Some "2020-06-01T00:00:00")]
  ∧ String.ltb "2020-06-01T00:00:00" "2021-02-01T00:00:00" = true
  ∧ id Sample.newer = None ∧ id Sample.older = None.
Proof. repeat split; vm_compute; reflexivity. Qed.

(** On the same corpus the flat layout, which sorts by owner dates, numbers
    the 2020 record first. *)
Example flat_numbers_by_owner_date :
  map (λ f, (f.1, name f.2)) (records_written (trace Sample.flat_done))
  = [("out/1.json", "Bob"); ("out/2.json", "Hunny #2")].
Proof. vm_compute. reflexivity. Qed.

(** *** Derived attributes *)



(** What the first record of the sample corpus becomes. *)
Example classic_hunny_with_mint_date :
  map (λ f, (attributes f.2, original_creation_date f.2))
      (take 1 (records_written (trace Sample.split_done)))
  = [(Some [Split.type_attribute "Classic";
            Split.mint_date_attribute "February 1, 2021"],
      Some "2021-02-01T00:00:00.000Z")].
Proof. vm_compute. reflexivity. Qed.


(** *** Records without events *)

Lemma empty_events_throw h o fuel total i metadata rest g w :
  events metadata = Some [] →
  Split.loop h o fuel total i (metadata :: rest) g w
  = (Throw (TypeError "Reduce of empty array with no initial value"),
     after [Log ("Processing " +:+ number i +:+ " of " +:+ pretty total)] w).
Proof.
  intros He. cbn [Split.loop]. unfold mbind at 1, M_bind, emit.
  unfold mbind at 1, M_bind, lift. by rewrite He.
Qed.

(** C4: the code at a record whose events are an empty array, as the
    harvest writes them for an asset without events.  The split layout
    rejects with the TypeError of [reduce] before it has written anything. *)
Theorem empty_events_reject_normalization :
  events Sample.eventless = Some [] ∧ owners Sample.eventless = []
  ∧ Split.prepareMetadata
      (Sample.studio [("30.json", true); ("30.png", true)])
      (Sample.options_ false) 5 Sample.eventless_corpus
    = (Throw (TypeError "Reduce of empty array with no initial value"),
       after [Mkdir "out/assets"; Mkdir "out/metadata"; Log "Processing 1 of 1"]
             Sample.eventless_corpus).
Proof. repeat split; vm_compute; reflexivity. Qed.

(** A record whose events field is absent goes through: no attribute for
    the mint date, the description as it was, no original_creation_date. *)
Example absent_events_pass :
  let run :=
    Split.prepareMetadata (Sample.studio [("40.json", true); ("40.png", true)])
      (Sample.options_ false) 5
      {| trace := []; heap := [];
         fs := <["in/40.json" := Json Sample.bare]>
               (<["in/40.png" := Binary "PNG40"]> ∅) |} in
  run.1 = Ok tt
  ∧ map (λ f, (f.1, description f.2, original_creation_date f.2))
        (records_written (trace run.2))
    = [("out/metadata/1.json", "A bear.", None)].
Proof. split; vm_compute; reflexivity. Qed.

(** In the flat layout the comparator reduces the owners; with two records
    of which one has no owner the sort throws. *)
Example empty_owners_reject_flat_sort :
  sort Flat.compareFn [Sample.older; Sample.eventless]
  = Throw (TypeError "Reduce of empty array with no initial value").
Proof. reflexivity. Qed.

(** *** Running the pass twice with placeholder media *)

(** The branch of the flat layout on a token whose GIF is in place: nothing
    is drawn or fetched, and the image field is rewritten all the same. *)
Lemma flat_skips_present_media h o fuel i metadata g w :
  is_Some (fs w !! (outDir o +:+ "/" +:+ number i +:+ ".gif")) →
  Flat.substitute h o fuel i metadata g w
  = (Ok (set_image (number i +:+ ".gif") metadata, g), w).
Proof.
  intros Hfile. unfold Flat.substitute, mbind, M_bind, stat.
  by rewrite bool_decide_true.
Qed.

(** The branch of the split layout asks for the file beside the assets
    directory, not inside it; where that file is missing it downloads. *)
Lemma split_looks_beside_assets h o fuel i metadata g w :
  fs w !! (outDir o +:+ "/" +:+ number i +:+ ".gif") = None →
  Split.substitute h o fuel i metadata g w
  = (drawn ← Giphy.next h (searchTerm_of o) fuel g;
     match drawn.1 with
     | None => throw (Err_ "Ran out of GIFs")
     | Some url =>
         emit (Log ("Downloading " +:+ url));;
         gifImageResponse ← retryWithBackoff h (fetch h (GetImage url)) 5 250;
         gifImageBuffer ← response_arrayBuffer gifImageResponse;
         writeFile h (outDir o +:+ "/assets/" +:+ number i +:+ ".gif")
                   (Binary gifImageBuffer);;
         mret (set_image (number i +:+ ".gif") metadata, drawn.2)
     end) w.
Proof.
  intros Hfile. unfold Split.substitute. unfold mbind at 1, M_bind, stat.
  rewrite bool_decide_false; [done |]. rewrite Hfile. by intros [? ?].
Qed.

(** C2: the code on an output directory its own first run has populated.
    The first run of the split layout writes both GIFs into out/assets and
    both records; the second run, on the world the first one left, searches
    again and fetches both GIFs again.  The records of the two runs are the
    same. *)
Theorem second_run_downloads_again :
  let first := Split.prepareMetadata (Sample.studio Sample.two_files)
                 (Sample.options_ true) 5 Sample.corpus in
  let second := Split.prepareMetadata (Sample.studio Sample.two_files)
                  (Sample.options_ true) 5 first.2 in
  first.1 = Ok tt ∧ second.1 = Ok tt
  ∧ fs first.2 !! "out/assets/1.gif" = Some (Binary "GIF89a")
  ∧ fs first.2 !! "out/assets/2.gif" = Some (Binary "GIF89a")
  ∧ fetches (trace first.2)
    = [GiphySearch "ape" 0;
       GetImage "https://media.example/a.gif?cid=1";
       GetImage "https://media.example/c.gif"]
  ∧ fetches (trace second.2)
    = fetches (trace first.2)
      ++ [GiphySearch "ape" 0;
          GetImage "https://media.example/a.gif?cid=1";
          GetImage "https://media.example/c.gif"]
  ∧ records_written (trace second.2)
    = records_written (trace first.2) ++ records_written (trace first.2).
Proof. repeat split; vm_compute; reflexivity. Qed.

(** The flat layout on the same input: its second run fetches nothing and
    writes the same records. *)
Example flat_second_run_downloads_nothing :
  let first := Flat.prepareMetadata (Sample.studio Sample.two_files)
                 (Sample.options_ true) 5 Sample.corpus in
  let second := Flat.prepareMetadata (Sample.studio Sample.two_files)
                  (Sample.options_ true) 5 first.2 in
  first.1 = Ok tt ∧ second.1 = Ok tt
  ∧ fetches (trace second.2) = fetches (trace first.2)
  ∧ records_written (trace second.2)
    = records_written (trace first.2) ++ records_written (trace first.2).
Proof. repeat split; vm_compute; reflexivity. Qed.

(** Where the file the split layout asks for does exist, it skips the
    download and with it the rewrite of the image field: the record keeps
    the image of the harvest. *)
Example split_skip_keeps_harvest_image :
  let populated :=
    {| trace := []; heap := [];
       fs := <["out/1.gif" := Binary "GIF89a"]>
             (<["out/2.gif" := Binary "GIF89a"]> (fs Sample.corpus)) |} in
  let run := Split.prepareMetadata (Sample.studio Sample.two_files)
               (Sample.options_ true) 5 populated in
  run.1 = Ok tt
  ∧ fetches (trace run.2) = []
  ∧ map (λ f, image f.2) (records_written (trace run.2)) = ["./10.png"; "./20.png"].
Proof. repeat split; vm_compute; reflexivity. Qed.

End NormalizationClaims.

(** ** Further properties of the harvest *)

Module HarvestFacts.
Import OpenSea EnrichmentClaims.

(** *** The generator, for any fetcher *)

(** X1.  Whatever the fetcher does: every page the generator yields before
    another one carries a truthy next cursor.  When the generator returns,
    it has yielded at least one page and the last one carries no cursor
    (absent or empty); when it throws, or is still running when the fuel
    ends, every page yielded so far carried one. *)
Theorem generator_stops_at_first_page_without_cursor
    (h : Host) (fetcher : option string → M Page) (fuel : nat)
    (c : option string) (w : World) (filler : Page) :
  let pages := (pages_from h fetcher fuel c w).1.1 in
  let ending := (pages_from h fetcher fuel c w).1.2 in
  Forall (λ p, truthy_opt (next p) = true) (removelast pages)
  ∧ (ending = Done →
     pages ≠ [] ∧ truthy_opt (next (List.last pages filler)) = false)
  ∧ (ending ≠ Done → Forall (λ p, truthy_opt (next p) = true) pages).
Proof.
  revert c w. induction fuel as [| fuel IH]; intros c w; cbn [pages_from].
  - cbn. split; [constructor | split; [done | intros; constructor]].
  - destruct (retryWithBackoff h (fetcher c) 5 250 w) as [[result | e |] w1].
    + destruct (truthy_opt (next result)) eqn:Hnext; cbn [negb].
      * specialize (IH (next result) w1).
        destruct (pages_from h fetcher fuel (next result) w1) as [[rest e] w2].
        cbn [fst snd] in *. destruct IH as (Hinit & Hdone & Hnot).
        split; [| split].
        -- destruct rest as [| p rest]; [constructor |].
           cbn [removelast]. constructor; [done |]. exact Hinit.
        -- intros He. destruct (Hdone He) as [Hne Hlast].
           split; [done |]. destruct rest as [| p rest]; [done |]. exact Hlast.
        -- intros He. constructor; [done | by apply Hnot].
      * cbn [fst snd removelast List.last].
        split; [constructor | split; [done | done]].
    + cbn. split; [constructor | split; [done | intros; constructor]].
    + cbn. split; [constructor | split; [done | intros; constructor]].
Qed.

(** *** The history of an asset *)

(** X2.  A fulfilled events or owners resolution has read the listing to its
    end, and what it returns is what the pages held, page after page: the
    events without their asset back reference, the owners as they are. *)
Theorem harvested_history_is_every_page
    (h : Host) (apiKey : string) (fuel : nat) (a : CollectionAsset)
    (w w' w'' : World) (evs : list AssetEvent) (ows : list Owner) :
  resolve_events h apiKey fuel a w = (Ok evs, w') →
  resolve_owners h apiKey fuel a w' = (Ok ows, w'') →
  (∃ pages,
     fetchWithPagination h (events_fetcher h apiKey a) fuel w = ((pages, Done), w')
     ∧ evs = map delete_asset
                 (concat (map (λ p, default [] (page_asset_events p)) pages))
     ∧ Forall (λ e, asset e = None) evs)
  ∧ (∃ pages,
       fetchWithPagination h (owners_fetcher h apiKey a) fuel w' = ((pages, Done), w'')
       ∧ ows = concat (map (λ p, default [] (page_owners p)) pages)).
Proof.
  intros Hev How. split.
  - revert Hev. unfold resolve_events, for_await.
    destruct (fetchWithPagination h (events_fetcher h apiKey a) fuel w)
      as [[pages ending] w1].
    destruct ending; [| done..]. intros [= <- <-]. exists pages.
    split; [done |].
    rewrite (fold_left_app_concat
               (λ p, map delete_asset (default [] (page_asset_events p)))).
    cbn [app]. rewrite concat_map, map_map. split; [done |].
    apply Forall_forall. intros e He.
    apply list_elem_of_In, in_concat in He as (l & Hl & He).
    apply in_map_iff in Hl as (p & <- & _).
    apply in_map_iff in He as (e0 & <- & _). done.
  - revert How. unfold resolve_owners, for_await.
    destruct (fetchWithPagination h (owners_fetcher h apiKey a) fuel w')
      as [[pages ending] w1].
    destruct ending; [| done..]. intros [= <- <-]. exists pages.
    split; [done |].
    by rewrite (fold_left_app_concat (λ p, default [] (page_owners p))).
Qed.

Lemma harvested_history_is_every_page_witness :
  (∃ pages,
     fetchWithPagination Scenario.chronicle
       (events_fetcher Scenario.chronicle "key" Sample.bear) 2 initial_world
     = ((pages, Done), Scenario.events_read)
     ∧ [delete_asset Scenario.sale]
       = map delete_asset
             (concat (map (λ p, default [] (page_asset_events p)) pages))
     ∧ Forall (λ e, asset e = None) [delete_asset Scenario.sale])
  ∧ (∃ pages,
       fetchWithPagination Scenario.chronicle
         (owners_fetcher Scenario.chronicle "key" Sample.bear) 2 Scenario.events_read
       = ((pages, Done), Scenario.owners_read)
       ∧ [Sample.owner_ "2021-03-01T00:00:00"]
         = concat (map (λ p, default [] (page_owners p)) pages)).
Proof.
  apply (harvested_history_is_every_page Scenario.chronicle "key" 2 Sample.bear
           initial_world Scenario.events_read Scenario.owners_read
           [delete_asset Scenario.sale] [Sample.owner_ "2021-03-01T00:00:00"]).
  - vm_compute. reflexivity.
  - vm_compute. reflexivity.
Defined.

(** *** Where the image is asked for *)



(** *** Answers that are not pages *)

(** X4.  The listing fetcher looks at the status only to tell 429 apart.  When
    the first answer has any other status and a body that parses, without
    assets and without a next cursor (an error body), the harvest takes it
    for an empty last page: it fulfils, having enriched and written
    nothing. *)
Theorem error_body_ends_the_harvest
    (h : Host) (collectionSlug apiKey : string) (fuel : nat) (w : World)
    (resp : Response) (p : Page) :
  net h (GetAssets apiKey collectionSlug None)
      (count_fetch (GetAssets apiKey collectionSlug None) (trace w)) = Some resp →
  status resp ≠ 429 →
  json resp = Some p →
  truthy_opt (next p) = false →
  page_assets p = None →
  downloadMetadata h collectionSlug apiKey (S fuel) w
  = (Ok tt,
     after [Fetch (GetAssets apiKey collectionSlug None); LogPage p;
            Log "Assets complete"] w).
Proof.
  intros Hnet Hstatus Hjson Hnext Hassets.
  assert (assets_fetcher h collectionSlug apiKey None w
          = (Ok p, after [Fetch (GetAssets apiKey collectionSlug None)] w)) as Hpage.
  { unfold assets_fetcher. cbn [cursor_param truthy_opt].
    rewrite (bind_ok _ _ _ _ _ (fetch_answered _ _ _ _ Hnet)).
    unfold rate_limit. apply Z.eqb_neq in Hstatus. rewrite Hstatus.
    unfold mbind, M_bind, mret, M_ret, response_json. by rewrite Hjson. }
  unfold downloadMetadata, fetchWithPagination. cbn [pages_from].
  rewrite (retry_settled _ _ _ _ _ _ _ Hpage), Hnext.
  cbn [negb fold_left listing_body fst snd]. rewrite Hassets.
  cbn [default map app emit_all].
  unfold finished. cbn [pipeline].
  unfold mbind, M_bind, mret, M_ret, emit. by rewrite !after_after.
Qed.

Lemma error_body_ends_the_harvest_witness :
  downloadMetadata Scenario.unauthorized "hunnys" "key" 3 initial_world
  = (Ok tt,
     after [Fetch (GetAssets "key" "hunnys" None); LogPage Scenario.error_page;
            Log "Assets complete"] initial_world).
Proof.
  apply (error_body_ends_the_harvest Scenario.unauthorized "hunnys" "key" 2
           initial_world (Sample.answer_ 401 None (Some Scenario.error_page))
           Scenario.error_page).
  - reflexivity.
  - discriminate.
  - reflexivity.
  - reflexivity.
  - reflexivity.
Defined.

(** *** A listing that cannot be reached *)

Lemma retry_of_rejected_fetches {T} h (op : M T) r e :
  (∀ w, op w = (Throw e, after [Fetch r] w)) →
  ∀ n d w,
    (retryWithBackoff h op (S n) d w).1 = Throw RetryExhausted
    ∧ fs (retryWithBackoff h op (S n) d w).2 = fs w
    ∧ fetches (trace (retryWithBackoff h op (S n) d w).2)
      = fetches (trace w) ++ replicate (S n) r.
Proof.
  intros Hop. induction n as [| n IH]; intros d w.
  - rewrite (retry_last _ _ _ _ _ _ (Hop w)). cbn [fst snd after trace fs].
    by rewrite fetches_app.
  - rewrite (retry_again _ _ _ _ _ _ _ (Hop w)).
    destruct (IH (d * backoffFactor h)
                 (after [Log "Retrying"; Backoff d] (after [Fetch r] w)))
      as (H1 & H2 & H3).
    rewrite H1, H2, H3. cbn [after trace fs].
    rewrite !fetches_app. cbn [fetches replicate app].
    rewrite app_nil_r, <- app_assoc. done.
Qed.

(** X5.  When the network rejects every listing request, [downloadMetadata]
    rejects: the error of the listing loop is not caught.  It has then made
    the request five times and written nothing. *)
Theorem unreachable_listing_rejects
    (h : Host) (collectionSlug apiKey : string) (fuel : nat) (w : World) :
  (∀ n, net h (GetAssets apiKey collectionSlug None) n = None) →
  (downloadMetadata h collectionSlug apiKey (S fuel) w).1 = Throw RetryExhausted
  ∧ fs (downloadMetadata h collectionSlug apiKey (S fuel) w).2 = fs w
  ∧ fetches (trace (downloadMetadata h collectionSlug apiKey (S fuel) w).2)
    = fetches (trace w) ++ replicate 5 (GetAssets apiKey collectionSlug None).
Proof.
  intros Hnet.
  assert (∀ w0, assets_fetcher h collectionSlug apiKey None w0
                = (Throw FetchError,
                   after [Fetch (GetAssets apiKey collectionSlug None)] w0)) as Hop.
  { intros w0. unfold assets_fetcher. cbn [cursor_param truthy_opt].
    by rewrite (bind_throw _ _ _ _ _ (fetch_rejected _ _ _ (Hnet _))). }
  destruct (retry_of_rejected_fetches h _ _ _ Hop 4 250 w) as (H1 & H2 & H3).
  unfold downloadMetadata, fetchWithPagination. cbn [pages_from].
  destruct (retryWithBackoff h (assets_fetcher h collectionSlug apiKey None) 5 250 w)
    as [[p | e |] w1]; cbn [fst snd] in *; [done | | done].
  injection H1 as ->. cbn [fold_left emit_all pipeline fst snd].
  unfold mret, M_ret. cbn [fst snd after trace fs].
  rewrite app_nil_r. done.
Qed.

Lemma unreachable_listing_rejects_witness :
  (downloadMetadata Scenario.offline "hunnys" "key" 3 initial_world).1
  = Throw RetryExhausted
  ∧ fs (downloadMetadata Scenario.offline "hunnys" "key" 3 initial_world).2
    = fs initial_world
  ∧ fetches (trace (downloadMetadata Scenario.offline "hunnys" "key" 3
                                     initial_world).2)
    = fetches (trace initial_world) ++ replicate 5 (GetAssets "key" "hunnys" None).
Proof.
  apply (unreachable_listing_rejects Scenario.offline "hunnys" "key" 2 initial_world).
  intros n. reflexivity.
Defined.

(** *** What a harvest writes, and in which order *)

(** What an image resolution fulfils with is an answer of the network. *)
Lemma resolve_image_answered h a url w resp w' :
  resolve_image h a url w = (Ok resp, w') → ∃ r n, net h r n = Some resp.
Proof.
  unfold resolve_image.
  apply (retry_fulfilled h _ (λ resp, ∃ r n, net h r n = Some resp)).
  clear. intros w r w'. unfold image_attempt, mbind, M_bind, update_URL, read_URL.
  unfold fetch at 1. cbn [trace fs heap].
  match goal with
  | |- context [net h ?req ?n] => destruct (net h req n) as [resp |] eqn:Hnet
  end; [| done].
  unfold mbind, M_bind, emit, mret, M_ret.
  destruct (ok resp); cbn [negb]; [| done].
  intros [= <- <-]. by eexists _, _.
Qed.

Lemma persist_on_sound_disk h x w :
  (∀ p n, disk h p n = true) →
  is_Some (arrayBuffer (imageResponse x)) →
  ∃ w',
    detached (persist h x) w = (Ok tt, w')
    ∧ records_written (trace w')
      = records_written (trace w) ++ [(json_path (enriched_asset x), record_of h x)].
Proof.
  intros Hdisk [body Hbody].
  unfold detached, persist, response_arrayBuffer, mbind, M_bind, emit.
  rewrite Hbody. unfold mret, M_ret, writeFile, after.
  cbn [trace fs heap]. rewrite !Hdisk. cbn [trace fs heap].
  eexists. split; [reflexivity |].
  cbn [trace]. rewrite !NormalizationFacts.records_written_app. cbn.
  by rewrite !app_nil_r.
Qed.

(** The body of a fulfilled enrichment can be read where every answer of
    the network has a body that can. *)
Lemma enriched_body h slug key fuel a w x w1 :
  (∀ r n resp, net h r n = Some resp → is_Some (arrayBuffer resp)) →
  enrich h slug key fuel a w = (Ok x, w1) →
  is_Some (arrayBuffer (imageResponse x)).
Proof.
  intros Hnet Hen.
  destruct (enrich_joined _ _ _ _ _ _ _ _ Hen)
    as (_ & url & w0 & wi & we & _ & Himg & _).
  destruct (resolve_image_answered _ _ _ _ _ _ Himg) as (r & n & Hr).
  by eapply Hnet.
Qed.

(** The records of a fulfilled stream, in the order the model commits
    them. *)
Lemma pipeline_records h slug key fuel :
  (∀ p n, disk h p n = true) →
  (∀ r n resp, net h r n = Some resp → is_Some (arrayBuffer resp)) →
  ∀ assets w w',
    pipeline h slug key fuel assets w = (Ok tt, w') →
    ∃ records,
      records_written (trace w') = records_written (trace w) ++ records
      ∧ map (λ r, (r.1, name r.2, description r.2, attributes r.2)) records
        = map (λ a, (json_path a, asset_name a, asset_description a,
                     Some (traits a))) assets.
Proof.
  intros Hdisk Hnet. induction assets as [| a assets IH]; intros w w' H.
  - injection H as <-. exists []. by rewrite app_nil_r.
  - cbn [pipeline] in H.
    destruct (enrich h slug key fuel a w) as [[x | e |] w1] eqn:Hen.
    + rewrite (bind_ok _ _ _ _ _ Hen) in H.
      destruct (persist_on_sound_disk h x w1 Hdisk
                  (enriched_body _ _ _ _ _ _ _ _ Hnet Hen)) as (w2 & Hper & Hrec).
      rewrite (bind_ok _ _ _ _ _ Hper) in H.
      destruct (IH _ _ H) as (records & Hrecs & Hfields).
      destruct (enrich_joined _ _ _ _ _ _ _ _ Hen) as [Ha _].
      pose proof (NormalizationFacts.quiet_unrecorded
                    (enrich h slug key fuel a) w
                    (quiet_enrich h slug key fuel a)) as Hq.
      rewrite Hen in Hq. cbn [snd] in Hq.
      exists ((json_path a, record_of h x) :: records). split.
      * rewrite Hrecs, Hrec, Hq, Ha, <- app_assoc. done.
      * cbn [map fst snd]. rewrite Hfields. unfold record_of.
        cbn [name description attributes]. by rewrite Ha.
    + by rewrite (bind_throw _ _ _ _ _ Hen) in H.
    + by rewrite (bind_pending _ _ _ _ Hen) in H.
Qed.

(** X6.  On a disk that takes every write, and where the body of every
    answer can be read, a stream that is fulfilled has written exactly one
    record per asset pushed: for each asset the file <token_id>.json in the
    directory of its collection, holding its name, description and traits.
    The commits are not awaited, so the records are counted whatever the
    order in which they reached the disk. *)
Theorem harvest_writes_one_record_per_asset
    (h : Host) (collectionSlug apiKey : string) (fuel : nat)
    (assets : list CollectionAsset) (w w' : World) :
  (∀ p n, disk h p n = true) →
  (∀ r n resp, net h r n = Some resp → is_Some (arrayBuffer resp)) →
  pipeline h collectionSlug apiKey fuel assets w = (Ok tt, w') →
  ∃ records,
    records_written (trace w') ≡ₚ records_written (trace w) ++ records
    ∧ map (λ r, (r.1, name r.2, description r.2, attributes r.2)) records
      ≡ₚ map (λ a, (json_path a, asset_name a, asset_description a,
                    Some (traits a))) assets.
Proof.
  intros Hdisk Hnet H.
  destruct (pipeline_records h collectionSlug apiKey fuel Hdisk Hnet _ _ _ H)
    as (records & Hrecs & Hfields).
  exists records. by rewrite Hrecs, Hfields.
Qed.

Lemma harvest_writes_one_record_per_asset_witness :
  ∃ records,
    records_written (trace Scenario.two_harvested)
    ≡ₚ records_written (trace initial_world) ++ records
    ∧ map (λ r, (r.1, name r.2, description r.2, attributes r.2)) records
      ≡ₚ map (λ a, (json_path a, asset_name a, asset_description a,
                    Some (traits a)))
             [Sample.bear; Sample.cub].
Proof.
  apply (harvest_writes_one_record_per_asset Scenario.two_listed "hunnys" "key" 3
           [Sample.bear; Sample.cub] initial_world Scenario.two_harvested).
  - intros p n. reflexivity.
  - intros r n resp [= <-]. by eexists.
  - vm_compute. reflexivity.
Defined.

(** *** Which errors a harvest can print *)


Lemma throws_only_throw {A} (P : Error → Prop) e : P e → throws_only P (@throw A e).
Proof. intros He w e' w' [= <- <-]. done. Qed.









(** *** What an unanswered request costs *)

Lemma retry_of_rejecting {T} h (op : M T) r k :
  (∀ w, (∃ e, (op w).1 = Throw e) ∧ fs (op w).2 = fs w
        ∧ fetches (trace (op w).2) = fetches (trace w) ++ replicate k r) →
  ∀ n d w,
    (retryWithBackoff h op (S n) d w).1 = Throw RetryExhausted
    ∧ fs (retryWithBackoff h op (S n) d w).2 = fs w
    ∧ fetches (trace (retryWithBackoff h op (S n) d w).2)
      = fetches (trace w) ++ replicate (S n * k) r.
Proof.
  intros Hop. induction n as [| n IH]; intros d w.
  - destruct (Hop w) as ([e He] & Hfs & Hf).
    destruct (op w) as [[v | e1 |] w1] eqn:Hw; cbn [fst snd] in *; [done | | done].
    rewrite (retry_last _ _ _ _ _ _ Hw). cbn [fst snd].
    by rewrite Hfs, Hf, Nat.mul_1_l.
  - destruct (Hop w) as ([e He] & Hfs & Hf).
    destruct (op w) as [[v | e1 |] w1] eqn:Hw; cbn [fst snd] in *; [done | | done].
    rewrite (retry_again _ _ _ _ _ _ _ Hw).
    destruct (IH (d * backoffFactor h) (after [Log "Retrying"; Backoff d] w1))
      as (H1 & H2 & H3).
    rewrite H1, H2, H3. cbn [after trace fs].
    rewrite fetches_app, Hf, Hfs. cbn [fetches].
    rewrite app_nil_r, <- app_assoc, <- replicate_add.
    done.
Qed.

Lemma rejected_fetch_throws h r (k : Response → M Page) w :
  (∀ n, net h r n = None) →
  (∃ e, ((fetch h r ≫= k) w).1 = Throw e)
  ∧ fs ((fetch h r ≫= k) w).2 = fs w
  ∧ fetches (trace ((fetch h r ≫= k) w).2) = fetches (trace w) ++ replicate 1 r.
Proof.
  intros Hnet. rewrite (bind_throw _ _ _ _ _ (fetch_rejected _ _ _ (Hnet _))).
  cbn [fst snd after trace fs]. rewrite fetches_app.
  split; [by eexists | done].
Qed.

(** X8.  The fetcher of an asset's events retries on its own inside the retry
    of [fetchWithPagination]; the fetcher of its owners does not.  When no
    request is ever answered, the history of an asset is given up after
    twenty-five requests for its first page of events, and its ownership
    after five; each ends with the error of the exhausted retry and writes
    nothing. *)
Theorem unanswered_events_cost_twenty_five_requests
    (h : Host) (apiKey : string) (fuel : nat) (a : CollectionAsset) (w : World) :
  (∀ n, net h (GetEvents apiKey (asset_contract_address a) (token_id a) None) n
        = None) →
  (∀ n, net h (GetOwners apiKey (asset_contract_address a) (token_id a) None) n
        = None) →
  ((resolve_events h apiKey (S fuel) a w).1 = Throw RetryExhausted
   ∧ fs (resolve_events h apiKey (S fuel) a w).2 = fs w
   ∧ fetches (trace (resolve_events h apiKey (S fuel) a w).2)
     = fetches (trace w)
         ++ replicate 25 (GetEvents apiKey (asset_contract_address a) (token_id a)
                                    None))
  ∧ ((resolve_owners h apiKey (S fuel) a w).1 = Throw RetryExhausted
     ∧ fs (resolve_owners h apiKey (S fuel) a w).2 = fs w
     ∧ fetches (trace (resolve_owners h apiKey (S fuel) a w).2)
       = fetches (trace w)
           ++ replicate 5 (GetOwners apiKey (asset_contract_address a) (token_id a)
                                     None)).
Proof.
  intros Hev How. split.
  - assert (∀ w0, (∃ e, (events_fetcher h apiKey a None w0).1 = Throw e)
                  ∧ fs (events_fetcher h apiKey a None w0).2 = fs w0
                  ∧ fetches (trace (events_fetcher h apiKey a None w0).2)
                    = fetches (trace w0)
                        ++ replicate 5 (GetEvents apiKey (asset_contract_address a)
                                                 (token_id a) None)) as Hinner.
    { intros w0. unfold events_fetcher.
      destruct (retry_of_rejecting h (events_attempt h apiKey a None) _ 1
                  (λ w1, rejected_fetch_throws h _ _ w1 Hev) 4 250 w0)
        as (H1 & H2 & H3).
      split; [by eexists | done]. }
    destruct (retry_of_rejecting h (events_fetcher h apiKey a None) _ 5 Hinner 4 250 w)
      as (H1 & H2 & H3).
    unfold resolve_events, for_await, fetchWithPagination. cbn [pages_from].
    destruct (retryWithBackoff h (events_fetcher h apiKey a None) 5 250 w)
      as [[p | e |] w1]; cbn [fst snd] in *; [done | | done].
    injection H1 as ->. done.
  - destruct (retry_of_rejecting h (owners_fetcher h apiKey a None) _ 1
                (λ w1, rejected_fetch_throws h _ _ w1 How) 4 250 w)
      as (H1 & H2 & H3).
    unfold resolve_owners, for_await, fetchWithPagination. cbn [pages_from].
    destruct (retryWithBackoff h (owners_fetcher h apiKey a None) 5 250 w)
      as [[p | e |] w1]; cbn [fst snd] in *; [done | | done].
    injection H1 as ->. done.
Qed.

Lemma unanswered_events_cost_twenty_five_requests_witness :
  ((resolve_events Scenario.offline "key" 2 Sample.bear initial_world).1
   = Throw RetryExhausted
   ∧ fs (resolve_events Scenario.offline "key" 2 Sample.bear initial_world).2
     = fs initial_world
   ∧ fetches (trace (resolve_events Scenario.offline "key" 2 Sample.bear
                                    initial_world).2)
     = fetches (trace initial_world)
         ++ replicate 25 (GetEvents "key" (asset_contract_address Sample.bear)
                                    (token_id Sample.bear) None))
  ∧ ((resolve_owners Scenario.offline "key" 2 Sample.bear initial_world).1
     = Throw RetryExhausted
     ∧ fs (resolve_owners Scenario.offline "key" 2 Sample.bear initial_world).2
       = fs initial_world
     ∧ fetches (trace (resolve_owners Scenario.offline "key" 2 Sample.bear
                                      initial_world).2)
       = fetches (trace initial_world)
           ++ replicate 5 (GetOwners "key" (asset_contract_address Sample.bear)
                                     (token_id Sample.bear) None)).
Proof.
  apply (unanswered_events_cost_twenty_five_requests Scenario.offline "key" 1
           Sample.bear initial_world).
  - intros n. reflexivity.
  - intros n. reflexivity.
Defined.

(** *** From the listing to the files *)

Lemma pipeline_prefix h slug key fuel :
  (∀ p n, disk h p n = true) →
  (∀ r n resp, net h r n = Some resp → is_Some (arrayBuffer resp)) →
  ∀ assets w,
    ∃ n,
      map fst (records_written (trace (pipeline h slug key fuel assets w).2))
      = map fst (records_written (trace w)) ++ map json_path (take n assets)
      ∧ ((pipeline h slug key fuel assets w).1 = Ok tt → n = length assets).
Proof.
  intros Hdisk Hnet. induction assets as [| a assets IH]; intros w.
  - exists 0%nat. cbn. by rewrite app_nil_r.
  - cbn [pipeline].
    pose proof (NormalizationFacts.quiet_unrecorded
                  (enrich h slug key fuel a) w (quiet_enrich h slug key fuel a)) as Hq.
    destruct (enrich h slug key fuel a w) as [[x | e |] w1] eqn:Hen; cbn [snd] in Hq.
    + rewrite (bind_ok _ _ _ _ _ Hen).
      destruct (persist_on_sound_disk h x w1 Hdisk
                  (enriched_body _ _ _ _ _ _ _ _ Hnet Hen)) as (w2 & Hper & Hrec).
      rewrite (bind_ok _ _ _ _ _ Hper).
      destruct (enrich_joined _ _ _ _ _ _ _ _ Hen) as [Ha _].
      destruct (IH w2) as (n & Hn & Hall). exists (S n). split.
      * rewrite Hn, Hrec, Hq, Ha, map_app, <- app_assoc. done.
      * intros Hok. cbn [length]. by rewrite (Hall Hok).
    + rewrite (bind_throw _ _ _ _ _ Hen). exists 0%nat. cbn [fst snd take map].
      by rewrite Hq, app_nil_r.
    + rewrite (bind_pending _ _ _ _ Hen). exists 0%nat. cbn [fst snd take map].
      by rewrite Hq, app_nil_r.
Qed.

Lemma listing_body_pushes pages : ∀ acc,
  (fold_left listing_body pages acc).2
  = acc.2 ++ concat (map (λ p, default [] (page_assets p)) pages)
  ∧ records_written (fold_left listing_body pages acc).1 = records_written acc.1.
Proof.
  induction pages as [| p pages IH]; intros acc; cbn [fold_left map concat].
  - by rewrite app_nil_r.
  - destruct (IH (listing_body acc p)) as [-> ->].
    unfold listing_body. cbn [fst snd]. rewrite <- app_assoc. split; [done |].
    rewrite NormalizationFacts.records_written_app. cbn [records_written].
    induction (default [] (page_assets p)) as [| a l IHl]; cbn; [| done].
    by rewrite app_nil_r.
Qed.

(** X9.  On a disk that takes every write, and where the body of every
    answer can be read, however a harvest ends (fulfilled, rejected by the
    listing, or with an enrichment error printed), the records it has
    written are those of the first assets of the listing, page after page,
    one file <token_id>.json for each, with none left out in between.  The
    commits are not awaited, so the records are compared whatever the order
    in which they reached the disk. *)
Theorem harvest_writes_a_prefix_of_the_listing
    (h : Host) (collectionSlug apiKey : string) (fuel : nat) (w : World) :
  (∀ p n, disk h p n = true) →
  (∀ r n resp, net h r n = Some resp → is_Some (arrayBuffer resp)) →
  ∃ pages ending w1 n,
    fetchWithPagination h (assets_fetcher h collectionSlug apiKey) fuel w
    = ((pages, ending), w1)
    ∧ map fst (records_written
                 (trace (downloadMetadata h collectionSlug apiKey fuel w).2))
      ≡ₚ map fst (records_written (trace w))
           ++ map json_path
                (take n (concat (map (λ p, default [] (page_assets p)) pages))).
Proof.
  intros Hdisk Hnet. unfold downloadMetadata.
  pose proof (quiet_pages h (assets_fetcher h collectionSlug apiKey)
                (λ c, quiet_request h _) fuel None w) as [_ Hw1].
  fold (fetchWithPagination h (assets_fetcher h collectionSlug apiKey) fuel w) in Hw1.
  destruct (fetchWithPagination h (assets_fetcher h collectionSlug apiKey) fuel w)
    as [[pages ending] w1].
  cbn [snd] in Hw1.
  destruct (listing_body_pushes pages ([], [])) as [Hpushed Hlogs].
  destruct (fold_left listing_body pages ([], [])) as [logs pushed].
  cbn [fst snd app records_written] in Hpushed, Hlogs. subst pushed.
  unfold emit_all.
  assert (records_written (trace (after logs w1)) = records_written (trace w)) as Hw2.
  { cbn [after trace]. rewrite NormalizationFacts.records_written_app, Hlogs, app_nil_r.
    by rewrite !NormalizationFacts.records_written_writes, Hw1. }
  exists pages, ending, w1.
  destruct (pipeline_prefix h collectionSlug apiKey fuel Hdisk Hnet
              (concat (map (λ p, default [] (page_assets p)) pages)) (after logs w1))
    as (n & Hn & _).
  rewrite Hw2 in Hn.
  destruct ending as [| e |].
  - unfold finished.
    destruct (pipeline h collectionSlug apiKey fuel _ (after logs w1))
      as [[[] | e |] w3] eqn:Hp; cbn [snd] in Hn.
    + rewrite (bind_ok _ _ _ _ _ Hp). exists n. split; [done |].
      cbn [emit after snd trace]. rewrite NormalizationFacts.records_written_app.
      cbn [records_written]. by rewrite app_nil_r, Hn.
    + rewrite (bind_throw _ _ _ _ _ Hp). exists n. split; [done |].
      cbn [emit after snd trace]. rewrite NormalizationFacts.records_written_app.
      cbn [records_written]. by rewrite app_nil_r, Hn.
    + rewrite (bind_pending _ _ _ _ Hp). exists n. split; [done |].
      cbn [snd]. by rewrite Hn.
  - destruct (pipeline h collectionSlug apiKey fuel _ (after logs w1)) as [r w3].
    exists n. split; [done |]. cbn [snd] in *. by rewrite Hn.
  - exists 0%nat. split; [done |]. cbn [snd take map]. by rewrite Hw2, app_nil_r.
Qed.

Lemma harvest_writes_a_prefix_of_the_listing_witness :
  ∃ pages ending w1 n,
    fetchWithPagination Scenario.two_listed
      (assets_fetcher Scenario.two_listed "hunnys" "key") 3 initial_world
    = ((pages, ending), w1)
    ∧ map fst (records_written
                 (trace (downloadMetadata Scenario.two_listed "hunnys" "key" 3
                                          initial_world).2))
      ≡ₚ map fst (records_written (trace initial_world))
           ++ map json_path
                (take n (concat (map (λ p, default [] (page_assets p)) pages))).
Proof.
  apply (harvest_writes_a_prefix_of_the_listing Scenario.two_listed "hunnys" "key" 3
           initial_world).
  - intros p n. reflexivity.
  - intros r n resp [= <-]. by eexists.
Defined.

(** *** Edges of the fetchers and of the enrichment *)

(** X10.  A fetcher whose request is answered 429 without a usable hint (the
    header absent, not a number, or not positive) does not wait: it throws
    "Rate limited" right after the request. *)
Theorem unhinted_rate_limit_fails_at_once
    (h : Host) (collectionSlug apiKey : string) (a : CollectionAsset)
    (next_ : option string) (op : M Page) (req : Request)
    (w : World) (resp : Response) :
  (op = assets_fetcher h collectionSlug apiKey next_
     ∧ req = GetAssets apiKey collectionSlug (cursor_param next_))
  ∨ (op = events_attempt h apiKey a next_
     ∧ req = GetEvents apiKey (asset_contract_address a) (token_id a) (cursor_param next_))
  ∨ (op = owners_fetcher h apiKey a next_
     ∧ req = GetOwners apiKey (asset_contract_address a) (token_id a) (cursor_param next_)) →
  net h req (count_fetch req (trace w)) = Some resp →
  status resp = 429 →
  gt0 (parseInt (default "0" (retry_after resp))) = false →
  op w = (Throw (Err_ "Rate limited"), after [Fetch req] w).
Proof.
  intros Hop Hn Hs Hhint.
  assert ((response ← fetch h req; rate_limit response;; response_json response) w
          = (Throw (Err_ "Rate limited"), after [Fetch req] w)) as H.
  { rewrite (bind_ok _ _ _ _ _ (fetch_answered _ _ _ _ Hn)).
    unfold rate_limit. rewrite Hs, Hhint. done. }
  by destruct Hop as [[-> ->] | [[-> ->] | [-> ->]]].
Qed.

Lemma unhinted_rate_limit_fails_at_once_witness :
  owners_fetcher Scenario.unhinted "key" Sample.bear None initial_world
  = (Throw (Err_ "Rate limited"),
     after [Fetch (GetOwners "key" (asset_contract_address Sample.bear)
                             (token_id Sample.bear) (cursor_param None))]
           initial_world).
Proof.
  apply (unhinted_rate_limit_fails_at_once Scenario.unhinted "hunnys" "key"
           Sample.bear None _ _ initial_world
           (Sample.answer_ 429 (Some "soon") None)).
  - right. right. split; reflexivity.
  - reflexivity.
  - reflexivity.
  - reflexivity.
Defined.

(** X11.  An asset listed without an image address ends the stream with the
    TypeError of [new URL]: nothing is requested, made or written for it,
    and the assets behind it are not looked at. *)
Theorem asset_without_image_address_ends_the_stream
    (h : Host) (collectionSlug apiKey : string) (fuel : nat)
    (a : CollectionAsset) (behind : list CollectionAsset) (w : World) :
  truthy_opt (image_original_url a) = false →
  image_url a = None →
  pipeline h collectionSlug apiKey fuel (a :: behind) w
  = (Throw (TypeError "Invalid URL"), w).
Proof.
  intros Horig Himg. cbn [pipeline]. unfold enrich, prepare.
  rewrite Horig, Himg. done.
Qed.

Lemma asset_without_image_address_ends_the_stream_witness :
  pipeline Sample.healthy "hunnys" "key" 3 [Scenario.faceless; Sample.bear]
           initial_world
  = (Throw (TypeError "Invalid URL"), initial_world).
Proof.
  apply (asset_without_image_address_ends_the_stream Sample.healthy "hunnys" "key" 3
           Scenario.faceless [Sample.bear] initial_world).
  - reflexivity.
  - reflexivity.
Defined.

End HarvestFacts.

(* ===================================================================== *)
(** ** Further properties of the normalization *)
(* ===================================================================== *)

Module NormalizationFurther.
Import NormalizationFacts SortFacts.

(** *** The reducers *)

Section Oldest.
Context {A : Type}.
Variables (date : A → string) (f : option A → A → A).
Hypothesis f_keeps :
  ∀ p c, f (Some p) c = if String.ltb (date p) (date c) then p else c.

Lemma lt_le_lt a b c :
  String.ltb a b = true → String.ltb a c = false → String.ltb b c = false.
Proof.
  intros Hab Hac. destruct (String.ltb b c) eqn:Hbc; [| done].
  pose proof (string_le_trans _ _ _ (string_lt_asym _ _ Hbc) Hac) as H.
  congruence.
Qed.

Lemma fold_oldest rest : ∀ x,
  ∃ before behind,
    x :: rest
    = before ++ fold_left (λ prev current, f (Some prev) current) rest x :: behind
    ∧ Forall (λ y, String.ltb (date y)
                     (date (fold_left (λ prev current, f (Some prev) current)
                                      rest x)) = false) before
    ∧ Forall (λ y, String.ltb
                     (date (fold_left (λ prev current, f (Some prev) current)
                                      rest x)) (date y) = true) behind.
Proof.
  induction rest as [| c rest IH] using rev_ind; intros x.
  - exists [], []. done.
  - rewrite fold_left_app. cbn [fold_left].
    destruct (IH x) as (before & behind & Heq & Hb & Ha).
    set (e := fold_left _ rest x) in *. rewrite f_keeps.
    destruct (String.ltb (date e) (date c)) eqn:Hlt.
    + exists before, (behind ++ [c]). split; [| split; [done |]].
      * rewrite app_comm_cons, Heq, <- app_assoc. done.
      * apply Forall_app. split; [done | by constructor].
    + exists (before ++ e :: behind), []. split; [| split; [| done]].
      * rewrite app_comm_cons, Heq, <- app_assoc. done.
      * apply Forall_app. split; [| constructor].
        -- eapply Forall_impl; [exact Hb |]. intros y Hy.
           exact (string_le_trans _ _ _ Hlt Hy).
        -- exact Hlt.
        -- eapply Forall_impl; [exact Ha |]. intros y Hy.
           exact (lt_le_lt _ _ _ Hy Hlt).
Qed.

End Oldest.

(** X12.  Of a record with at least one event, and of one with at least one
    owner, the reducer picks an entry of the array: none before it has an
    earlier date, and every one behind it has a strictly later date.  Among
    the earliest entries it is the last one. *)
Theorem reducers_pick_the_last_of_the_earliest
    (e0 : AssetEvent) (evs : list AssetEvent) (o0 : Owner) (ows : list Owner) :
  (∃ e before behind,
     reduce Split.oldestOwnerReducer (e0 :: evs) = Ok e
     ∧ e0 :: evs = before ++ e :: behind
     ∧ Forall (λ y, String.ltb (event_created_date y) (event_created_date e) = false)
              before
     ∧ Forall (λ y, String.ltb (event_created_date e) (event_created_date y) = true)
              behind)
  ∧ (∃ o before behind,
       reduce Flat.oldestOwnerReducer (o0 :: ows) = Ok o
       ∧ o0 :: ows = before ++ o :: behind
       ∧ Forall (λ y, String.ltb (owner_created_date y) (owner_created_date o) = false)
                before
       ∧ Forall (λ y, String.ltb (owner_created_date o) (owner_created_date y) = true)
                behind).
Proof.
  split.
  - destruct (fold_oldest event_created_date Split.oldestOwnerReducer
                (λ p c, eq_refl) evs e0) as (before & behind & H).
    eexists _, before, behind. split; [reflexivity | exact H].
  - destruct (fold_oldest owner_created_date Flat.oldestOwnerReducer
                (λ p c, eq_refl) ows o0) as (before & behind & H).
    eexists _, before, behind. split; [reflexivity | exact H].
Qed.

(** X13.  The date a record's provenance comes from is the created_date of its
    earliest event, as the reducer finds it.  Where that date parses, the
    description gains the sentence with its en-US form and the record its
    ISO form as original_creation_date; where it does not parse, the record
    is rejected with the RangeError of [toISOString]. *)
Theorem provenance_names_the_earliest_event
    (h : Host) (o : Options) (i : nat) (metadata : IOpenSeaMetadata)
    (e0 : AssetEvent) (evs : list AssetEvent) :
  events metadata = Some (e0 :: evs) →
  ∃ e,
    reduce_opt Split.oldestOwnerReducer (events metadata) = Ok (Some e)
    ∧ e ∈ e0 :: evs
    ∧ Forall (λ y, String.ltb (event_created_date y) (event_created_date e) = false)
             (e0 :: evs)
    ∧ (∀ t,
         date_parse h (event_created_date e) = Some t →
         truthy (toLocaleDateString h t) = true →
         ∃ final,
           Split.derive h o i metadata (Some e) = Ok final
           ∧ description final
             = description metadata
                 +:+ Split.provenance_sentence (toLocaleDateString h t)
           ∧ original_creation_date final = Some (toISOString h t)
           ∧ id final = Some (number i))
    ∧ (date_parse h (event_created_date e) = None →
       Split.derive h o i metadata (Some e)
       = Throw (RangeError "Invalid time value")).
Proof.
  intros Hev.
  destruct (fold_oldest event_created_date Split.oldestOwnerReducer
              (λ p c, eq_refl) evs e0) as (before & behind & Heq & Hb & Ha).
  set (e := fold_left _ evs e0) in *.
  exists e. rewrite Hev. split; [done |]. split; [| split; [| split]].
  - rewrite Heq. apply elem_of_app. right. left.
  - rewrite Heq. apply Forall_app. split; [done |]. constructor.
    + destruct (String.ltb (event_created_date e) (event_created_date e)) eqn:H;
        [| done].
      pose proof (string_lt_asym _ _ H). congruence.
    + eapply Forall_impl; [exact Ha |]. intros y Hy. by apply string_lt_asym.
  - intros t Ht Hloc. unfold Split.derive.
    unfold Split.creationDate_of, Split.localeCreationDate_of, Split.iso_of.
    cbn [fmap option_fmap option_map]. rewrite Ht.
    cbn [truthy_opt default mbind Res_bind]. rewrite Hloc.
    eexists. split; [reflexivity |]. done.
  - intros Ht. unfold Split.derive.
    unfold Split.creationDate_of, Split.localeCreationDate_of, Split.iso_of.
    cbn [fmap option_fmap option_map]. by rewrite Ht.
Qed.

Lemma provenance_names_the_earliest_event_witness :
  ∃ e,
    reduce_opt Split.oldestOwnerReducer (events Sample.newer) = Ok (Some e)
    ∧ e ∈ Sample.event_ "2021-03-01T00:00:00" :: [Sample.event_ "2021-02-01T00:00:00"]
    ∧ Forall (λ y, String.ltb (event_created_date y) (event_created_date e) = false)
             (Sample.event_ "2021-03-01T00:00:00"
                :: [Sample.event_ "2021-02-01T00:00:00"])
    ∧ (∀ t,
         date_parse (Sample.studio Sample.two_files) (event_created_date e) = Some t →
         truthy (toLocaleDateString (Sample.studio Sample.two_files) t) = true →
         ∃ final,
           Split.derive (Sample.studio Sample.two_files) (Sample.options_ false) 0
                        Sample.newer (Some e) = Ok final
           ∧ description final
             = description Sample.newer
                 +:+ Split.provenance_sentence
                       (toLocaleDateString (Sample.studio Sample.two_files) t)
           ∧ original_creation_date final
             = Some (toISOString (Sample.studio Sample.two_files) t)
           ∧ id final = Some (number 0))
    ∧ (date_parse (Sample.studio Sample.two_files) (event_created_date e) = None →
       Split.derive (Sample.studio Sample.two_files) (Sample.options_ false) 0
                    Sample.newer (Some e)
       = Throw (RangeError "Invalid time value")).
Proof.
  apply (provenance_names_the_earliest_event (Sample.studio Sample.two_files)
           (Sample.options_ false) 0 Sample.newer
           (Sample.event_ "2021-03-01T00:00:00")
           [Sample.event_ "2021-02-01T00:00:00"]).
  reflexivity.
Defined.

(** *** The generator of placeholders *)

Lemma next_yields h term : ∀ fuel g w url g' w',
  Giphy.next h term fuel g w = (Ok (Some url, g'), w') →
  Giphy.is_gif url = true ∧ ∃ offset rest total, g' = Giphy.InPage offset rest total.
Proof.
  induction fuel as [| fuel IH]; intros g w url g' w'; [done |].
  assert (∀ gifs offset total w,
            Giphy.next h term (S fuel) (Giphy.InPage offset gifs total) w
            = (Ok (Some url, g'), w') →
            Giphy.is_gif url = true
            ∧ ∃ offset rest total, g' = Giphy.InPage offset rest total) as Hpage.
  { induction gifs as [| u rest IHg]; intros offset total w0; rewrite next_in_page.
    - destruct (total <=? offset + Giphy.LIMIT); [done |].
      unfold mbind, M_bind.
      destruct (Giphy.search h term (offset + Giphy.LIMIT) w0) as [[page | e |] w1];
        [apply IH | done..].
    - destruct (Giphy.is_gif u) eqn:Hu; [| apply IHg].
      intros [= <- <- <-]. split; [done | by eexists _, _, _]. }
  destruct g as [| offset gifs total |].
  - rewrite next_fresh. unfold mbind, M_bind.
    destruct (Giphy.search h term 0 w) as [[page | e |] w1]; [apply Hpage | done..].
  - apply Hpage.
  - done.
Qed.

(** X14.  When the search finds no GIF at all and has no further page, the
    first record whose placeholder is missing stops either pass with "Ran
    out of GIFs": after the one search, nothing has been downloaded or
    written for it. *)
Theorem exhausted_search_aborts
    (h : Host) (o : Options) (fuel total i : nat) (metadata : IOpenSeaMetadata)
    (rest : list IOpenSeaMetadata) (w : World) (gifs : list string) (found : Z) :
  giphy_search h (searchTerm_of o) 0 = Some (gifs, found) →
  Forall (λ url, Giphy.is_gif url = false) gifs →
  found ≤ Giphy.LIMIT →
  fs w !! (outDir o +:+ "/" +:+ number i +:+ ".gif") = None →
  events metadata ≠ Some [] →
  Flat.loop h o (S fuel) total i (metadata :: rest) (Some Giphy.Fresh) w
  = (Throw (Err_ "Ran out of GIFs"),
     after [Log ("Processing " +:+ number i +:+ " of " +:+ pretty total);
            Fetch (GiphySearch (searchTerm_of o) 0)] w)
  ∧ Split.loop h o (S fuel) total i (metadata :: rest) (Some Giphy.Fresh) w
    = (Throw (Err_ "Ran out of GIFs"),
       after [Log ("Processing " +:+ number i +:+ " of " +:+ pretty total);
              Fetch (GiphySearch (searchTerm_of o) 0)] w).
Proof.
  intros Hsearch Hnone Hfound Hfile Hev.
  assert (∀ w0, Giphy.next h (searchTerm_of o) (S fuel) Giphy.Fresh w0
                = (Ok (None, Giphy.Finished),
                   after [Fetch (GiphySearch (searchTerm_of o) 0)] w0)) as Hnext.
  { intros w0. rewrite next_fresh. unfold mbind, M_bind, Giphy.search.
    rewrite Hsearch. cbn [fst snd]. clear Hsearch.
    generalize (after [Fetch (GiphySearch (searchTerm_of o) 0)] w0). intros w1.
    induction Hnone as [| u gifs Hu _ IH]; rewrite next_in_page.
    - assert ((found <=? 0 + Giphy.LIMIT) = true) as -> by lia. done.
    - by rewrite Hu. }
  assert (∀ w0 : World,
            after [Fetch (GiphySearch (searchTerm_of o) 0)]
                  (after [Log ("Processing " +:+ number i +:+ " of " +:+ pretty total)] w0)
            = after [Log ("Processing " +:+ number i +:+ " of " +:+ pretty total);
                     Fetch (GiphySearch (searchTerm_of o) 0)] w0) as Hafter.
  { intros w0. unfold after. cbn [trace fs heap]. by rewrite <- app_assoc. }
  split.
  - cbn [Flat.loop]. unfold Flat.substitute, mbind, M_bind, emit, stat.
    cbv beta. cbn [after fs]. rewrite Hfile.
    rewrite bool_decide_false by by intros [? ?].
    cbn [negb]. rewrite Hnext. cbn [fst snd]. unfold throw. by rewrite <- Hafter.
  - cbn [Split.loop].
    assert (∃ oldest, reduce_opt Split.oldestOwnerReducer (events metadata) = Ok oldest)
      as [oldest Hold].
    { destruct (events metadata) as [[| e evs] |]; [done | by eexists | by eexists]. }
    unfold emit.
    unfold Split.substitute, mbind, M_bind, stat, lift. rewrite Hold.
    cbv beta. cbn [after fs]. rewrite Hfile.
    rewrite bool_decide_false by by intros [? ?].
    cbn [negb]. rewrite Hnext. cbn [fst snd]. unfold throw. by rewrite <- Hafter.
Qed.

Lemma exhausted_search_aborts_witness :
  Flat.loop Scenario.barren (Sample.options_ true) 3 2 0
            [Sample.newer; Sample.older] (Some Giphy.Fresh) Sample.corpus
  = (Throw (Err_ "Ran out of GIFs"),
     after [Log ("Processing " +:+ number 0 +:+ " of " +:+ pretty 2%nat);
            Fetch (GiphySearch (searchTerm_of (Sample.options_ true)) 0)]
           Sample.corpus)
  ∧ Split.loop Scenario.barren (Sample.options_ true) 3 2 0
               [Sample.newer; Sample.older] (Some Giphy.Fresh) Sample.corpus
    = (Throw (Err_ "Ran out of GIFs"),
       after [Log ("Processing " +:+ number 0 +:+ " of " +:+ pretty 2%nat);
              Fetch (GiphySearch (searchTerm_of (Sample.options_ true)) 0)]
             Sample.corpus).
Proof.
  apply (exhausted_search_aborts Scenario.barren (Sample.options_ true) 2 2 0
           Sample.newer [Sample.older] Sample.corpus
           ["https://media.example/b.webp"] 1).
  - reflexivity.
  - repeat constructor.
  - vm_compute. discriminate.
  - vm_compute. reflexivity.
  - vm_compute. discriminate.
Defined.

(** *** Where a pass reaches *)

Section Confined.
Variables (P : Request → Prop) (Q : string → bool).

Lemma confined_ret {A} (a : A) : confined P Q (mret a).
Proof. intros w. split; [exists []; by rewrite app_nil_r | done]. Qed.

Lemma confined_throw {A} e : confined P Q (@throw A e).
Proof. intros w. split; [exists []; by rewrite app_nil_r | done]. Qed.

Lemma confined_lift {A} (r : Res A) : confined P Q (lift r).
Proof. intros w. split; [exists []; by rewrite app_nil_r | done]. Qed.

Lemma confined_bind_ok {A B} (m : M A) (f : A → M B) :
  confined P Q m → (∀ a w w', m w = (Ok a, w') → confined P Q (f a)) →
  confined P Q (m ≫= f).
Proof.
  intros Hm Hf w. destruct (Hm w) as [(rs & Hrs & HP) Hfs].
  unfold mbind, M_bind.
  destruct (m w) as [[a | e |] w1] eqn:Hw; cbn [fst snd] in *;
    [| split; [by exists rs | done]..].
  destruct (Hf a w w1 Hw w1) as [(rs' & Hrs' & HP') Hfs'].
  split.
  - exists (rs ++ rs'). rewrite Hrs', Hrs, app_assoc.
    split; [done | by apply Forall_app].
  - intros p Hp. by rewrite Hfs', Hfs.
Qed.

Lemma confined_bind {A B} (m : M A) (f : A → M B) :
  confined P Q m → (∀ a, confined P Q (f a)) → confined P Q (m ≫= f).
Proof. intros Hm Hf. apply confined_bind_ok; [done | intros a _ _ _; apply Hf]. Qed.

Lemma confined_lift_bind {A B} (r : Res A) (f : A → M B) :
  (∀ a, r = Ok a → confined P Q (f a)) → confined P Q (lift r ≫= f).
Proof.
  intros Hf w. unfold mbind, M_bind, lift.
  destruct r as [a | e |]; [by apply Hf | |];
    (split; [exists []; by rewrite app_nil_r | done]).
Qed.

Lemma confined_emit ev : fetches [ev] = [] → confined P Q (emit ev).
Proof.
  intros Hev w. cbn [emit after fst snd trace fs]. split; [| done].
  exists []. by rewrite fetches_app, Hev.
Qed.

Lemma confined_stat path : confined P Q (stat path).
Proof. intros w. split; [exists []; by rewrite app_nil_r | done]. Qed.

Lemma confined_fetch h r : P r → confined P Q (fetch h r).
Proof.
  intros Hr w. unfold fetch, mbind, M_bind, emit, mret, M_ret, throw.
  destruct (net h r _); cbn [fst snd after trace fs];
    (split; [| done]); exists [r]; rewrite fetches_app;
    (split; [done | by constructor]).
Qed.

Lemma confined_retry {T} h (op : M T) : confined P Q op →
  ∀ n d, confined P Q (retryWithBackoff h op n d).
Proof.
  intros Hop. induction n as [| n IH]; intros d w; [apply confined_throw |].
  cbn [retryWithBackoff]. destruct (Hop w) as [(rs & Hrs & HP) Hfs].
  destruct (op w) as [[v | e |] w1]; cbn [fst snd] in *;
    [split; [by exists rs | done] | | split; [by exists rs | done]].
  destruct n as [| n]; [split; [by exists rs | done] |].
  unfold mbind, M_bind, emit.
  destruct (IH (d * backoffFactor h)
               (after [Backoff d] (after [Log "Retrying"] w1)))
    as [(rs' & Hrs' & HP') Hfs'].
  split.
  - exists (rs ++ rs'). rewrite Hrs'. cbn [after trace].
    rewrite !fetches_app, Hrs. cbn [fetches].
    rewrite !app_nil_r, app_assoc. split; [done | by apply Forall_app].
  - intros p Hp. by rewrite Hfs', <- Hfs.
Qed.

Lemma confined_write h path data : Q path = true → confined P Q (writeFile h path data).
Proof.
  intros Hq w. unfold writeFile.
  destruct (disk h path _); cbn [fst snd after trace fs].
  - split; [exists []; rewrite fetches_app; done |].
    intros p Hp. apply lookup_insert_ne. intros ->. congruence.
  - split; [exists []; rewrite fetches_app; done | done].
Qed.

Lemma confined_copy h src dst : Q dst = true → confined P Q (copyFile h src dst).
Proof.
  intros Hq w. unfold copyFile.
  destruct (fs w !! src); [destruct (disk h dst _) |];
    cbn [fst snd after trace fs].
  - split; [exists []; rewrite fetches_app; done |].
    intros p Hp. apply lookup_insert_ne. intros ->. congruence.
  - split; [exists []; rewrite fetches_app; done | done].
  - split; [exists []; rewrite fetches_app; done | done].
Qed.

Lemma confined_read_all dir files : confined P Q (read_all dir files).
Proof.
  induction files as [| file files IH]; [apply confined_ret |].
  cbn [read_all]. apply confined_bind.
  - intros w. unfold readJson.
    destruct (fs w !! _) as [[b | m] |];
      (split; [exists []; by rewrite app_nil_r | done]).
  - intros m. apply confined_bind; [exact IH | intros ms; apply confined_ret].
Qed.

End Confined.

Lemma prefix_append a b : String.prefix a (a +:+ b) = true.
Proof.
  induction a as [| c a IH]; cbn [String.append String.prefix];
    [by destruct b |].
  by destruct (ascii_dec c c).
Qed.

Lemma inside_slash dir t : inside dir (dir +:+ "/" +:+ t) = true.
Proof.
  unfold inside. rewrite <- (StringFacts.app_assoc_s dir "/" t).
  apply prefix_append.
Qed.

Lemma inside_deeper dir t : inside dir (dir +:+ String "/" t) = true.
Proof. apply (inside_slash dir t). Qed.

Lemma inside_app dir path s : inside dir path = true → inside dir (path +:+ s) = true.
Proof.
  unfold inside. generalize (dir +:+ "/"). intros a. revert path.
  induction a as [| c a IH]; intros path; [by destruct (path +:+ s) |].
  destruct path as [| c' path]; cbn [String.prefix String.append]; [done |].
  destruct (ascii_dec c c'); [apply IH | done].
Qed.

Lemma inside_resolve dir seg segments :
  inside dir (pathResolve dir (seg :: segments)) = true.
Proof.
  unfold pathResolve. cbn [fold_left].
  pose proof (inside_slash dir (default seg (strip_prefix "./" seg))) as H.
  revert H. generalize (dir +:+ "/" +:+ default seg (strip_prefix "./" seg)).
  induction segments as [| seg' segments IH]; intros acc Hacc; [done |].
  cbn [fold_left]. apply IH, inside_app, Hacc.
Qed.

Lemma confined_search P Q h term offset :
  P (GiphySearch term offset) → confined P Q (Giphy.search h term offset).
Proof.
  intros Hr w. unfold Giphy.search.
  destruct (giphy_search h term offset); cbn [fst snd after trace fs];
    (split; [| done]); exists [GiphySearch term offset]; rewrite fetches_app;
    (split; [done | by constructor]).
Qed.

Lemma confined_next P Q h term :
  (∀ offset, P (GiphySearch term offset)) →
  ∀ fuel g, confined P Q (Giphy.next h term fuel g).
Proof.
  intros HP. induction fuel as [| fuel IH]; intros g.
  { intros w. split; [exists []; by rewrite app_nil_r | done]. }
  assert (∀ gifs offset total,
            confined P Q (Giphy.next h term (S fuel) (Giphy.InPage offset gifs total)))
    as Hpage.
  { induction gifs as [| u rest IHg]; intros offset total; rewrite next_in_page.
    - destruct (total <=? offset + Giphy.LIMIT); [apply confined_ret |].
      apply confined_bind; [by apply confined_search | intros page; apply IH].
    - destruct (Giphy.is_gif u); [apply confined_ret | apply IHg]. }
  destruct g as [| offset gifs total |].
  - rewrite next_fresh.
    apply confined_bind; [by apply confined_search | intros; apply Hpage].
  - apply Hpage.
  - apply confined_ret.
Qed.

Lemma confined_body P Q (resp : Response) : confined P Q (response_arrayBuffer resp).
Proof.
  unfold response_arrayBuffer.
  destruct (arrayBuffer resp); [apply confined_ret | apply confined_throw].
Qed.

Lemma confined_draw {A} P h o fuel g
    (k : option string * Giphy.Gen → Response → M A) :
  (∀ r, placeholder_request o r → P r) →
  (∀ drawn resp, confined P (inside (outDir o)) (k drawn resp)) →
  confined P (inside (outDir o))
    (drawn ← Giphy.next h (searchTerm_of o) fuel g;
     match drawn.1 with
     | None => throw (Err_ "Ran out of GIFs")
     | Some url =>
         emit (Log ("Downloading " +:+ url));;
         gifImageResponse ← retryWithBackoff h (fetch h (GetImage url)) 5 250;
         k drawn gifImageResponse
     end).
Proof.
  intros HP Hk. apply confined_bind_ok.
  { apply confined_next. intros offset. apply HP. right. by exists offset. }
  intros [[url |] g'] w w' Hnext; cbn [fst].
  - apply confined_bind; [by apply confined_emit | intros _].
    apply confined_bind; [| apply Hk].
    apply confined_retry, confined_fetch, HP. left.
    exists url. split; [done |]. by destruct (next_yields _ _ _ _ _ _ _ _ Hnext).
  - apply confined_throw.
Qed.

Lemma flat_substitute_confined P h o fuel i metadata g :
  (∀ r, placeholder_request o r → P r) →
  confined P (inside (outDir o)) (Flat.substitute h o fuel i metadata g).
Proof.
  intros HP. unfold Flat.substitute.
  apply confined_bind; [apply confined_stat | intros present].
  apply confined_bind; [| intros g'; apply confined_ret].
  destruct (negb present); [| apply confined_ret].
  apply (confined_draw P h o fuel g
           (λ drawn resp,
              gifImageBuffer ← response_arrayBuffer resp;
              writeFile h (outDir o +:+ "/" +:+ number i +:+ ".gif")
                        (Binary gifImageBuffer);;
              mret drawn.2) HP).
  intros drawn resp. apply confined_bind; [apply confined_body | intros body].
  apply confined_bind; [| intros _; apply confined_ret].
  apply confined_write, inside_slash.
Qed.

Lemma split_substitute_confined P h o fuel i metadata g :
  (∀ r, placeholder_request o r → P r) →
  confined P (inside (outDir o)) (Split.substitute h o fuel i metadata g).
Proof.
  intros HP. unfold Split.substitute.
  apply confined_bind; [apply confined_stat | intros present].
  destruct (negb present); [| apply confined_ret].
  apply (confined_draw P h o fuel g
           (λ drawn resp,
              gifImageBuffer ← response_arrayBuffer resp;
              writeFile h (outDir o +:+ "/assets/" +:+ number i +:+ ".gif")
                        (Binary gifImageBuffer);;
              mret (set_image (number i +:+ ".gif") metadata, drawn.2)) HP).
  intros drawn resp. apply confined_bind; [apply confined_body | intros body].
  apply confined_bind; [| intros _; apply confined_ret].
  apply confined_write, inside_deeper.
Qed.

Lemma copied_step (copy : M IOpenSeaMetadata)
    (a : IOpenSeaMetadata * option Giphy.Gen) w w' :
  (m ← copy; mret (m, @None Giphy.Gen)) w = (Ok a, w') → a.2 = None.
Proof.
  unfold mbind, M_bind. destruct (copy w) as [[m | e |] w1]; [| done..].
  by intros [= <- <-].
Qed.

Lemma flat_loop_confined P h o fuel total : ∀ records i g,
  (g ≠ None → ∀ r, placeholder_request o r → P r) →
  confined P (inside (outDir o)) (Flat.loop h o fuel total i records g).
Proof.
  induction records as [| metadata records IH]; intros i g HP; [apply confined_ret |].
  cbn [Flat.loop].
  apply confined_bind; [by apply confined_emit | intros _].
  apply confined_bind_ok.
  - destruct g as [g |].
    + apply confined_bind; [| intros r; apply confined_ret].
      by apply flat_substitute_confined, HP.
    + apply confined_bind; [| intros r; apply confined_ret].
      unfold Flat.copy_original.
      apply confined_bind; [| intros _; apply confined_ret].
      apply confined_copy, inside_resolve.
  - intros step w w' Hstep.
    apply confined_bind; [apply confined_write, inside_slash | intros _].
    apply IH. destruct g as [g |]; [intros _; by apply HP |].
    by rewrite (copied_step _ _ _ _ Hstep).
Qed.

Lemma split_loop_confined P h o fuel total : ∀ records i g,
  (g ≠ None → ∀ r, placeholder_request o r → P r) →
  confined P (inside (outDir o)) (Split.loop h o fuel total i records g).
Proof.
  induction records as [| metadata records IH]; intros i g HP; [apply confined_ret |].
  cbn [Split.loop].
  apply confined_bind; [by apply confined_emit | intros _].
  apply confined_bind; [apply confined_lift | intros oldest].
  apply confined_bind_ok.
  - destruct g as [g |].
    + apply confined_bind; [| intros r; apply confined_ret].
      by apply split_substitute_confined, HP.
    + apply confined_bind; [| intros r; apply confined_ret].
      unfold Split.copy_original.
      apply confined_bind; [| intros _; apply confined_ret].
      apply confined_copy, inside_resolve.
  - intros step w w' Hstep.
    apply confined_bind; [apply confined_lift | intros final].
    apply confined_bind; [apply confined_write, inside_deeper | intros _].
    apply IH. destruct g as [g |]; [intros _; by apply HP |].
    by rewrite (copied_step _ _ _ _ Hstep).
Qed.

Lemma prepare_confined h o fuel :
  confined (λ r, placeholder_request o r ∧ gifIterator_of o ≠ None) (inside (outDir o))
           (Flat.prepareMetadata h o fuel)
  ∧ confined (λ r, placeholder_request o r ∧ gifIterator_of o ≠ None) (inside (outDir o))
             (Split.prepareMetadata h o fuel).
Proof.
  split.
  - unfold Flat.prepareMetadata.
    apply confined_bind; [by apply confined_emit | intros _].
    apply confined_bind; [apply confined_read_all | intros parsed].
    apply confined_bind; [apply confined_lift | intros sorted].
    by apply flat_loop_confined.
  - unfold Split.prepareMetadata.
    apply confined_bind; [by apply confined_emit | intros _].
    apply confined_bind; [by apply confined_emit | intros _].
    apply confined_bind; [apply confined_lift | intros sorted].
    apply confined_bind; [apply confined_read_all | intros parsed].
    by apply split_loop_confined.
Qed.

(** X15.  Neither pass changes a file that is not below its output directory:
    the records read, and everything else outside, are as before, however
    the pass ends. *)
Theorem normalization_writes_only_below_outDir
    (h : Host) (o : Options) (fuel : nat) (w : World) (p : string) :
  inside (outDir o) p = false →
  fs (Flat.prepareMetadata h o fuel w).2 !! p = fs w !! p
  ∧ fs (Split.prepareMetadata h o fuel w).2 !! p = fs w !! p.
Proof.
  intros Hp. destruct (prepare_confined h o fuel) as [Hflat Hsplit].
  split; [by apply (Hflat w) | by apply (Hsplit w)].
Qed.

Lemma normalization_writes_only_below_outDir_witness :
  fs (Flat.prepareMetadata (Sample.studio Sample.two_files) (Sample.options_ true)
                           5 Sample.corpus).2 !! "in/10.json"
  = fs Sample.corpus !! "in/10.json"
  ∧ fs (Split.prepareMetadata (Sample.studio Sample.two_files) (Sample.options_ true)
                              5 Sample.corpus).2 !! "in/10.json"
    = fs Sample.corpus !! "in/10.json".
Proof.
  apply (normalization_writes_only_below_outDir (Sample.studio Sample.two_files)
           (Sample.options_ true) 5 Sample.corpus "in/10.json").
  reflexivity.
Defined.

(** X16.  The only requests of either pass are the searches for its term, at
    some offset, and the downloads of placeholders, from addresses that end
    with ".gif" before their query; a pass that copies the original images
    makes no request at all. *)
Theorem normalization_requests_only_placeholders
    (h : Host) (o : Options) (fuel : nat) (w : World) :
  (∃ requests,
     fetches (trace (Flat.prepareMetadata h o fuel w).2) = fetches (trace w) ++ requests
     ∧ Forall (placeholder_request o) requests
     ∧ (gifIterator_of o = None → requests = []))
  ∧ (∃ requests,
       fetches (trace (Split.prepareMetadata h o fuel w).2)
       = fetches (trace w) ++ requests
       ∧ Forall (placeholder_request o) requests
       ∧ (gifIterator_of o = None → requests = [])).
Proof.
  destruct (prepare_confined h o fuel) as [Hflat Hsplit].
  split.
  - destruct (Hflat w) as [(rs & Hrs & HP) _]. exists rs.
    split; [done | split].
    + eapply Forall_impl; [exact HP |]. by intros r [Hr _].
    + intros Hnone. destruct HP as [| r rs [_ Hr] _]; [done | done].
  - destruct (Hsplit w) as [(rs & Hrs & HP) _]. exists rs.
    split; [done | split].
    + eapply Forall_impl; [exact HP |]. by intros r [Hr _].
    + intros Hnone. destruct HP as [| r rs [_ Hr] _]; [done | done].
Qed.

(** *** What the flat pass writes *)

Lemma flat_loop_outputs h o fuel total : ∀ records i g w w',
  Flat.loop h o fuel total i records g w = (Ok tt, w') →
  records_written (trace w')
  = records_written (trace w)
      ++ flat_outputs o (bool_decide (is_Some g)) i records.
Proof.
  induction records as [| metadata records IH]; intros i g w w' H.
  - injection H as <-. by rewrite app_nil_r.
  - cbn [Flat.loop] in H.
    unfold mbind at 1, M_bind, emit in H.
    unfold mbind at 1, M_bind in H.
    match type of H with
    | context [match ?m ?w0 with _ => _ end] =>
        destruct (m w0) as [[step | |] w1] eqn:Hstep; [| done..]
    end.
    assert (records_written (trace w1) = records_written (trace w)
            ∧ step.1 = set_image (flat_image (bool_decide (is_Some g)) i metadata)
                                 metadata
            ∧ bool_decide (is_Some step.2) = bool_decide (is_Some g))
      as (Hw1 & Himg & Hg).
    { destruct g as [g |].
      - unfold mbind, M_bind in Hstep.
        destruct (Flat.substitute h o fuel i metadata g _) as [[r | |] w2] eqn:Hs;
          [| done..].
        injection Hstep as <- <-.
        destruct (flat_substitute_spec _ _ _ _ _ _ _ _ _ Hs) as [Hr ->].
        by rewrite Hr, emit_log_unrecorded.
      - unfold mbind, M_bind in Hstep.
        destruct (Flat.copy_original h o i metadata _) as [[m | |] w2] eqn:Hs;
          [| done..].
        injection Hstep as <- <-.
        destruct (flat_copy_spec _ _ _ _ _ _ _ Hs) as [Hr ->].
        by rewrite Hr, emit_log_unrecorded. }
    unfold mbind at 1, M_bind in H.
    destruct (writeFile h _ (Json step.1) w1) as [[[] | |] w2] eqn:Hwr; [| done..].
    rewrite (IH _ _ _ _ H), (write_record _ _ _ _ _ Hwr), Hw1, Himg, Hg.
    cbn [flat_outputs]. by rewrite <- app_assoc.
Qed.

(** X17.  A run of the flat pass that is fulfilled has written, for the record
    at each position of the sorted input, that record with nothing but its
    image changed: to <n>.gif when placeholders are drawn, whether or not
    one was downloaded for it, and to <n> with the extension of its former
    image when the originals are copied.  It sets no id. *)
Theorem flat_pass_rewrites_only_the_image
    (h : Host) (o : Options) (fuel : nat) (w w' : World) :
  Flat.prepareMetadata h o fuel w = (Ok tt, w') →
  ∃ parsed sorted,
    Forall2 (λ file m, fs w !! (inDir o +:+ "/" +:+ file) = Some (Json m))
            (filesToParse h o) parsed
    ∧ sort Flat.compareFn parsed = Ok sorted
    ∧ records_written (trace w')
      = records_written (trace w)
          ++ flat_outputs o (testImages o && truthy_opt (giphyApiKey o)) 0 sorted.
Proof.
  unfold Flat.prepareMetadata.
  unfold mbind at 1, M_bind, emit.
  unfold mbind at 1, M_bind.
  destruct (read_all (inDir o) (filesToParse h o) _) as [[parsed | |] w1] eqn:Hread;
    [| done..].
  destruct (read_all_spec _ _ _ _ _ Hread) as [-> Hfiles].
  unfold mbind at 1, M_bind, lift.
  destruct (sort Flat.compareFn parsed) as [sorted | |] eqn:Hsort; [| done..].
  intros H.
  exists parsed, sorted. split; [exact Hfiles | split; [done |]].
  rewrite (flat_loop_outputs _ _ _ _ _ _ _ _ _ H).
  cbn [after trace]. rewrite records_written_app. cbn [records_written].
  rewrite app_nil_r.
  unfold gifIterator_of. by destruct (testImages o && truthy_opt (giphyApiKey o)).
Qed.

Lemma flat_pass_rewrites_only_the_image_witness :
  ∃ parsed sorted,
    Forall2 (λ file m,
               fs Sample.corpus !! (inDir (Sample.options_ false) +:+ "/" +:+ file)
               = Some (Json m))
            (filesToParse (Sample.studio Sample.two_files) (Sample.options_ false))
            parsed
    ∧ sort Flat.compareFn parsed = Ok sorted
    ∧ records_written (trace Sample.flat_done)
      = records_written (trace Sample.corpus)
          ++ flat_outputs (Sample.options_ false)
               (testImages (Sample.options_ false)
                && truthy_opt (giphyApiKey (Sample.options_ false))) 0 sorted.
Proof.
  apply (flat_pass_rewrites_only_the_image (Sample.studio Sample.two_files)
           (Sample.options_ false) 5 Sample.corpus Sample.flat_done).
  vm_compute. reflexivity.
Defined.

End NormalizationFurther.

(* ===================================================================== *)
(** ** Further properties of the sorts *)
(* ===================================================================== *)

Module SortFurther.
Import NormalizationFacts SortFacts.

Section Compared.
Context {A : Type}.
Variables (compareFn : A → A → Res Z) (sound : A → Prop).
Hypothesis compared_sound : ∀ a b d, compareFn a b = Ok d → sound a ∧ sound b.
Hypothesis compare_settles : ∀ a b, compareFn a b ≠ Pending.

Lemma insert_length x : ∀ l l',
  insert compareFn x l = Ok l' → length l' = S (length l).
Proof.
  induction l as [| y l IH]; intros l'; cbn [insert].
  - by intros [= <-].
  - unfold mbind, Res_bind.
    destruct (compareFn x y) as [d | |]; [| done..].
    destruct (d <? 0); [by intros [= <-] |].
    destruct (insert compareFn x l) as [rest | |] eqn:Hi; [| done..].
    intros [= <-]. cbn [length]. by rewrite (IH _ eq_refl).
Qed.

Lemma sort_append l x :
  sort compareFn (l ++ [x]) = sort compareFn l ≫= insert compareFn x.
Proof. unfold sort. by rewrite fold_left_app. Qed.

Lemma sort_length : ∀ l s, sort compareFn l = Ok s → length s = length l.
Proof.
  induction l as [| x l IH] using rev_ind; intros s.
  - by intros [= <-].
  - rewrite sort_append. unfold mbind, Res_bind.
    destruct (sort compareFn l) as [s0 | |]; [| done..].
    intros Hi. rewrite (insert_length _ _ _ Hi), (IH _ eq_refl), length_app.
    cbn [length]. lia.
Qed.

Lemma insert_settles x : ∀ l, insert compareFn x l ≠ Pending.
Proof.
  induction l as [| y l IH]; cbn [insert]; [done |].
  unfold mbind, Res_bind.
  pose proof (compare_settles x y) as Hc.
  destruct (compareFn x y) as [d | |]; [| done..].
  destruct (d <? 0); [done |].
  by destruct (insert compareFn x l).
Qed.

Lemma sort_settles : ∀ l, sort compareFn l ≠ Pending.
Proof.
  induction l as [| x l IH] using rev_ind; [done |].
  rewrite sort_append. unfold mbind, Res_bind.
  destruct (sort compareFn l) as [s0 | |]; [apply insert_settles | done..].
Qed.

(** Of two or more elements, a sort that returns has compared each. *)
Lemma sort_compares_all : ∀ l s,
  sort compareFn l = Ok s → (2 ≤ length l)%nat → Forall sound l.
Proof.
  induction l as [| x l IH] using rev_ind; intros s; [cbn; lia |].
  rewrite sort_append, length_app. cbn [length]. unfold mbind, Res_bind.
  destruct (sort compareFn l) as [s0 | |] eqn:Hs0; [| done..].
  intros Hi Hlen. pose proof (sort_length _ _ Hs0) as Hl.
  destruct s0 as [| y s0]; [cbn in Hl; lia |].
  cbn [insert] in Hi. unfold mbind, Res_bind in Hi.
  destruct (compareFn x y) as [d | |] eqn:Hc; [| done..].
  destruct (compared_sound _ _ _ Hc) as [Hx Hy].
  apply Forall_app. split; [| by constructor].
  destruct l as [| a [| b l]]; [done | | apply (IH _ eq_refl); cbn; lia].
  injection Hs0 as <-. by constructor.
Qed.

Lemma unsound_element_throws l k x :
  l !! k = Some x → ¬ sound x → (2 ≤ length l)%nat →
  ∃ e, sort compareFn l = Throw e.
Proof.
  intros Hk Hx Hlen. pose proof (sort_settles l) as Hp.
  destruct (sort compareFn l) as [s | e |] eqn:Hs; [| by eexists | done].
  pose proof (sort_compares_all _ _ Hs Hlen) as Hall.
  rewrite Forall_lookup in Hall. destruct (Hx (Hall _ _ Hk)).
Qed.

Variable raised : Error → Prop.
Hypothesis compare_raises : ∀ a b e, compareFn a b = Throw e → raised e.

Lemma insert_raises x : ∀ l e, insert compareFn x l = Throw e → raised e.
Proof.
  induction l as [| y l IH]; intros e; cbn [insert]; [done |].
  unfold mbind, Res_bind.
  destruct (compareFn x y) as [d | e1 |] eqn:Hc; [| | done].
  - destruct (d <? 0); [done |].
    destruct (insert compareFn x l) as [rest | e1 |]; [done | | done].
    intros [= <-]. by apply IH.
  - intros [= <-]. by eapply compare_raises.
Qed.

Lemma sort_raises : ∀ l e, sort compareFn l = Throw e → raised e.
Proof.
  induction l as [| x l IH] using rev_ind; intros e; [done |].
  rewrite sort_append. unfold mbind, Res_bind.
  destruct (sort compareFn l) as [s0 | e1 |]; [apply insert_raises | | done].
  intros [= <-]. by apply IH.
Qed.

End Compared.

Lemma split_compared_sound a b d :
  Split.compareFn a b = Ok d →
  (∃ n, BigNumber_from (basename a ".json") = Ok n)
  ∧ (∃ n, BigNumber_from (basename b ".json") = Ok n).
Proof.
  unfold Split.compareFn, mbind, Res_bind.
  destruct (BigNumber_from (basename a ".json")) as [x | |]; [| done..].
  destruct (BigNumber_from (basename b ".json")) as [y | |]; [| done..].
  intros _. split; by eexists.
Qed.

Lemma BigNumber_from_settles s : BigNumber_from s ≠ Pending.
Proof.
  unfold BigNumber_from.
  destruct (match s with String "-" s' => (-1, s') | _ => (1, s) end) as [sign body].
  destruct body as [| c body]; [by destruct (all_digits 10 "") |].
  repeat case_match; done.
Qed.

Lemma split_compare_settles a b : Split.compareFn a b ≠ Pending.
Proof.
  unfold Split.compareFn, mbind, Res_bind.
  pose proof (BigNumber_from_settles (basename a ".json")) as Ha.
  pose proof (BigNumber_from_settles (basename b ".json")) as Hb.
  destruct (BigNumber_from (basename a ".json")) as [x | |]; [| done..].
  destruct (BigNumber_from (basename b ".json")) as [y | |]; [| done..].
  unfold toNumber. by destruct (_ && _).
Qed.

(** X18.  Of two or more files, one whose name before ".json" is not a number
    stops the split pass at the sort: it rejects after the two directories
    were made, having read no record and written nothing. *)
Theorem unnumbered_file_rejects_split_pass
    (h : Host) (o : Options) (fuel : nat) (w : World) (k : nat) (file : string) :
  filesToParse h o !! k = Some file →
  (∀ n, BigNumber_from (basename file ".json") ≠ Ok n) →
  (2 ≤ length (filesToParse h o))%nat →
  ∃ e,
    Split.prepareMetadata h o fuel w
    = (Throw e, after [Mkdir (pathResolve (outDir o) ["assets"]);
                       Mkdir (pathResolve (outDir o) ["metadata"])] w).
Proof.
  intros Hk Hfile Hlen.
  destruct (unsound_element_throws Split.compareFn _ split_compared_sound
              split_compare_settles _ _ _ Hk) as [e He]; [| done |].
  { intros [n Hn]. by apply (Hfile n). }
  exists e. unfold Split.prepareMetadata, mbind, M_bind, emit, lift.
  rewrite He. by rewrite after_after.
Qed.

Lemma unnumbered_file_rejects_split_pass_witness :
  ∃ e,
    Split.prepareMetadata
      (Sample.studio [("10.json", true); ("readme.json", true)])
      (Sample.options_ false) 5 Sample.corpus
    = (Throw e,
       after [Mkdir (pathResolve (outDir (Sample.options_ false)) ["assets"]);
              Mkdir (pathResolve (outDir (Sample.options_ false)) ["metadata"])]
             Sample.corpus).
Proof.
  apply (unnumbered_file_rejects_split_pass
           (Sample.studio [("10.json", true); ("readme.json", true)])
           (Sample.options_ false) 5 Sample.corpus 1 "readme.json").
  - reflexivity.
  - intros n. vm_compute. discriminate.
  - vm_compute. lia.
Defined.

Lemma flat_compared_sound a b d :
  Flat.compareFn a b = Ok d → owners a ≠ [] ∧ owners b ≠ [].
Proof.
  unfold Flat.compareFn, mbind, Res_bind.
  destruct (owners a) as [| x xs]; [done |].
  destruct (owners b) as [| y ys]; [done |]. done.
Qed.

Lemma flat_compare_settles a b : Flat.compareFn a b ≠ Pending.
Proof.
  unfold Flat.compareFn, mbind, Res_bind.
  destruct (owners a) as [| x xs]; [done |].
  by destruct (owners b) as [| y ys].
Qed.

Lemma flat_compare_raises a b e :
  Flat.compareFn a b = Throw e →
  e = TypeError "Reduce of empty array with no initial value".
Proof.
  unfold Flat.compareFn, mbind, Res_bind.
  destruct (owners a) as [| x xs]; [by intros [= <-] |].
  destruct (owners b) as [| y ys]; [by intros [= <-] | done].
Qed.

Lemma read_all_complete dir w : ∀ files parsed,
  Forall2 (λ file m, fs w !! (dir +:+ "/" +:+ file) = Some (Json m)) files parsed →
  read_all dir files w = (Ok parsed, w).
Proof.
  induction 1 as [| file m files parsed Hfile _ IH]; [done |].
  cbn [read_all]. unfold mbind at 1, M_bind, readJson. rewrite Hfile.
  unfold mbind, M_bind. by rewrite IH.
Qed.

(** X19.  Of two or more records, one without owners stops the flat pass at the
    sort, with the TypeError of a reduce over an empty array; only the
    output directory was made.  A record that is alone is never compared:
    the pass goes on to its loop even when the record has no owners. *)
Theorem ownerless_record_rejects_flat_pass
    (h : Host) (o : Options) (fuel : nat) (w : World)
    (parsed : list IOpenSeaMetadata) (k : nat) (m : IOpenSeaMetadata) :
  Forall2 (λ file m, fs w !! (inDir o +:+ "/" +:+ file) = Some (Json m))
          (filesToParse h o) parsed →
  parsed !! k = Some m →
  owners m = [] →
  ((2 ≤ length parsed)%nat
   → Flat.prepareMetadata h o fuel w
     = (Throw (TypeError "Reduce of empty array with no initial value"),
        after [Mkdir (outDir o)] w))
  ∧ (length parsed = 1%nat
     → Flat.prepareMetadata h o fuel w
       = Flat.loop h o fuel 1 0 [m] (gifIterator_of o) (after [Mkdir (outDir o)] w)).
Proof.
  intros Hfiles Hk Hm.
  assert (∀ w0, fs w0 = fs w →
                read_all (inDir o) (filesToParse h o) w0 = (Ok parsed, w0)) as Hread.
  { intros w0 Hw0. apply read_all_complete.
    eapply Forall2_impl; [exact Hfiles |]. intros file m0. by rewrite Hw0. }
  unfold Flat.prepareMetadata, mbind, M_bind, emit, lift.
  cbv beta. rewrite (Hread (after [Mkdir (outDir o)] w) eq_refl).
  split.
  - intros Hlen.
    destruct (unsound_element_throws Flat.compareFn _ flat_compared_sound
                flat_compare_settles _ _ _ Hk) as [e He]; [by intros H | done |].
    rewrite He.
    by rewrite (sort_raises Flat.compareFn _ flat_compare_raises _ _ He).
  - intros Hlen. destruct parsed as [| m0 [| m1 parsed]]; [done | | done].
    destruct k as [| k]; [| done]. by injection Hk as ->.
Qed.

Lemma ownerless_record_rejects_flat_pass_witness :
  (((2 ≤ length [Sample.eventless; Sample.newer])%nat
    → Flat.prepareMetadata (Sample.studio [("30.json", true); ("10.json", true)])
        (Sample.options_ false) 5 Scenario.ownerless_corpus
      = (Throw (TypeError "Reduce of empty array with no initial value"),
         after [Mkdir (outDir (Sample.options_ false))] Scenario.ownerless_corpus))
   ∧ (length [Sample.eventless; Sample.newer] = 1%nat
      → Flat.prepareMetadata (Sample.studio [("30.json", true); ("10.json", true)])
          (Sample.options_ false) 5 Scenario.ownerless_corpus
        = Flat.loop (Sample.studio [("30.json", true); ("10.json", true)])
            (Sample.options_ false) 5 1 0 [Sample.eventless]
            (gifIterator_of (Sample.options_ false))
            (after [Mkdir (outDir (Sample.options_ false))]
                   Scenario.ownerless_corpus))).
Proof.
  apply (ownerless_record_rejects_flat_pass
           (Sample.studio [("30.json", true); ("10.json", true)])
           (Sample.options_ false) 5 Scenario.ownerless_corpus
           [Sample.eventless; Sample.newer] 0 Sample.eventless).
  - repeat constructor.
  - reflexivity.
  - reflexivity.
Defined.

(** *** The names a pass gives, read back *)

Lemma go_append x : ∀ s, pretty_N_go x s = pretty_N_go x "" +:+ s.
Proof.
  induction (N.lt_wf_0 x) as [x _ IH]; intros s.
  destruct (decide (x = 0%N)) as [-> | Hx]; [done |].
  assert (x `div` 10 < x)%N as Hlt by (apply N.div_lt; lia).
  rewrite (pretty_N_go_step x s), (pretty_N_go_step x "") by lia.
  rewrite (IH _ Hlt (String _ s)), (IH _ Hlt (String _ "")).
  by rewrite StringFacts.app_assoc_s.
Qed.

Lemma digit_of_char d :
  (d < 10)%N → digit 10 (pretty_N_char d) = Some (Z.of_N d).
Proof.
  intros Hd.
  assert (d = 0 ∨ d = 1 ∨ d = 2 ∨ d = 3 ∨ d = 4 ∨ d = 5 ∨ d = 6 ∨ d = 7
          ∨ d = 8 ∨ d = 9)%N as H by lia.
  repeat (destruct H as [-> | H]; [reflexivity |]). by subst.
Qed.

Lemma digits_of_pretty x :
  (0 < x)%N → ∀ s,
  digits 10 (pretty_N_go x "" +:+ s) None = digits 10 s (Some (Z.of_N x)).
Proof.
  induction (N.lt_wf_0 x) as [x _ IH]; intros Hx s.
  rewrite pretty_N_go_step, go_append, StringFacts.app_assoc_s by done.
  cbn [String.append].
  pose proof (digit_of_char (x `mod` 10)%N (N.mod_lt x 10 ltac:(lia))) as Hd.
  pose proof (N.div_mod x 10 ltac:(lia)) as Hdm.
  destruct (decide (x `div` 10 = 0)%N) as [Hz | Hz].
  - rewrite Hz, pretty_N_go_0. cbn [String.append digits]. rewrite Hd.
    cbn [default]. unfold Datatypes.id. do 2 f_equal. lia.
  - assert (x `div` 10 < x)%N as Hlt by (apply N.div_lt; lia).
    assert (0 < x `div` 10)%N as Hpos by (by apply N.neq_0_lt_0).
    rewrite (IH _ Hlt Hpos).
    cbn [digits]. rewrite Hd. cbn [default]. unfold Datatypes.id. do 2 f_equal. lia.
Qed.

Lemma decimal_pretty x : ∀ s,
  forallb (λ c, bool_decide (is_Some (digit 10 c))) (list_ascii_of_string s) = true →
  forallb (λ c, bool_decide (is_Some (digit 10 c)))
          (list_ascii_of_string (pretty_N_go x s)) = true.
Proof.
  induction (N.lt_wf_0 x) as [x _ IH]; intros s Hs.
  destruct (decide (x = 0%N)) as [-> | Hx]; [done |].
  rewrite pretty_N_go_step by lia.
  apply IH; [apply N.div_lt; lia |].
  cbn [list_ascii_of_string forallb]. rewrite Hs.
  rewrite (digit_of_char (x `mod` 10)%N (N.mod_lt x 10 ltac:(lia))). done.
Qed.

Lemma number_decimal i :
  all_digits 10 (number i) = true
  ∧ digits 10 (number i) None = Some (Z.of_nat i + 1).
Proof.
  unfold number, pretty, pretty_Z.
  destruct (Z.of_nat i + 1) as [| p | p] eqn:Hp; [lia | | lia].
  unfold pretty, pretty_positive, pretty, pretty_N.
  rewrite decide_False by done.
  split.
  - unfold all_digits. rewrite (decimal_pretty (N.pos p) "" eq_refl).
    rewrite pretty_N_go_step, go_append by lia.
    by destruct (pretty_N_go _ "").
  - pose proof (digits_of_pretty (N.pos p) ltac:(lia) "") as H.
    rewrite StringFacts.app_empty_r in H. exact H.
Qed.

Lemma decimal_head c s :
  all_digits 10 (String c s) = true →
  Ascii.eqb c "x" = false ∧ Ascii.eqb c "X" = false ∧ c ≠ "-"%char
  ∧ all_digits 10 s = JS.truthy s.
Proof.
  unfold all_digits. cbn [JS.truthy list_ascii_of_string forallb andb].
  intros H. apply andb_prop in H as [Hc ->]. rewrite andb_true_r.
  apply bool_decide_eq_true in Hc as [d Hd].
  destruct c as [[] [] [] [] [] [] [] []]; try discriminate Hd; done.
Qed.

Lemma BigNumber_from_decimal s :
  all_digits 10 s = true → BigNumber_from s = Ok (default 0 (digits 10 s None)).
Proof.
  intros Hs. destruct s as [| c s]; [done |].
  destruct (decimal_head _ _ Hs) as (_ & _ & Hc & Htail).
  unfold BigNumber_from.
  assert ((match String c s with String "-" s' => (-1, s') | _ => (1, String c s) end)
          = (1, String c s)) as ->.
  { destruct c as [[] [] [] [] [] [] [] []]; done. }
  destruct s as [| x s].
  - rewrite Hs. destruct c as [[] [] [] [] [] [] [] []]; by rewrite ?Z.mul_1_l.
  - assert (all_digits 10 (String x s) = true) as Hx by by rewrite Htail.
    destruct (decimal_head _ _ Hx) as (Hx1 & Hx2 & _).
    rewrite Hs. destruct c as [[] [] [] [] [] [] [] []];
      rewrite ?Hx1, ?Hx2; cbn [orb andb]; by rewrite ?Z.mul_1_l.
Qed.

Lemma substring_take a b : substring 0 (String.length a) (a +:+ b) = a.
Proof.
  induction a as [| c a IH]; cbn [String.append String.length substring].
  - by destruct b.
  - by rewrite IH.
Qed.

Lemma substring_skip a b k : substring (String.length a) k (a +:+ b) = substring 0 k b.
Proof. induction a as [| c a IH]; cbn [String.append String.length substring]; done. Qed.

Lemma length_append a b :
  String.length (a +:+ b) = (String.length a + String.length b)%nat.
Proof. induction a as [| c a IH]; cbn [String.append String.length]; lia. Qed.

Lemma rsplit_decimal s t :
  forallb (λ c, bool_decide (is_Some (digit 10 c))) (list_ascii_of_string s) = true →
  rsplit "/" t = None → rsplit "/" (s +:+ t) = None.
Proof.
  intros Hs Ht. induction s as [| c s IH]; [done |].
  cbn [list_ascii_of_string forallb] in Hs. apply andb_prop in Hs as [Hc Hs].
  cbn [String.append rsplit]. rewrite (IH Hs).
  apply bool_decide_eq_true in Hc as [d Hd].
  destruct c as [[] [] [] [] [] [] [] []]; try discriminate Hd; done.
Qed.

Lemma written_name_parses i :
  BigNumber_from (basename (number i +:+ ".json") ".json") = Ok (Z.of_nat i + 1).
Proof.
  destruct (number_decimal i) as [Hall Hval].
  assert (basename (number i +:+ ".json") ".json" = number i) as Hbase.
  { unfold basename, last_segment.
    rewrite rsplit_decimal; [| by apply andb_prop in Hall as [_ ?] | done].
    unfold endsWith. rewrite length_append.
    replace (String.length (number i) + String.length ".json"
             - String.length ".json")%nat with (String.length (number i)) by lia.
    rewrite substring_skip, substring_take.
    assert ((String.length ".json" <=? String.length (number i) + String.length ".json")%nat
            = true) as -> by (apply Nat.leb_le; lia).
    cbn [andb substring String.length String.eqb Ascii.eqb].
    destruct (number i) as [| c s] eqn:Hn; [done |].
    assert (String.eqb (String c s +:+ ".json") ".json" = false) as ->.
    { apply String.eqb_neq. intros H. apply (f_equal String.length) in H.
      rewrite length_append in H. cbn in H. lia. }
    done. }
  rewrite Hbase, (BigNumber_from_decimal _ Hall), Hval. done.
Qed.

Lemma file_number_of_number i : file_number (number i +:+ ".json") = Z.of_nat i + 1.
Proof. unfold file_number. by rewrite written_name_parses. Qed.

Section Settled.
Context {A : Type}.
Variables (compareFn : A → A → Res Z) (known : A → Prop).
Hypothesis compare_known :
  ∀ a b, known a → known b → ∃ d, compareFn a b = Ok d.

Lemma insert_known x : ∀ l,
  known x → Forall known l → ∃ l', insert compareFn x l = Ok l' ∧ Forall known l'.
Proof.
  induction l as [| y l IH]; intros Hx Hl; cbn [insert].
  - eexists. split; [done | by constructor].
  - apply Forall_cons in Hl as [Hy Hl].
    destruct (compare_known _ _ Hx Hy) as [d ->]. unfold mbind, Res_bind.
    destruct (d <? 0).
    + eexists. split; [done |]. by repeat constructor.
    + destruct (IH Hx Hl) as (l' & -> & Hl'). eexists. split; [done |].
      by constructor.
Qed.

Lemma sort_known : ∀ l,
  Forall known l → ∃ s, sort compareFn l = Ok s ∧ Forall known s.
Proof.
  induction l as [| x l IH] using rev_ind; intros Hl.
  - exists []. by split.
  - apply Forall_app in Hl as [Hl Hx]. apply Forall_cons in Hx as [Hx _].
    destruct (IH Hl) as (s0 & Hs0 & Hk).
    rewrite sort_append, Hs0. apply (insert_known _ _ Hx Hk).
Qed.

End Settled.

Section Unique.
Context {A : Type}.
Variable key : A → Z.

(** A list in ascending order of keys that has the elements of a list in
    strictly ascending order is that list. *)
Lemma sorted_unique : ∀ s t,
  StronglySorted (precedes key Z.ltb) s →
  StronglySorted (λ a b, key a < key b) t →
  Permutation s t → s = t.
Proof.
  induction s as [| a s IH]; intros t Hs Ht Hperm.
  - by apply Permutation_nil in Hperm.
  - destruct t as [| b t]; [by apply Permutation_sym, Permutation_nil in Hperm |].
    apply StronglySorted_inv in Hs as [Hs Ha].
    apply StronglySorted_inv in Ht as [Ht Hb].
    assert (a = b) as ->.
    { assert (a ∈ b :: t) as Hin by (rewrite <- Hperm; left).
      assert (b ∈ a :: s) as Hin' by (rewrite Hperm; left).
      apply elem_of_cons in Hin as [-> | Hin]; [done |].
      apply elem_of_cons in Hin' as [-> | Hin']; [done |].
      rewrite Forall_forall in Ha, Hb.
      pose proof (Ha _ Hin') as H1. pose proof (Hb _ Hin) as H2.
      unfold precedes in H1. lia. }
    f_equal. apply IH; [done | done |]. by apply Permutation_cons_inv in Hperm.
Qed.

End Unique.

Lemma written_names_ascend n i :
  StronglySorted (λ a b, file_number a < file_number b)
                 (map (λ j, number j +:+ ".json") (seq i n)).
Proof.
  revert i. induction n as [| n IH]; intros i; cbn [seq map]; constructor.
  - apply IH.
  - apply Forall_map, Forall_forall. intros j Hj. cbn beta.
    apply elem_of_seq in Hj. rewrite !file_number_of_number. lia.
Qed.

(** X20.  The names a pass gives to its records are read back by the comparator
    of the split pass as the numbers they show: in whatever order a
    directory lists the files 1.json to n.json, the sort returns them in
    the order of their numbers (10.json behind 9.json). *)
Theorem written_names_sort_by_number (n : nat) (files : list string) :
  Z.of_nat n < 2 ^ 53 →
  Permutation files (map (λ j, number j +:+ ".json") (seq 0 n)) →
  sort Split.compareFn files = Ok (map (λ j, number j +:+ ".json") (seq 0 n))
  ∧ ∀ i, file_number (number i +:+ ".json") = Z.of_nat i + 1.
Proof.
  intros Hn Hperm. split; [| apply file_number_of_number].
  destruct (sort_known Split.compareFn
              (λ f, ∃ j, (j < n)%nat ∧ f = number j +:+ ".json")) with files
    as (s & Hs & _).
  - intros a b (i & Hi & ->) (j & Hj & ->).
    unfold Split.compareFn, mbind, Res_bind, toNumber.
    rewrite !written_name_parses.
    assert ((- 2 ^ 53 <? Z.of_nat i + 1 - (Z.of_nat j + 1))
            && (Z.of_nat i + 1 - (Z.of_nat j + 1) <? 2 ^ 53) = true) as ->; [| by eexists].
    apply andb_true_intro. split; apply Z.ltb_lt; lia.
  - rewrite Hperm. apply Forall_map, Forall_forall. intros j Hj.
    apply elem_of_seq in Hj. exists j. split; [lia | done].
  - rewrite Hs. f_equal.
    destruct (split_sort_spec _ _ Hs) as (Hps & Hsorted & _).
    apply (sorted_unique file_number); [done | apply written_names_ascend |].
    by rewrite <- Hps.
Qed.

Lemma written_names_sort_by_number_witness :
  sort Split.compareFn ["10.json"; "1.json"; "2.json"; "3.json"; "4.json"; "5.json";
                        "6.json"; "7.json"; "8.json"; "9.json"]
  = Ok (map (λ j, number j +:+ ".json") (seq 0 10))
  ∧ ∀ i, file_number (number i +:+ ".json") = Z.of_nat i + 1.
Proof.
  apply (written_names_sort_by_number 10
           ["10.json"; "1.json"; "2.json"; "3.json"; "4.json"; "5.json";
            "6.json"; "7.json"; "8.json"; "9.json"]).
  - vm_compute. reflexivity.
  - vm_compute.
    exact (Permutation_cons_append
             ["1.json"; "2.json"; "3.json"; "4.json"; "5.json";
              "6.json"; "7.json"; "8.json"; "9.json"] "10.json").
Defined.

End SortFurther.

(* ===================================================================== *)
(** ** Further properties of the subscription *)
(* ===================================================================== *)

Module SubscriptionFacts.
Import MergeMap.

Lemma started_values_app {A} (obs1 obs2 : list (Obs A)) :
  started_values (obs1 ++ obs2) = started_values obs1 ++ started_values obs2.
Proof. induction obs1 as [| [a | a] obs1 IH]; cbn; by rewrite ?IH. Qed.

Lemma arrivals_cons {A} (sig : Signal A) sigs :
  arrivals (sig :: sigs) = arrivals [sig] ++ arrivals sigs.
Proof. by destruct sig. Qed.

Section Order.
Context {A : Type}.
Variable concurrent : nat.

Lemma step_in_order (s : State A) sig s' obs :
  orderly concurrent s → step concurrent s sig = Some (s', obs) →
  orderly concurrent s'
  ∧ (errored s = true → errored s' = true ∧ started_values obs = [])
  ∧ ∃ rest,
      buffer s ++ arrivals [sig] = started_values obs ++ rest
      ∧ (errored s' = false → rest = buffer s').
Proof.
  unfold orderly. intros [Hfull Herr].
  destruct sig as [a | k | k]; cbn [step arrivals].
  - destruct (errored s) eqn:He.
    + intros [= <- <-]. rewrite He. split; [done |]. split; [done |].
      eexists. by split.
    + destruct (length (active s) <? concurrent)%nat eqn:Hlt.
      * intros [= <- <-]. cbn [buffer active errored started_values].
        apply Nat.ltb_lt in Hlt.
        destruct Hfull as [Hb | Hc]; [| lia]. rewrite Hb.
        split; [by split; [left |] |]. split; [done |]. by exists [].
      * intros [= <- <-]. cbn [buffer active errored started_values].
        apply Nat.ltb_ge in Hlt.
        split; [by split; [right |] |]. split; [done |]. by eexists.
  - destruct (active s !! k) as [a |] eqn:Hk; [| done].
    assert (length (active s) = S (length (delete k (active s)))) as Hlen.
    { rewrite length_delete by by eexists.
      apply lookup_lt_Some in Hk. lia. }
    destruct (buffer s) as [| b waiting] eqn:Hb.
    + intros [= <- <-]. cbn [buffer active errored started_values].
      split; [by split; [left |] |]. split; [done |]. by exists [].
    + assert (errored s = false) as He.
      { destruct (errored s); [by specialize (Herr eq_refl) | done]. }
      destruct (length (delete k (active s)) <? concurrent)%nat eqn:Hlt.
      * intros [= <- <-]. cbn [buffer active errored started_values].
        destruct Hfull as [? | Hc]; [congruence |].
        rewrite He.
        split; [split; [right; rewrite length_app; cbn; lia | done] |].
        split; [done |]. exists waiting. by rewrite app_nil_r.
      * intros [= <- <-]. cbn [buffer active errored started_values].
        apply Nat.ltb_ge in Hlt. rewrite He.
        split; [by split; [right |] |]. split; [done |].
        eexists. split; [by rewrite app_nil_r | done].
  - destruct (active s !! k) as [a |] eqn:Hk; [| done].
    intros [= <- <-]. cbn [buffer active errored started_values].
    split; [by split; [left |] |]. split; [done |]. by eexists.
Qed.

Lemma run_in_order sigs : ∀ (s s' : State A) obs,
  orderly concurrent s → run concurrent s sigs = Some (s', obs) →
  orderly concurrent s'
  ∧ (errored s = true → errored s' = true ∧ started_values obs = [])
  ∧ ∃ rest,
      buffer s ++ arrivals sigs = started_values obs ++ rest
      ∧ (errored s' = false → rest = buffer s').
Proof.
  induction sigs as [| sig sigs IH]; intros s s' obs Hs; cbn [run].
  - intros [= <- <-]. split; [done |]. split; [done |].
    exists (buffer s). by rewrite app_nil_r.
  - destruct (step concurrent s sig) as [[s1 obs1] |] eqn:Hstep; [| done].
    destruct (run concurrent s1 sigs) as [[s2 obs2] |] eqn:Hrun; [| done].
    intros [= <- <-].
    destruct (step_in_order _ _ _ _ Hs Hstep) as (Hs1 & He1 & rest1 & Hr1 & Hb1).
    destruct (IH _ _ _ Hs1 Hrun) as (Hs2 & He2 & rest2 & Hr2 & Hb2).
    split; [done |]. split.
    + intros He. destruct (He1 He) as [He' Hn1]. destruct (He2 He') as [He'' Hn2].
      by rewrite started_values_app, Hn1, Hn2.
    + destruct (errored s1) eqn:Herr1.
      * destruct (He2 eq_refl) as [He' Hn2].
        exists (rest1 ++ arrivals sigs). split; [| by rewrite He'].
        rewrite arrivals_cons, started_values_app, app_assoc, Hr1, Hn2.
        by rewrite app_nil_r, app_assoc.
      * exists rest2. split; [| done].
        rewrite arrivals_cons, started_values_app, app_assoc, Hr1, (Hb1 eq_refl).
        by rewrite <- !app_assoc, Hr2.
Qed.

Lemma run_app sigs1 : ∀ sigs2 (s s' : State A) obs,
  run concurrent s (sigs1 ++ sigs2) = Some (s', obs) →
  ∃ s1 obs1 obs2,
    run concurrent s sigs1 = Some (s1, obs1)
    ∧ run concurrent s1 sigs2 = Some (s', obs2)
    ∧ obs = obs1 ++ obs2.
Proof.
  induction sigs1 as [| sig sigs1 IH]; intros sigs2 s s' obs; cbn [app run].
  - intros H. by exists s, [], obs.
  - destruct (step concurrent s sig) as [[s0 obs0] |]; [| done].
    destruct (run concurrent s0 (sigs1 ++ sigs2)) as [[s2 obs2] |] eqn:Hrun;
      [| done].
    intros [= <- <-].
    destruct (IH _ _ _ _ Hrun) as (s1 & o1 & o2 & -> & Hr2 & ->).
    exists s1, (obs0 ++ o1), o2. by rewrite app_assoc.
Qed.

End Order.

Lemma idle_orderly {A} concurrent : orderly concurrent (@idle A).
Proof. split; [by left | done]. Qed.

(** X21.  The operator starts the enrichments in the order the assets arrived,
    without leaving one out: what it has started is a prefix of what
    arrived, and as long as no enrichment was rejected the rest is exactly
    what waits in its buffer. *)
Theorem enrichments_start_in_arrival_order
    (sigs : list (Signal CollectionAsset)) (s : State CollectionAsset)
    (obs : list (Obs CollectionAsset)) :
  run enrichment_concurrency idle sigs = Some (s, obs) →
  ∃ rest,
    arrivals sigs = started_values obs ++ rest
    ∧ (errored s = false → rest = buffer s).
Proof.
  intros Hrun.
  destruct (run_in_order enrichment_concurrency sigs idle s obs
              (idle_orderly _) Hrun) as (_ & _ & rest & Hrest & Hb).
  by exists rest.
Qed.

Lemma enrichments_start_in_arrival_order_witness :
  ∃ rest,
    arrivals Sample.three_assets
    = started_values (Sample.after_three_assets).2 ++ rest
    ∧ (errored (Sample.after_three_assets).1 = false
       → rest = buffer (Sample.after_three_assets).1).
Proof.
  apply (enrichments_start_in_arrival_order Sample.three_assets
           (Sample.after_three_assets).1 (Sample.after_three_assets).2).
  reflexivity.
Defined.

(** X22.  Once an enrichment is rejected the operator starts nothing more: the
    assets that waited are dropped and those that arrive later are
    ignored. *)
Theorem nothing_starts_after_a_rejection
    (before behind : list (Signal CollectionAsset)) (k : nat)
    (s : State CollectionAsset) (obs : list (Obs CollectionAsset)) :
  run enrichment_concurrency idle (before ++ Rejected k :: behind) = Some (s, obs) →
  ∃ s1 obs1 a obs2,
    run enrichment_concurrency idle before = Some (s1, obs1)
    ∧ active s1 !! k = Some a
    ∧ obs = obs1 ++ Settled a :: obs2
    ∧ started_values obs2 = []
    ∧ errored s = true ∧ buffer s = [].
Proof.
  intros Hrun.
  destruct (run_app _ _ _ _ _ _ Hrun) as (s1 & obs1 & obs' & Hr1 & Hr2 & ->).
  destruct (run_in_order _ _ _ _ _ (idle_orderly _) Hr1) as (Hs1 & _).
  cbn [run step] in Hr2.
  destruct (active s1 !! k) as [a |] eqn:Hk; [| done].
  destruct (run enrichment_concurrency _ behind) as [[s2 obs2] |] eqn:Hr3; [| done].
  injection Hr2 as <- <-.
  match type of Hr3 with
  | run _ ?s0 _ = _ =>
      assert (orderly enrichment_concurrency s0) as Hs0 by (split; [by left | done])
  end.
  destruct (run_in_order _ _ _ _ _ Hs0 Hr3) as ([_ Hbuf] & He & _).
  destruct (He eq_refl) as [He' Hn].
  exists s1, obs1, a, obs2. by rewrite (Hbuf He').
Qed.

Lemma nothing_starts_after_a_rejection_witness :
  ∃ s1 obs1 a obs2,
    run enrichment_concurrency idle Scenario.rejected_first = Some (s1, obs1)
    ∧ active s1 !! 0%nat = Some a
    ∧ Scenario.stream_after_rejection.2 = obs1 ++ Settled a :: obs2
    ∧ started_values obs2 = []
    ∧ errored Scenario.stream_after_rejection.1 = true
    ∧ buffer Scenario.stream_after_rejection.1 = [].
Proof.
  apply (nothing_starts_after_a_rejection Scenario.rejected_first
           Scenario.arriving_late 0
           Scenario.stream_after_rejection.1 Scenario.stream_after_rejection.2).
  reflexivity.
Defined.

End SubscriptionFacts.

(* ===================================================================== *)
(** ** The holders of the airdrop *)
(* ===================================================================== *)

Module AirdropFacts.

(** X23.  The count is taken of the rows behind the header: a list of holders is
    accepted exactly when it has sixteen rows.  The address of a holder is
    the second column of its row, and a row without one counts like any
    other: its address is undefined, and the list is accepted all the same. *)
Theorem holders_are_counted_behind_the_header (record : list (list string)) :
  length record = 16%nat →
  ∃ addresses,
    Airdrop.addresses_of record = Ok addresses
    ∧ length addresses = Airdrop.count
    ∧ (∀ k row, record !! S k = Some row → addresses !! k = Some (row !! 1%nat))
    ∧ ∀ shorter,
        (length shorter ≠ 16)%nat →
        Airdrop.addresses_of shorter
        = Throw (Err_ ("Expected 15 addresses, got "
                       +:+ pretty (length shorter - 1)%nat)).
Proof.
  intros Hlen. unfold Airdrop.addresses_of, Airdrop.count.
  rewrite length_map, length_drop, Hlen. cbn [Nat.sub Nat.eqb negb].
  eexists. split; [done |]. split; [| split].
  - rewrite length_map, length_drop. lia.
  - intros k row Hrow. rewrite list_lookup_fmap, lookup_drop. cbn. by rewrite Hrow.
  - intros shorter Hs. rewrite length_map, length_drop.
    destruct (length shorter - 1 =? 15)%nat eqn:E; [apply Nat.eqb_eq in E; lia |].
    done.
Qed.

Lemma holders_are_counted_behind_the_header_witness :
  ∃ addresses,
    Airdrop.addresses_of Scenario.holders = Ok addresses
    ∧ length addresses = Airdrop.count
    ∧ (∀ k row, Scenario.holders !! S k = Some row
                → addresses !! k = Some (row !! 1%nat))
    ∧ ∀ shorter,
        (length shorter ≠ 16)%nat →
        Airdrop.addresses_of shorter
        = Throw (Err_ ("Expected 15 addresses, got "
                       +:+ pretty (length shorter - 1)%nat)).
Proof.
  apply (holders_are_counted_behind_the_header Scenario.holders).
  reflexivity.
Defined.

End AirdropFacts.
